(** * UPD -- Upgrade NPM Package Dependencies: a shallow embedding of [upd.js]

    The development follows the main asynchronous function of [upd.js]:
    the inventory built by [mixin], the selection of the names to look up,
    the merge of the resolved versions, the patching of the [package.json]
    syntax tree, the report and the final write.

    JavaScript strings are sequences of UTF-16 code units; the model keeps the
    code units below 256, as [list ascii].  Exceptions are values of an error
    monad; the file system is the content of the one file the program reads
    and writes. *)

From Stdlib Require Import List Ascii String Bool Arith NArith Lia.
Import ListNotations.

(** ** JavaScript strings *)

Definition jsstring := list ascii.

Definition str (s : string) : jsstring := list_ascii_of_string s.

Definition code (c : ascii) : N := N_of_ascii c.

Fixpoint str_eqb (a b : jsstring) : bool :=
  match a, b with
  | [], [] => true
  | x :: a', y :: b' => Ascii.eqb x y && str_eqb a' b'
  | _, _ => false
  end.

(** The longest prefix whose characters satisfy [p], and the rest. *)
Fixpoint span (p : ascii -> bool) (s : jsstring) : jsstring * jsstring :=
  match s with
  | [] => ([], [])
  | c :: r => if p c then let (a, b) := span p r in (c :: a, b) else ([], s)
  end.

Fixpoint dropWhile (p : ascii -> bool) (s : jsstring) : jsstring :=
  match s with
  | [] => []
  | c :: r => if p c then dropWhile p r else s
  end.

(** ** Character classes of the regular expressions *)

(** [\s] on code units below 256: TAB, LF, VT, FF, CR, SP and NBSP. *)
Definition is_space (c : ascii) : bool :=
  let n := code c in
  ((9 <=? n) && (n <=? 13) || (n =? 32) || (n =? 160))%N.

(** [\d] *)
Definition is_digit (c : ascii) : bool :=
  let n := code c in ((48 <=? n) && (n <=? 57))%N.

(** [[\^~]] *)
Definition is_operator (c : ascii) : bool :=
  (Ascii.eqb c "^" || Ascii.eqb c "~")%char.

(** [[^<>=|\s]] *)
Definition is_version_char (c : ascii) : bool :=
  negb (Ascii.eqb c "<" || Ascii.eqb c ">" || Ascii.eqb c "=" || Ascii.eqb c "|"
        || is_space c)%char.

(** ** The specifier pattern of [mixin]

    [sOld.match] against the pattern (written here with blanks between its
    parts)  ^ \s* (?: [\^~] \s* )? ( \d+ [^<>=|\s]* ) \s* $  : the result is
    the first capture group, [None] stands for [null].  Every quantifier of
    the pattern is followed by a character class disjoint from its own, so
    the greedy match is the only one. *)
Definition match_specifier (sOld : jsstring) : option jsstring :=
  let s1 := dropWhile is_space sOld in
  let s2 := match s1 with
            | c :: r => if is_operator c then dropWhile is_space r else s1
            | [] => s1
            end in
  let (digits, r1) := span is_digit s2 in
  match digits with
  | [] => None
  | _ :: _ =>
      let (tail, r2) := span is_version_char r1 in
      if forallb is_space r2 then Some (digits ++ tail) else None
  end.

(** The shape of the strings the pattern accepts, read off the pattern:
    blanks, an optional operator followed by blanks, the captured token
    (a digit, then characters other than comparators and blanks), blanks. *)
Definition version_token (v : jsstring) : Prop :=
  exists d t, v = d :: t /\ is_digit d = true /\ forallb is_version_char t = true.

Definition operator_prefix (op : jsstring) : Prop :=
  op = [] \/ exists c ws, op = c :: ws /\ is_operator c = true /\ forallb is_space ws = true.

Definition pinned_form (s v : jsstring) : Prop :=
  exists ws1 op ws3,
    s = ws1 ++ op ++ v ++ ws3 /\
    forallb is_space ws1 = true /\ operator_prefix op /\
    version_token v /\ forallb is_space ws3 = true.

(** The grammar as the specification words it: optional whitespace, an
    optional [^] or [~], then the token, and nothing else. *)
Definition spec_operator (op : jsstring) : Prop :=
  op = [] \/ op = str "^" \/ op = str "~".

Definition spec_pinned_form (s v : jsstring) : Prop :=
  exists ws op,
    s = ws ++ op ++ v /\
    forallb is_space ws = true /\ spec_operator op /\ version_token v.

(** ** Exceptions *)

Inductive error : Type :=
| ManifestNotFound (file : jsstring)
| ParseError
| TypeError
| RegistryError (name : jsstring)
| NoLatestVersion (name : jsstring)
| UpdateFailed (name sOld vOld vNew : jsstring)
| NodeNotFound (name section : jsstring).

Inductive result (A : Type) : Type :=
| Ok (a : A)
| Throw (e : error).

Arguments Ok {A} a.
Arguments Throw {A} e.

Definition bind {A B : Type} (r : result A) (f : A -> result B) : result B :=
  match r with
  | Ok a => f a
  | Throw e => Throw e
  end.

Notation "x <- r ;; k" := (bind r (fun x => k))
  (at level 61, r at next level, right associativity).
Notation "' p <- r ;; k" := (bind r (fun p => k))
  (at level 61, p pattern, r at next level, right associativity).

(** ** Selection of the modules: [micromatch] *)

(** Modelled from the spec: the glob matching library [micromatch] is not
    part of the sources.  Section 4.2 asks for glob-style matching where
    the pattern "*" includes everything: [*] stands for any run of
    characters, [?] for one character, every other character for itself. *)
Fixpoint glob_match (pat name : jsstring) : bool :=
  match pat with
  | [] => match name with [] => true | _ :: _ => false end
  | c :: pat' =>
      if Ascii.eqb c "*" then
        (fix star (n : jsstring) : bool :=
           glob_match pat' n ||
           match n with [] => false | _ :: n' => star n' end) name
      else
        match name with
        | [] => false
        | d :: name' => (Ascii.eqb c "?" || Ascii.eqb c d) && glob_match pat' name'
        end
  end.

(** [argv._[0].match(/^!/) !== null] *)
Definition is_negated (pat : jsstring) : bool :=
  match pat with
  | c :: _ => Ascii.eqb c "!"
  | [] => false
  end.

(** Modelled from the spec: [micromatch(list, patterns)], section 4.2:
    the patterns are applied in order; a pattern includes the names it
    matches, a negated one (leading [!]) excludes them. *)
Fixpoint apply_patterns (patterns : list jsstring) (name : jsstring) (sel : bool) : bool :=
  match patterns with
  | [] => sel
  | p :: ps =>
      match p with
      | c :: q =>
          if Ascii.eqb c "!"
          then apply_patterns ps name (if glob_match q name then false else sel)
          else apply_patterns ps name (sel || glob_match p name)
      | [] => apply_patterns ps name (sel || glob_match p name)
      end
  end.

Definition micromatch (names patterns : list jsstring) : list jsstring :=
  filter (fun n => apply_patterns patterns n false) names.

(** ** The inventory *)

Inductive State : Type := ignored | todo | skipped | check | kept | updated.

Definition State_eqb (a b : State) : bool :=
  match a, b with
  | ignored, ignored | todo, todo | skipped, skipped
  | check, check | kept, kept | updated, updated => true
  | _, _ => false
  end.

Record spec : Type := mkSpec {
  section : jsstring;
  sOld : jsstring;
  vOld : jsstring;
  sNew : jsstring;
  vNew : jsstring;
  state : State
}.

(** [manifest]: a JavaScript object used as a map from module names to
    arrays of entries; the keys are kept in insertion order, which is the
    order of [Object.keys] for names that are not array indices. *)
Definition Manifest := list (jsstring * list spec).

Fixpoint lookup {A : Type} (k : jsstring) (m : list (jsstring * A)) : option A :=
  match m with
  | [] => None
  | (k', a) :: m' => if str_eqb k' k then Some a else lookup k m'
  end.

(** [if (manifest[module] === undefined) manifest[module] = []] followed by
    [manifest[module].push(entry)] *)
Fixpoint manifest_push (m : Manifest) (module : jsstring) (e : spec) : Manifest :=
  match m with
  | [] => [(module, [e])]
  | (k, es) :: m' =>
      if str_eqb k module then (k, es ++ [e]) :: m'
      else (k, es) :: manifest_push m' module e
  end.

(** The parsed [package.json], as far as the program reads it: the
    dependency sections that are present, each with its members in the order
    of [Object.keys]; the values are strings, as the format of
    [package.json] has them. *)
Definition Package := list (jsstring * list (jsstring * jsstring)).

(** The command line options the main function reads from [argv]; the
    options [-V] (print the version and exit) and [-C] (no colours) are
    left out. *)
Record Argv : Type := mkArgv {
  positional : list jsstring;   (* argv._ *)
  nop : bool;
  greatest : bool;
  all : bool;
  quiet : bool;
  file : jsstring;
  concurrency : nat
}.

(** The state of a module before its specifier is looked at:
    [!(argv._.length === 0 || micromatch([ module ], ...).length > 0)]. *)
Definition selected (patterns : list jsstring) (module : jsstring) : bool :=
  match patterns with
  | [] => true
  | p0 :: _ =>
      let pats := (if is_negated p0 then [str "*"] else []) ++ patterns in
      0 <? List.length (micromatch [module] pats)
  end.

(** The entry [mixin] pushes for one member of a section. *)
Definition classify (patterns : list jsstring) (sect module sOld0 : jsstring) : spec :=
  let state0 := if selected patterns module then todo else ignored in
  match state0 with
  | todo =>
      match match_specifier sOld0 with
      | Some m1 => mkSpec sect sOld0 m1 sOld0 m1 check
      | None => mkSpec sect sOld0 sOld0 sOld0 sOld0 skipped
      end
  | _ => mkSpec sect sOld0 sOld0 sOld0 sOld0 state0
  end.

Definition mixin (patterns : list jsstring) (pkg : Package) (sect : jsstring)
    (manifest : Manifest) : Manifest :=
  match lookup sect pkg with
  | Some deps =>
      fold_left (fun m '(module, s) => manifest_push m module (classify patterns sect module s))
                deps manifest
  | None => manifest
  end.

Definition sections : list jsstring :=
  [str "optionalDependencies"; str "peerDependencies";
   str "devDependencies"; str "dependencies"].

Definition inventory (patterns : list jsstring) (pkg : Package) : Manifest :=
  fold_left (fun m sect => mixin patterns pkg sect m) sections [].

(** ** Semantic versions: the [semver] package

    Modelled from the spec: [semver] is not part of the sources.  Section 4.3
    asks for semantic-version ordering (major.minor.patch plus pre-release
    precedence).  The model follows the strict (non-loose) parser and the
    comparison of the package: a version string longer than 256 characters
    is invalid; the string is trimmed; a leading [v] is allowed; the three
    numbers have no leading zero and do not exceed 2^53-1; build metadata
    is parsed and ignored by the comparison.  Numeric pre-release
    identifiers are compared as exact integers. *)

Definition MAX_LENGTH : nat := 256.
Definition MAX_SAFE_INTEGER : N := 9007199254740991.

(** [String.prototype.trim] *)
Definition trim (s : jsstring) : jsstring :=
  rev (dropWhile is_space (rev (dropWhile is_space s))).

(** [s.split(c)] cut at the first separator only: the part before it and,
    when there is one, the part after it. *)
Fixpoint split_at (c : ascii) (s : jsstring) : jsstring * option jsstring :=
  match s with
  | [] => ([], None)
  | x :: r =>
      if Ascii.eqb x c then ([], Some r)
      else let (a, b) := split_at c r in (x :: a, b)
  end.

(** [s.split(c)] *)
Fixpoint split_on (c : ascii) (s : jsstring) : list jsstring :=
  match s with
  | [] => [[]]
  | x :: r =>
      if Ascii.eqb x c then [] :: split_on c r
      else match split_on c r with
           | p :: ps => (x :: p) :: ps
           | [] => [[x]]
           end
  end.

Definition digit_value (c : ascii) : N := (code c - 48)%N.

Definition number_of_digits (s : jsstring) : N :=
  fold_left (fun acc c => (10 * acc + digit_value c)%N) s 0%N.

(** [[0-9A-Za-z-]] *)
Definition is_ident_char (c : ascii) : bool :=
  let n := code c in
  (is_digit c || ((65 <=? n) && (n <=? 90)) || ((97 <=? n) && (n <=? 122))
   || (n =? 45))%N.

(** The characters a version string is made of. *)
Definition is_semver_char (c : ascii) : bool :=
  is_space c || is_ident_char c || Ascii.eqb c "." || Ascii.eqb c "+".

(** No leading zero: [0|[1-9]\d*] *)
Definition no_leading_zero (s : jsstring) : bool :=
  match s with
  | [] => false
  | c :: r => negb (Ascii.eqb c "0") || match r with [] => true | _ :: _ => false end
  end.

(** A component of the main version: [0|[1-9]\d*], at most 2^53-1. *)
Definition numeric_identifier (s : jsstring) : option N :=
  if forallb is_digit s && no_leading_zero s then
    let n := number_of_digits s in
    if (n <=? MAX_SAFE_INTEGER)%N then Some n else None
  else None.

Inductive ident : Type :=
| INum (n : N)
| IStr (s : jsstring).

(** A pre-release identifier: [0|[1-9]\d*|\d*[a-zA-Z-][a-zA-Z0-9-]*]. *)
Definition prerelease_identifier (s : jsstring) : option ident :=
  match s with
  | [] => None
  | _ :: _ =>
      if forallb is_ident_char s then
        if forallb is_digit s then
          if no_leading_zero s then Some (INum (number_of_digits s)) else None
        else Some (IStr s)
      else None
  end.

(** A build identifier: [[0-9A-Za-z-]+]. *)
Definition build_identifier (s : jsstring) : bool :=
  match s with
  | [] => false
  | _ :: _ => forallb is_ident_char s
  end.

Fixpoint map_option {A B : Type} (f : A -> option B) (l : list A) : option (list B) :=
  match l with
  | [] => Some []
  | a :: l' =>
      match f a, map_option f l' with
      | Some b, Some bs => Some (b :: bs)
      | _, _ => None
      end
  end.

Record SemVer : Type := mkSemVer {
  major : N;
  minor : N;
  patch : N;
  prerelease : list ident;
  build : list jsstring
}.

(** [new SemVer(version)]; [None] stands for the [TypeError] it throws. *)
Definition semver_parse (version : jsstring) : option SemVer :=
  if MAX_LENGTH <? List.length version then None
  else
    let s := trim version in
    let s := match s with
             | c :: r => if Ascii.eqb c "v" then r else s
             | [] => s
             end in
    let (mp, b) := split_at "+" s in
    let (m, p) := split_at "-" mp in
    match split_on "." m with
    | [x; y; z] =>
        match numeric_identifier x, numeric_identifier y, numeric_identifier z with
        | Some ma, Some mi, Some pa =>
            let pre := match p with
                       | None => Some []
                       | Some ps => map_option prerelease_identifier (split_on "." ps)
                       end in
            let bld := match b with
                       | None => Some []
                       | Some bs =>
                           let ids := split_on "." bs in
                           if forallb build_identifier ids then Some ids else None
                       end in
            match pre, bld with
            | Some pr, Some bl => Some (mkSemVer ma mi pa pr bl)
            | _, _ => None
            end
        | _, _, _ => None
        end
    | _ => None
    end.

(** The order of JavaScript strings under [<]: code unit by code unit. *)
Fixpoint str_compare (a b : jsstring) : comparison :=
  match a, b with
  | [], [] => Eq
  | [], _ :: _ => Lt
  | _ :: _, [] => Gt
  | x :: a', y :: b' =>
      match N.compare (code x) (code y) with
      | Eq => str_compare a' b'
      | o => o
      end
  end.

(** [compareIdentifiers]: numbers before strings. *)
Definition compare_identifiers (a b : ident) : comparison :=
  match a, b with
  | INum x, INum y => N.compare x y
  | INum _, IStr _ => Lt
  | IStr _, INum _ => Gt
  | IStr x, IStr y => str_compare x y
  end.

Fixpoint compare_identifier_lists (a b : list ident) : comparison :=
  match a, b with
  | [], [] => Eq
  | [], _ :: _ => Lt
  | _ :: _, [] => Gt
  | x :: a', y :: b' =>
      match compare_identifiers x y with
      | Eq => compare_identifier_lists a' b'
      | o => o
      end
  end.

(** [comparePre]: a version without pre-release is above one with. *)
Definition compare_pre (a b : list ident) : comparison :=
  match a, b with
  | _ :: _, [] => Lt
  | [], _ :: _ => Gt
  | _, _ => compare_identifier_lists a b
  end.

(** [compareMain] then [comparePre] *)
Definition semver_compare (a b : SemVer) : comparison :=
  match N.compare (major a) (major b) with
  | Eq =>
      match N.compare (minor a) (minor b) with
      | Eq =>
          match N.compare (patch a) (patch b) with
          | Eq => compare_pre (prerelease a) (prerelease b)
          | o => o
          end
      | o => o
      end
  | o => o
  end.

(** [semver.gt(a, b)]; [None] when either string is not a version. *)
Definition semver_gt (a b : jsstring) : option bool :=
  match semver_parse a, semver_parse b with
  | Some x, Some y =>
      Some (match semver_compare x y with Gt => true | _ => false end)
  | _, _ => None
  end.

(** [semver.rcompare(a, b)], which is [compare(b, a)] *)
Definition semver_rcompare (a b : jsstring) : option comparison :=
  match semver_parse a, semver_parse b with
  | Some x, Some y => Some (semver_compare y x)
  | _, _ => None
  end.

(** ** Rewriting the specifier: [sOld.replace(new RegExp(escRE(vOld)), vNew)] *)

(** [s] without the prefix [p], when it starts with it. *)
Fixpoint strip_prefix (p s : jsstring) : option jsstring :=
  match p with
  | [] => Some s
  | c :: p' =>
      match s with
      | [] => None
      | d :: s' => if Ascii.eqb c d then strip_prefix p' s' else None
      end
  end.

(** The first occurrence of [needle] in [s]: what is before and after it.
    [escRE] quotes every special character, so the regular expression
    matches the literal text [needle], and it has no capture group. *)
Fixpoint find_first (needle s : jsstring) : option (jsstring * jsstring) :=
  match strip_prefix needle s with
  | Some rest => Some ([], rest)
  | None =>
      match s with
      | [] => None
      | c :: s' =>
          match find_first needle s' with
          | Some (pre, post) => Some (c :: pre, post)
          | None => None
          end
      end
  end.

(** The replacement text of [String.prototype.replace], where [$$], [$&],
    [$`] and [$'] stand for a dollar sign, the matched text, the text before
    and the text after the match; without capture groups every other use of
    [$] is literal. *)
Fixpoint expand_replacement (pre matched post repl : jsstring) : jsstring :=
  match repl with
  | [] => []
  | c :: r =>
      if Ascii.eqb c "$" then
        match r with
        | d :: r' =>
            if Ascii.eqb d "$" then "$"%char :: expand_replacement pre matched post r'
            else if Ascii.eqb d "&" then matched ++ expand_replacement pre matched post r'
            else if Ascii.eqb d "`" then pre ++ expand_replacement pre matched post r'
            else if Ascii.eqb d "'" then post ++ expand_replacement pre matched post r'
            else c :: expand_replacement pre matched post r
        | [] => [c]
        end
      else c :: expand_replacement pre matched post r
  end.

Definition js_replace (s needle repl : jsstring) : jsstring :=
  match find_first needle s with
  | Some (pre, post) => pre ++ expand_replacement pre needle post repl ++ post
  | None => s
  end.

(** ** [JSON.stringify] of a string *)

Definition hex_digit (n : N) : ascii :=
  ascii_of_N (if (n <? 10)%N then 48 + n else 87 + n)%N.

Definition json_escape (c : ascii) : jsstring :=
  let n := code c in
  if (n =? 34)%N then [ascii_of_N 92; c]
  else if (n =? 92)%N then [c; c]
  else if (n =? 8)%N then str "\b"
  else if (n =? 12)%N then str "\f"
  else if (n =? 10)%N then str "\n"
  else if (n =? 13)%N then str "\r"
  else if (n =? 9)%N then str "\t"
  else if (n <? 32)%N then str "\u00" ++ [hex_digit (n / 16); hex_digit (n mod 16)]
  else [c].

Definition JSON_stringify (s : jsstring) : jsstring :=
  let q := ascii_of_N 34 in
  q :: flat_map json_escape s ++ [q].

(** ** The syntax tree of [package.json]: [JsonAsty]

    Modelled from the spec: [json-asty] is not part of the sources.
    Sections 3 and 4.5 describe a position-aware syntax tree with a node
    per object key and value that retains the raw source text.  A node has
    a type, the attributes [prolog], [text] and [epilog] that hold its
    share of the source text, the attribute [value] (of a string node) and
    its children.  Nodes are addressed by their path from the root. *)
#[local] Unset Elimination Schemes.
Inductive node : Type :=
| Node (type : jsstring) (prolog text epilog : jsstring)
       (value : option jsstring) (children : list node).

#[local] Set Elimination Schemes.

Definition type (n : node) : jsstring := let (t, _, _, _, _, _) := n in t.
Definition text (n : node) : jsstring := let (_, _, t, _, _, _) := n in t.
Definition value (n : node) : option jsstring := let (_, _, _, _, v, _) := n in v.
Definition children (n : node) : list node := let (_, _, _, _, _, cs) := n in cs.

Definition Path := list nat.

(** Modelled from the spec: [JsonAsty.unparse] re-renders the tree to text
    (section 4.5): the text attributes of the nodes in document order. *)
Fixpoint unparse (n : node) : jsstring :=
  match n with
  | Node _ pro txt epi _ cs => pro ++ txt ++ flat_map unparse cs ++ epi
  end.

(** The pieces of text [unparse] emits, each with the node and the
    attribute it comes from. *)
Inductive part : Type := Prolog | Text | Epilog.

Definition token : Type := Path * part * jsstring.

Fixpoint tokens (path : Path) (n : node) : list token :=
  match n with
  | Node _ pro txt epi _ cs =>
      (path, Prolog, pro) :: (path, Text, txt) ::
      (fix go (i : nat) (cs : list node) : list token :=
         match cs with
         | [] => []
         | c :: r => tokens (path ++ [i]) c ++ go (S i) r
         end) 0 cs
      ++ [(path, Epilog, epi)]
  end.

Definition has_type (t : string) (n : node) : bool := str_eqb (type n) (str t).

(** [value-string [ @value == v ]] *)
Definition string_value_is (v : jsstring) (n : node) : bool :=
  has_type "value-string" n &&
  match value n with
  | Some w => str_eqb w v
  | None => false
  end.

(** [/ object-member-name / value-string [ @value == v ]] *)
Definition member_named (v : jsstring) (n : node) : bool :=
  existsb (fun c => has_type "object-member-name" c &&
                    existsb (string_value_is v) (children c))
          (children n).

(** [/ value-string] below the child [i] of the node at [path] *)
Fixpoint value_string_paths (path : Path) (i j : nat) (gs : list node) : list Path :=
  match gs with
  | [] => []
  | g :: r =>
      (if has_type "value-string" g then [path ++ [i; j]] else [])
      ++ value_string_paths path i (S j) r
  end.

(** [/ object-member-value / value-string] below the node at [path] *)
Fixpoint member_value_paths (path : Path) (i : nat) (cs : list node) : list Path :=
  match cs with
  | [] => []
  | c :: r =>
      (if has_type "object-member-value" c
       then value_string_paths path i 0 (children c) else [])
      ++ member_value_paths path (S i) r
  end.

Definition member_value_strings (path : Path) (n : node) : list Path :=
  member_value_paths path 0 (children n).

(** Modelled from the spec: the tree query of section 4.5, as the program
    writes it: every [object-member] below the root that has an ancestor
    [object-member] named [sect] and is itself named [module]; of these the
    [value-string] children of the [object-member-value] children.
    [under] tells whether an ancestor named [sect] has been passed. *)
Fixpoint query (sect module : jsstring) (under : bool) (path : Path) (n : node)
    : list Path :=
  match n with
  | Node _ _ _ _ _ cs =>
      (if has_type "object-member" n && under && member_named module n
       then member_value_strings path n else [])
      ++
      (fix go (i : nat) (cs : list node) : list Path :=
         match cs with
         | [] => []
         | c :: r =>
             query sect module
                   (under || (has_type "object-member" n && member_named sect n))
                   (path ++ [i]) c
             ++ go (S i) r
         end) 0 cs
  end.

(** [ast.execute(astQuery, { section, module })] *)
Definition execute (ast : node) (sect module : jsstring) : list Path :=
  query sect module false [] ast.

(** Modelled from the spec: [node.set({ text, value })] on the node at
    [path] replaces that node's textual content (section 4.5). *)
Fixpoint node_set (path : Path) (txt v : jsstring) (n : node) : node :=
  match path, n with
  | [], Node ty pro _ epi _ cs => Node ty pro txt epi (Some v) cs
  | i :: p, Node ty pro t epi v0 cs =>
      Node ty pro t epi v0
        ((fix upd (i : nat) (cs : list node) {struct cs} : list node :=
            match cs with
            | [] => []
            | c :: r =>
                match i with
                | 0 => node_set p txt v c :: r
                | S i' => c :: upd i' r
                end
            end) i cs)
  end.

(** ** The registry *)

(** What the program reads of the registry's answer for a package:
    [Object.keys(data.versions)] and [data["dist-tags"].latest]
    ([None] for [undefined]). *)
Record PackageInfo : Type := mkInfo {
  versions : list jsstring;
  latest : option jsstring
}.

(** The registry: its answer for a name, [None] when the request fails. *)
Definition Registry := jsstring -> option PackageInfo.

(** [fetchPackageInfo]: the answer of the registry, or the error the
    request is rejected with. *)
Definition fetchPackageInfo (registry : Registry) (name : jsstring) : result PackageInfo :=
  match registry name with
  | Some data => Ok data
  | None => Throw (RegistryError name)
  end.

(** [String.prototype.toLowerCase] on the code units below 256. *)
Definition to_lower_char (c : ascii) : ascii :=
  let n := code c in
  if ((65 <=? n) && (n <=? 90) ||
      (192 <=? n) && (n <=? 222) && negb (n =? 215))%N
  then ascii_of_N (n + 32) else c.

Definition toLowerCase (s : jsstring) : jsstring := map to_lower_char s.

(** [awaityMapLimit(list, f, limit)]: one call of [f] per element, the
    results in the order of the elements; rejected when a call is.  The
    model runs the calls one after the other: [limit] bounds how many are
    in flight and does not change the results. *)
Fixpoint awaityMapLimit {A B : Type} (l : list A) (f : A -> result B) (limit : nat)
    : result (list B) :=
  match l with
  | [] => Ok []
  | a :: l' =>
      b <- f a ;;
      bs <- awaityMapLimit l' f limit ;;
      Ok (b :: bs)
  end.

(** The function [awaityMapLimit] is called with: the answer of the
    registry for the name in lower case, with the name. *)
Definition lookup_one (registry : Registry) (name : jsstring)
    : result (jsstring * PackageInfo) :=
  data <- fetchPackageInfo registry (toLowerCase name) ;; Ok (name, data).

(** The names to look up: the keys of [checked], which are the keys of
    [manifest] with an entry in state [check]. *)
Definition checked (manifest : Manifest) : list jsstring :=
  map fst (filter (fun '(_, es) => existsb (fun e => State_eqb (state e) check) es)
                  manifest).

(** The head of [versions] sorted with [semver.rcompare]: the first of the
    greatest versions. *)
Fixpoint first_greatest (best : jsstring) (rest : list jsstring) : jsstring :=
  match rest with
  | [] => best
  | v :: r =>
      first_greatest (match semver_gt v best with Some true => v | _ => best end) r
  end.

Definition is_version (v : jsstring) : bool :=
  match semver_parse v with Some _ => true | None => false end.

(** The version to move to.  With [--greatest] an empty [versions] leaves
    [vNew] undefined, and [semver.gt] then throws at the first entry in
    state [check]; the comparison function throws as soon as it is called
    on a key that is not a version. *)
Definition resolve (argv : Argv) (name : jsstring) (data : PackageInfo) : result jsstring :=
  if greatest argv then
    match versions data with
    | [] => Throw TypeError
    | [v] => Ok v
    | v :: vs => if forallb is_version (v :: vs) then Ok (first_greatest v vs)
                 else Throw TypeError
    end
  else
    match latest data with
    | Some v => Ok v
    | None => Throw (NoLatestVersion name)
    end.

(** ** The merge *)

(** The decision for one entry and its new specifier; the flag tells
    whether the entry has been updated. *)
Definition plan (name vNew0 : jsstring) (e : spec) : result (spec * bool) :=
  match state e with
  | check =>
      if str_eqb (vOld e) vNew0 then
        Ok (mkSpec (section e) (sOld e) (vOld e) vNew0 vNew0 kept, false)
      else
        match semver_gt (vOld e) vNew0 with
        | None => Throw TypeError
        | Some true =>
            Ok (mkSpec (section e) (sOld e) (vOld e) vNew0 vNew0 kept, false)
        | Some false =>
            let sNew' := js_replace (sOld e) (vOld e) vNew0 in
            if str_eqb sNew' (sOld e) then
              Throw (UpdateFailed name (sOld e) (vOld e) vNew0)
            else
              Ok (mkSpec (section e) (sOld e) (vOld e) sNew' vNew0 updated, true)
        end
  | _ => Ok (e, false)
  end.

(** The update of the syntax tree for an updated entry. *)
Definition patch_ast (argv : Argv) (name : jsstring) (e : spec) (ast : node) : result node :=
  if nop argv then Ok ast
  else
    match execute ast (section e) name with
    | [p] => Ok (node_set p (JSON_stringify (sNew e)) (sNew e) ast)
    | _ => Throw (NodeNotFound name (section e))
    end.

(** The state the merge loops carry: the tree and the flag [updates]. *)
Definition merge_entry (argv : Argv) (name vNew0 : jsstring) (e : spec)
    (ast : node) (updates : bool) : result (spec * node * bool) :=
  '(e', upd) <- plan name vNew0 e ;;
  if upd then
    ast' <- patch_ast argv name e' ast ;;
    Ok (e', ast', true)
  else Ok (e', ast, updates).

(** [manifest[name].forEach(...)] *)
Fixpoint merge_entries (argv : Argv) (name vNew0 : jsstring) (es : list spec)
    (ast : node) (updates : bool) : result (list spec * node * bool) :=
  match es with
  | [] => Ok ([], ast, updates)
  | e :: es' =>
      '(e', ast1, u1) <- merge_entry argv name vNew0 e ast updates ;;
      '(es'', ast2, u2) <- merge_entries argv name vNew0 es' ast1 u1 ;;
      Ok (e' :: es'', ast2, u2)
  end.

(** The entries of [name] after they have been changed in place. *)
Fixpoint manifest_update (m : Manifest) (name : jsstring) (es : list spec) : Manifest :=
  match m with
  | [] => []
  | (k, old) :: m' =>
      if str_eqb k name then (k, es) :: m'
      else (k, old) :: manifest_update m' name es
  end.

(** The loop over [results]. *)
Fixpoint merge (argv : Argv) (results : list (jsstring * PackageInfo))
    (manifest : Manifest) (ast : node) (updates : bool)
    : result (Manifest * node * bool) :=
  match results with
  | [] => Ok (manifest, ast, updates)
  | (name, data) :: rest =>
      vNew0 <- resolve argv name data ;;
      match lookup name manifest with
      | Some es =>
          '(es', ast', updates') <- merge_entries argv name vNew0 es ast updates ;;
          merge argv rest (manifest_update manifest name es') ast' updates'
      | None => Throw TypeError
      end
  end.

(** ** The report *)

(** A row of the table: module name, old and new specifier, state.  The
    colours are left out. *)
Record Row : Type := mkRow {
  row_module : jsstring;
  row_older : jsstring;
  row_newer : jsstring;
  row_state : State
}.

Definition rows (argv : Argv) (manifest : Manifest) : list Row :=
  flat_map (fun '(name, es) =>
    flat_map (fun e =>
      if State_eqb (state e) updated || all argv
      then [mkRow name (sOld e) (sNew e) (state e)] else []) es) manifest.

Inductive Output : Type :=
| Table (rs : list Row)
| AllUpToDate.

Definition report (argv : Argv) (manifest : Manifest) (updates : bool) : list Output :=
  if quiet argv then []
  else if updates || all argv then [Table (rows argv manifest)]
  else [AllUpToDate].

(** ** The main function *)

Section Main.

(** [JSON.parse] and [JsonAsty.parse] ([None] when they throw), and the
    registry. *)
Variable JSON_parse : jsstring -> option Package.
Variable JsonAsty_parse : jsstring -> option node.
Variable registry : Registry.

Definition parsed {A : Type} (o : option A) : result A :=
  match o with
  | Some a => Ok a
  | None => Throw ParseError
  end.

Record Run : Type := mkRun {
  run_manifest : Manifest;
  run_updates : bool;
  run_report : list Output;
  run_ast : node;
  run_written : option jsstring
}.

(** The body of the asynchronous function; [disk] is the content of
    [argv.file], [None] when the file does not exist. *)
Definition main (argv : Argv) (disk : option jsstring) : result Run :=
  match disk with
  | None => Throw (ManifestNotFound (file argv))
  | Some pkgData =>
      pkg <- parsed (JSON_parse pkgData) ;;
      ast <- parsed (JsonAsty_parse pkgData) ;;
      let manifest := inventory (positional argv) pkg in
      results <- awaityMapLimit (checked manifest) (lookup_one registry)
                   (concurrency argv) ;;
      '(manifest', ast', updates) <- merge argv results manifest ast false ;;
      Ok (mkRun manifest' updates (report argv manifest' updates) ast'
                (if updates && negb (nop argv) then Some (unparse ast') else None))
  end.

(** What the process leaves behind: the file, the standard output and
    the exit code. *)
Record Outcome : Type := mkOutcome {
  disk_after : option jsstring;
  stdout : list Output;
  exit_code : nat
}.

Definition run (argv : Argv) (disk : option jsstring) : Outcome :=
  match main argv disk with
  | Ok r =>
      mkOutcome (match run_written r with Some d => Some d | None => disk end)
                (run_report r) 0
  | Throw _ => mkOutcome disk [] 1
  end.

End Main.

(** The same command line with or without [--nop]. *)
Definition set_nop (b : bool) (argv : Argv) : Argv :=
  mkArgv (positional argv) b (greatest argv) (all argv) (quiet argv)
         (file argv) (concurrency argv).

(** ** Invariants of the inventory *)

(** What [mixin] leaves in the inventory: every entry is the one
    [classify] builds for its name. *)
Definition classified (patterns : list jsstring) (m : Manifest) : Prop :=
  forall name es e, In (name, es) m -> In e es ->
    exists sect s, e = classify patterns sect name s.

(** The entry [e'] is what [plan] makes of [e] for the resolved version [v]. *)
Definition settled (name v : jsstring) (e e' : spec) : Prop :=
  exists b, plan name v e = Ok (e', b).

(** The entries of one name before and after the merge: untouched when the
    name has not been looked up, settled for the one version resolved for
    the name otherwise. *)
Definition merged_key (argv : Argv) (results : list (jsstring * PackageInfo))
    (x y : jsstring * list spec) : Prop :=
  fst y = fst x /\
  match lookup (fst x) results with
  | None => snd y = snd x
  | Some data =>
      exists v, resolve argv (fst x) data = Ok v /\
                Forall2 (settled (fst x) v) (snd x) (snd y)
  end.

Definition merged (argv : Argv) (results : list (jsstring * PackageInfo))
    (m m' : Manifest) : Prop :=
  Forall2 (merged_key argv results) m m'.

(** Whether an entry of the inventory is in state [updated]. *)
Definition has_updated (m : Manifest) : bool :=
  existsb (fun '(_, es) => existsb (fun e => State_eqb (state e) updated) es) m.

(** The changes made to the syntax tree: the nodes set, with the
    specifiers written to them. *)
Definition Edit : Type := Path * jsstring.

Definition apply_edits (edits : list Edit) (ast : node) : node :=
  fold_left (fun a '(p, s) => node_set p (JSON_stringify s) s a) edits ast.

(** The loops over the children of a node, as functions of their own. *)
Fixpoint tokens_list (path : Path) (i : nat) (cs : list node) : list token :=
  match cs with
  | [] => []
  | c :: r => tokens (path ++ [i]) c ++ tokens_list path (S i) r
  end.

Fixpoint query_list (sect module : jsstring) (under : bool) (path : Path)
    (i : nat) (cs : list node) : list Path :=
  match cs with
  | [] => []
  | c :: r => query sect module under (path ++ [i]) c
              ++ query_list sect module under path (S i) r
  end.

Fixpoint node_set_list (i : nat) (p : Path) (txt v : jsstring) (cs : list node)
    {struct cs} : list node :=
  match cs with
  | [] => []
  | c :: r =>
      match i with
      | 0 => node_set p txt v c :: r
      | S i' => c :: node_set_list i' p txt v r
      end
  end.

(** The node at [p] is the child of an [object-member-value] node. *)
Fixpoint below_member_value (p : Path) (n : node) : bool :=
  match p with
  | [] => false
  | i :: q =>
      match q with
      | [] => has_type "object-member-value" n
      | _ :: _ =>
          match nth_error (children n) i with
          | Some c => below_member_value q c
          | None => false
          end
      end
  end.

(** Two pieces of text are the same, or both are the [text] of one of the
    nodes at [ps]. *)
Definition changed_only (ps : list Path) (a b : token) : Prop :=
  a = b \/ exists p, In p ps /\ fst a = (p, Text) /\ fst b = (p, Text).

(** Two nodes that the query cannot tell apart as children of a member:
    same type, and children of the same types, with the same values when
    the node is an [object-member-name]. *)
Definition similar (c c' : node) : Prop :=
  type c' = type c /\
  Forall2 (fun g g' => type g' = type g /\
                       (has_type "object-member-name" c = true -> value g' = value g))
          (children c) (children c').

Definition any_updated (es : list spec) : bool :=
  existsb (fun e => State_eqb (state e) updated) es.

(** Whether an entry has gone from [check] to [updated]. *)
Definition newly_updated (es es' : list spec) : bool :=
  existsb (fun p => State_eqb (state (fst p)) check && State_eqb (state (snd p)) updated)
          (combine es es').

(** Where an edit of the syntax tree comes from: an updated entry, whose
    new specifier is written to the one node the query finds for the
    entry's section and name in the tree [ast0]. *)
Definition edit_of (ast0 : node) (name : jsstring) (e' : spec) (ed : Edit) : Prop :=
  state e' = updated /\ snd ed = sNew e' /\
  execute ast0 (section e') name = [fst ed].

(** An entry the merge has decided. *)
Definition decided (e : spec) : Prop := state e = kept \/ state e = updated.

(** A check-state entry holds the version its specifier pins. *)
Definition pinned_ok (e : spec) : Prop :=
  state e = check -> match_specifier (sOld e) = Some (vOld e).

(** ** Example documents *)

(** Builders for the syntax trees of the examples. *)
Definition value_string (pro s epi : jsstring) : node :=
  Node (str "value-string") pro (JSON_stringify s) epi (Some s) [].

Definition object_member (key sep : jsstring) (val : node) (epi : jsstring) : node :=
  Node (str "object-member") [] [] epi None
    [Node (str "object-member-name") [] [] sep None [value_string [] key []];
     Node (str "object-member-value") [] [] [] None [val]].

Definition object (pro : jsstring) (members : list node) (epi : jsstring) : node :=
  Node (str "object") pro [] epi None members.

(** A parser or a registry given by a table. *)
Definition table {A : Type} (t : list (jsstring * A)) (k : jsstring) : option A :=
  lookup k t.

Definition example_argv : Argv := mkArgv [] false false false false (str "-") 8.

(** One dependency, one newer version. *)
Definition leftpad_ast (specifier : jsstring) : node :=
  object (str "{ ")
    [object_member (str "dependencies") (str ": ")
       (object (str "{ ")
          [object_member (str "left-pad") (str ": ")
             (value_string [] specifier []) (str " ")]
          (str "}"))
       (str " ")]
    (str "}").

Definition leftpad_pkg (specifier : jsstring) : Package :=
  [(str "dependencies", [(str "left-pad", specifier)])].

Definition leftpad_text (specifier : jsstring) : jsstring :=
  unparse (leftpad_ast specifier).

Definition leftpad_registry (version : jsstring) : Registry :=
  table [(str "left-pad", mkInfo [str "1.2.0"; version] (Some version))].

(** A document with a second object named [dependencies], nested in the
    configuration of another tool. *)
Definition nested_ast : node :=
  object (str "{ ")
    [object_member (str "dependencies") (str ": ")
       (object (str "{ ")
          [object_member (str "left-pad") (str ": ")
             (value_string [] (str "^1.2.0") []) (str " ")]
          (str "}"))
       (str ", ");
     object_member (str "jspm") (str ": ")
       (object (str "{ ")
          [object_member (str "dependencies") (str ": ")
             (object (str "{ ")
                [object_member (str "left-pad") (str ": ")
                   (value_string [] (str "npm:left-pad") []) (str " ")]
                (str "}"))
             (str " ")]
          (str "}"))
       (str " ")]
    (str "}").

Definition nested_text : jsstring := unparse nested_ast.

(** The parsers of the examples: the documents written with the builders
    above, before and after the change of a specifier. *)
Definition example_JSON_parse : jsstring -> option Package :=
  table [(leftpad_text (str "^1.2.0"), leftpad_pkg (str "^1.2.0"));
         (leftpad_text (str "^1.3.0"), leftpad_pkg (str "^1.3.0"));
         (leftpad_text (str "^ 1.3.0"), leftpad_pkg (str "^ 1.3.0"));
         (leftpad_text (str "^v1.3.0"), leftpad_pkg (str "^v1.3.0"));
         (nested_text, leftpad_pkg (str "^1.2.0"))].

Definition example_JsonAsty_parse : jsstring -> option node :=
  table [(leftpad_text (str "^1.2.0"), leftpad_ast (str "^1.2.0"));
         (leftpad_text (str "^1.3.0"), leftpad_ast (str "^1.3.0"));
         (leftpad_text (str "^ 1.3.0"), leftpad_ast (str "^ 1.3.0"));
         (leftpad_text (str "^v1.3.0"), leftpad_ast (str "^v1.3.0"));
         (nested_text, nested_ast)].

Definition empty_run : Run := mkRun [] false [] (Node [] [] [] [] None []) None.

(** The run on the first document with the registry at [1.3.0]. *)
Definition leftpad_run : Run :=
  Eval vm_compute in
    match main example_JSON_parse example_JsonAsty_parse (leftpad_registry (str "1.3.0"))
               example_argv (Some (leftpad_text (str "^1.2.0"))) with
    | Ok r => r
    | Throw _ => empty_run
    end.

(** The same name in two sections, in a dry run. *)
Definition two_sections_pkg : Package :=
  [(str "devDependencies", [(str "left-pad", str "~1.2.0")]);
   (str "dependencies", [(str "left-pad", str "^1.2.0"); (str "is-odd", str "git+https://example/repo.git")])].

Definition two_sections_text : jsstring := str "two sections".

Definition two_sections_run : Run :=
  Eval vm_compute in
    match main (table [(two_sections_text, two_sections_pkg)])
               (table [(two_sections_text, leftpad_ast (str "^1.2.0"))])
               (leftpad_registry (str "1.3.0"))
               (set_nop true example_argv) (Some two_sections_text) with
    | Ok r => r
    | Throw _ => empty_run
    end.

(** ** The document after a run, as the next run reads it *)

(** The version a run resolves for a name. *)
Definition resolved_version (argv : Argv) (registry : Registry) (name : jsstring)
    : option jsstring :=
  match registry (toLowerCase name) with
  | Some data =>
      match resolve argv name data with
      | Ok v => Some v
      | Throw _ => None
      end
  | None => None
  end.

(** A resolved version that, written in a specifier, is read back as the
    pinned version: it starts with a digit and holds no comparator, bar
    or blank. *)
Definition clean_version (v : jsstring) : Prop := version_token v.

Section Rewritten.

Variable patterns : list jsstring.
Variable resolved : jsstring -> option jsstring.

(** The specifier of a dependency after the run: the new specifier when
    the entry has been updated, the original one otherwise. *)
Definition respecify (sect module s : jsstring) : jsstring :=
  match resolved module with
  | Some v =>
      match plan module v (classify patterns sect module s) with
      | Ok (e', true) => sNew e'
      | _ => s
      end
  | None => s
  end.

(** Modelled from the spec: the rewritten document differs from the
    original one in the specifiers of the updated entries only (sections
    4.5 and 8), so [JSON.parse] reads these sections from it. *)
Definition rewritten_package (pkg : Package) : Package :=
  map (fun '(sect, deps) =>
         (sect,
          if existsb (str_eqb sect) sections
          then map (fun '(module, s) => (module, respecify sect module s)) deps
          else deps))
      pkg.

(** The entry the next run builds where this run had built [e]. *)
Definition reclassify (module : jsstring) (e : spec) : spec :=
  classify patterns (section e) module (respecify (section e) module (sOld e)).

Definition reclassify_all (m : Manifest) : Manifest :=
  map (fun '(k, es) => (k, map (reclassify k) es)) m.

(** An entry [f] of the next run against the entry [e] of this run at
    the same place: [f] is not updated, it is in state [check] exactly
    when [e] is, and then it is kept for the version resolved for the
    name whenever [e] is settled for it. *)
Definition follows (module : jsstring) (e f : spec) : Prop :=
  state f <> updated /\
  (state e = check <-> state f = check) /\
  (state f = check ->
   forall v e' b,
     resolved module = Some v -> plan module v e = Ok (e', b) ->
     exists f', plan module v f = Ok (f', false) /\ state f' = kept).

(** The inventories of the two runs, name by name and entry by entry. *)
Definition follows_all (m n : Manifest) : Prop :=
  Forall2 (fun x y => fst y = fst x /\
                      Forall2 (follows (fst x)) (snd x) (snd y)) m n.

End Rewritten.

(** ** Further notions for the properties of the inventory and of a run *)



(** [Object.keys] gives every key once. *)
Definition distinct_members (pkg : Package) : Prop :=
  forall sect deps, lookup sect pkg = Some deps -> NoDup (map fst deps).

(** [<], [>], [=] and [|], the characters of ranges with comparators. *)
Definition is_comparator (c : ascii) : bool :=
  (Ascii.eqb c "<" || Ascii.eqb c ">" || Ascii.eqb c "=" || Ascii.eqb c "|")%char.

(** ** The colours of the table: [mark] and the columns of a row

    [chalk], [strip-ansi] and [fast-diff] are not part of the sources.  A
    coloured string is kept as the list of its pieces, each with the colour
    [chalk] gives it ([None] for a piece without colour); [stripAnsi]
    forgets the colours; the result of [diff(text, other)] is a list of
    chunks, each deleted from [text], inserted in [other] or common to
    both. *)
Inductive colour : Type := red | green | grey | reset.

Inductive diff_op : Type := DELETE | EQUAL | INSERT.

Definition Styled := list (option colour * jsstring).

Definition chalk (c : colour) (s : jsstring) : Styled := [(Some c, s)].

Definition stripAnsi (t : Styled) : jsstring := List.concat (map snd t).

Definition Diff := jsstring -> jsstring -> list (diff_op * jsstring).

(** What a result of [diff] is: without the inserted chunks it is [text],
    without the deleted ones it is [other]. *)
Definition chunks_without (o : diff_op) (l : list (diff_op * jsstring)) : jsstring :=
  List.concat (map snd (filter (fun ch => match fst ch, o with
                                          | DELETE, DELETE | INSERT, INSERT => false
                                          | _, _ => true
                                          end) l)).

Definition valid_diff (diff : Diff) : Prop :=
  forall text other,
    chunks_without INSERT (diff text other) = text /\
    chunks_without DELETE (diff text other) = other.

(** [mark(color, text, other)]: the inserted chunks in colour, the common
    ones as they are. *)
Definition mark (diff : Diff) (color : colour) (text other : jsstring) : Styled :=
  fold_left (fun output chunk =>
               match fst chunk with
               | INSERT => output ++ chalk color (snd chunk)
               | EQUAL => output ++ [(None, snd chunk)]
               | DELETE => output
               end)
            (diff text other) [].

Definition state_name (st : State) : jsstring :=
  match st with
  | ignored => str "ignored"
  | todo => str "todo"
  | skipped => str "skipped"
  | check => str "check"
  | kept => str "kept"
  | updated => str "updated"
  end.

(** The four columns of a row, as [table.push] gets them. *)
Definition table_row (diff : Diff) (name : jsstring) (e : spec) : list Styled :=
  if State_eqb (state e) updated then
    [chalk reset name; mark diff red (sNew e) (sOld e);
     mark diff green (sOld e) (sNew e); chalk green (state_name (state e))]
  else
    [chalk grey name; chalk grey (sOld e); chalk grey (sNew e);
     chalk grey (state_name (state e))].

Definition table_rows (diff : Diff) (argv : Argv) (manifest : Manifest)
    : list (list Styled) :=
  flat_map (fun '(name, es) =>
    flat_map (fun e =>
      if State_eqb (state e) updated || all argv
      then [table_row diff name e] else []) es) manifest.

(** A diff that deletes the whole of [text] and inserts the whole of
    [other]. *)
Definition replace_all_diff : Diff :=
  fun text other => [(DELETE, text); (INSERT, other)].

(** ** The path of a package at the registry

    [encodeURIComponent(name).replace(/^%40/, "@")] in [fetchPackageInfo].
    [encodeURIComponent] leaves letters, digits and the marks
    [- _ . ! ~ * ' ( )] as they are and writes every other code unit as
    the bytes of its UTF-8 encoding, each as [%] and two upper-case
    hexadecimal digits; the code units of a [jsstring] are below 256, so
    the encoding has one or two bytes and there is no lone surrogate. *)
Definition is_letter (c : ascii) : bool :=
  let n := code c in
  ((65 <=? n) && (n <=? 90) || (97 <=? n) && (n <=? 122))%N.

Definition uri_unreserved (c : ascii) : bool :=
  is_letter c || is_digit c || existsb (Ascii.eqb c) (str "-_.!~*'()").

Definition upper_hex_digit (n : N) : ascii :=
  ascii_of_N (if (n <? 10)%N then 48 + n else 55 + n)%N.

Definition percent (byte : N) : jsstring :=
  ["%"%char; upper_hex_digit (byte / 16); upper_hex_digit (byte mod 16)].

Definition utf8 (n : N) : list N :=
  if (n <? 128)%N then [n] else [192 + n / 64; 128 + n mod 64]%N.

Definition encode_unit (c : ascii) : jsstring :=
  if uri_unreserved c then [c] else flat_map percent (utf8 (code c)).

Definition encodeURIComponent (s : jsstring) : jsstring := flat_map encode_unit s.

(** The pattern is anchored at the start and the replacement has no [$]. *)
Definition package_path (name : jsstring) : jsstring :=
  let encoded := encodeURIComponent name in
  match strip_prefix (str "%40") encoded with
  | Some rest => str "@" ++ rest
  | None => encoded
  end.

(** Reading one code unit back from its encoding. *)
Definition hex_value (c : ascii) : N :=
  let n := code c in
  if (n <? 58)%N then n - 48 else n - 55.

Definition decode_unit (s : jsstring) : option (ascii * jsstring) :=
  match s with
  | [] => None
  | c :: r =>
      if Ascii.eqb c "%" then
        match r with
        | h :: l :: r' =>
            let b := (16 * hex_value h + hex_value l)%N in
            if (b <? 128)%N then Some (ascii_of_N b, r')
            else
              match r' with
              | _ :: h2 :: l2 :: r'' =>
                  Some (ascii_of_N ((b - 192) * 64 + (16 * hex_value h2 + hex_value l2 - 128)),
                        r'')
              | _ => None
              end
        | _ => None
        end
      else Some (c, r)
  end.

(** A character that ends a path segment or starts a query, a fragment or
    a scheme. *)
Definition is_url_delimiter (c : ascii) : bool :=
  existsb (Ascii.eqb c) (str "/?#:\").

(** * Properties

    ** Strings and character classes *)

Lemma str_eqb_spec (a b : jsstring) : reflect (a = b) (str_eqb a b).
Proof.
  revert b; induction a as [|x a IH]; intros [|y b]; simpl;
    try (constructor; congruence).
  destruct (Ascii.eqb_spec x y) as [->|Hxy]; simpl.
  - destruct (IH b) as [->|Hab]; constructor; congruence.
  - constructor; congruence.
Qed.

Lemma str_eqb_refl (a : jsstring) : str_eqb a a = true.
Proof. destruct (str_eqb_spec a a); congruence. Qed.

Lemma str_eqb_eq (a b : jsstring) : str_eqb a b = true <-> a = b.
Proof. destruct (str_eqb_spec a b); split; congruence. Qed.

Lemma str_eqb_neq (a b : jsstring) : str_eqb a b = false <-> a <> b.
Proof. destruct (str_eqb_spec a b); split; congruence. Qed.

Lemma span_app (p : ascii -> bool) (s : jsstring) :
  s = fst (span p s) ++ snd (span p s).
Proof.
  induction s as [|c r IH]; simpl; [reflexivity|].
  destruct (p c); [|reflexivity].
  destruct (span p r) as [a b]; simpl in *. now rewrite IH at 1.
Qed.

Lemma span_forall (p : ascii -> bool) (s : jsstring) :
  forallb p (fst (span p s)) = true.
Proof.
  induction s as [|c r IH]; simpl; [reflexivity|].
  destruct (p c) eqn:E; [|reflexivity].
  destruct (span p r) as [a b]; simpl in *. now rewrite E.
Qed.

Lemma span_stop (p : ascii -> bool) (s : jsstring) :
  match snd (span p s) with [] => True | c :: _ => p c = false end.
Proof.
  induction s as [|c r IH]; simpl; [exact I|].
  destruct (p c) eqn:E; [|exact E].
  destruct (span p r) as [a b]; simpl in *. exact IH.
Qed.

Lemma span_prefix (p : ascii -> bool) (a b : jsstring) :
  forallb p a = true ->
  match b with [] => True | c :: _ => p c = false end ->
  span p (a ++ b) = (a, b).
Proof.
  intros Ha Hb. induction a as [|c a IH]; simpl in *.
  - destruct b as [|c b]; simpl; [reflexivity|]. now rewrite Hb.
  - apply andb_true_iff in Ha as [Hc Ha]. rewrite Hc, (IH Ha). reflexivity.
Qed.

Lemma dropWhile_prefix (p : ascii -> bool) (a b : jsstring) :
  forallb p a = true ->
  match b with [] => True | c :: _ => p c = false end ->
  dropWhile p (a ++ b) = b.
Proof.
  intros Ha Hb. induction a as [|c a IH]; simpl in *.
  - destruct b as [|c b]; simpl; [reflexivity|]. now rewrite Hb.
  - apply andb_true_iff in Ha as [Hc Ha]. rewrite Hc. auto.
Qed.

Lemma dropWhile_span (p : ascii -> bool) (s : jsstring) :
  dropWhile p s = snd (span p s).
Proof.
  induction s as [|c r IH]; simpl; [reflexivity|].
  destruct (p c); [|reflexivity].
  destruct (span p r) as [a b]; simpl in *. exact IH.
Qed.

Lemma digit_version_char (c : ascii) : is_digit c = true -> is_version_char c = true.
Proof.
  destruct c as [[] [] [] [] [] [] [] []]; vm_compute; congruence.
Qed.

Lemma space_not_version_char (c : ascii) : is_space c = true -> is_version_char c = false.
Proof.
  unfold is_version_char. intros ->. now rewrite !orb_true_r.
Qed.

Lemma space_not_digit (c : ascii) : is_space c = true -> is_digit c = false.
Proof.
  destruct c as [[] [] [] [] [] [] [] []]; vm_compute; congruence.
Qed.

Lemma space_not_operator (c : ascii) : is_space c = true -> is_operator c = false.
Proof.
  destruct c as [[] [] [] [] [] [] [] []]; vm_compute; congruence.
Qed.

Lemma operator_not_digit (c : ascii) : is_operator c = true -> is_digit c = false.
Proof.
  destruct c as [[] [] [] [] [] [] [] []]; vm_compute; congruence.
Qed.

Lemma str_eqb_sym (a b : jsstring) : str_eqb a b = str_eqb b a.
Proof.
  destruct (str_eqb_spec a b), (str_eqb_spec b a); congruence.
Qed.


(** ** The specifier pattern *)

Lemma forallb_app_true (p : ascii -> bool) (a b : jsstring) :
  forallb p (a ++ b) = true <-> forallb p a = true /\ forallb p b = true.
Proof. rewrite forallb_app. apply andb_true_iff. Qed.

Lemma match_specifier_sound (s v : jsstring) :
  match_specifier s = Some v -> pinned_form s v.
Proof.
  unfold match_specifier.
  set (s1 := dropWhile is_space s).
  set (s2 := match s1 with
             | c :: r => if is_operator c then dropWhile is_space r else s1
             | [] => s1
             end).
  pose proof (span_app is_space s) as Hs.
  pose proof (span_forall is_space s) as Hws1.
  rewrite <- dropWhile_span in Hs. fold s1 in Hs.
  assert (Hop : exists op, s1 = op ++ s2 /\ operator_prefix op).
  { subst s2. destruct s1 as [|c r]; [exists []; split; [reflexivity|now left]|].
    destruct (is_operator c) eqn:Ec.
    - exists (c :: fst (span is_space r)). split.
      + simpl. rewrite dropWhile_span. f_equal. apply span_app.
      + right. exists c, (fst (span is_space r)). repeat split; auto using span_forall.
    - exists []. split; [reflexivity|now left]. }
  destruct Hop as (op & Hs1 & Hopp).
  pose proof (span_app is_digit s2) as Hd.
  pose proof (span_forall is_digit s2) as Hdig.
  destruct (span is_digit s2) as [digits r1]; simpl in Hd, Hdig.
  destruct digits as [|d ds]; [discriminate|].
  pose proof (span_app is_version_char r1) as Ht.
  pose proof (span_forall is_version_char r1) as Hvc.
  destruct (span is_version_char r1) as [tl r2]; simpl in Ht, Hvc.
  destruct (forallb is_space r2) eqn:Hws3; [|discriminate].
  intros [= <-].
  exists (fst (span is_space s)), op, r2. repeat split; auto.
  - rewrite Hs at 1. rewrite Hs1, Hd, Ht. simpl. now rewrite <- ?app_assoc.
  - simpl in Hdig. apply andb_true_iff in Hdig as [Hd0 Hds].
    exists d, (ds ++ tl). repeat split; auto.
    apply forallb_app_true. split; [|exact Hvc].
    rewrite forallb_forall in Hds |- *. auto using digit_version_char.
Qed.

Lemma span_digits_token (d : ascii) (t rest : jsstring) :
  is_digit d = true -> forallb is_version_char t = true ->
  match rest with [] => True | c :: _ => is_version_char c = false end ->
  exists ds tl r1,
    span is_digit (d :: t ++ rest) = (d :: ds, r1) /\
    span is_version_char r1 = (tl, rest) /\ d :: t = (d :: ds) ++ tl.
Proof.
  intros Hd Ht Hrest.
  pose proof (span_app is_digit (t ++ rest)) as Happ.
  pose proof (span_forall is_digit (t ++ rest)) as Hall.
  pose proof (span_stop is_digit (t ++ rest)) as Hstop.
  simpl. rewrite Hd.
  destruct (span is_digit (t ++ rest)) as [ds r1] eqn:E; simpl in *.
  assert (Hsplit : exists tl, t = ds ++ tl /\ r1 = tl ++ rest).
  { clear E Hstop. revert t Ht Happ. induction ds as [|x ds IH]; intros t Ht Happ.
    - exists t. simpl in Happ. auto.
    - destruct t as [|y t].
      + simpl in Happ. subst rest. simpl in Hall.
        apply andb_true_iff in Hall as [Hx _].
        apply digit_version_char in Hx. simpl in Hrest. congruence.
      + simpl in Happ. injection Happ as -> Happ.
        simpl in Ht, Hall. apply andb_true_iff in Ht as [_ Ht].
        apply andb_true_iff in Hall as [_ Hall].
        destruct (IH Hall t Ht Happ) as (tl & -> & ->). exists tl. auto. }
  destruct Hsplit as (tl & -> & ->).
  exists ds, tl, (tl ++ rest). repeat split; auto.
  apply span_prefix; auto.
  apply forallb_app_true in Ht. tauto.
Qed.

Lemma spaces_stop_version (ws : jsstring) :
  forallb is_space ws = true ->
  match ws with [] => True | c :: _ => is_version_char c = false end.
Proof.
  destruct ws as [|c ws]; simpl; [trivial|].
  intros H. apply andb_true_iff in H as [H _]. now apply space_not_version_char.
Qed.

Lemma match_token_rest (d : ascii) (t ws3 : jsstring) :
  is_digit d = true -> forallb is_version_char t = true ->
  forallb is_space ws3 = true ->
  (let (digits, r1) := span is_digit (d :: t ++ ws3) in
   match digits with
   | [] => None
   | _ :: _ =>
       let (tail, r2) := span is_version_char r1 in
       if forallb is_space r2 then Some (digits ++ tail) else None
   end) = Some (d :: t).
Proof.
  intros Hd Ht Hws.
  destruct (span_digits_token d t ws3 Hd Ht (spaces_stop_version ws3 Hws))
    as (ds & tl & r1 & -> & -> & ->).
  now rewrite Hws.
Qed.

Lemma match_specifier_complete (s v : jsstring) :
  pinned_form s v -> match_specifier s = Some v.
Proof.
  intros (ws1 & op & ws3 & -> & Hws1 & Hop & (d & t & -> & Hd & Ht) & Hws3).
  unfold match_specifier.
  assert (Hd1 : is_space d = false).
  { destruct (is_space d) eqn:E; [|reflexivity].
    apply space_not_digit in E. congruence. }
  destruct Hop as [->|(c & ws & -> & Hc & Hws)].
  - change ([] ++ (d :: t) ++ ws3) with (d :: t ++ ws3).
    rewrite (dropWhile_prefix is_space ws1 (d :: t ++ ws3) Hws1 Hd1).
    destruct (is_operator d) eqn:Ed.
    { apply operator_not_digit in Ed. congruence. }
    now apply match_token_rest.
  - change ((c :: ws) ++ (d :: t) ++ ws3) with (c :: ws ++ d :: t ++ ws3).
    assert (Hc1 : is_space c = false).
    { destruct (is_space c) eqn:E; [|reflexivity].
      apply space_not_operator in E. congruence. }
    rewrite (dropWhile_prefix is_space ws1 (c :: ws ++ d :: t ++ ws3) Hws1 Hc1).
    rewrite Hc.
    rewrite (dropWhile_prefix is_space ws (d :: t ++ ws3) Hws Hd1).
    now apply match_token_rest.
Qed.

Lemma match_specifier_pinned_form (s v : jsstring) :
  match_specifier s = Some v <-> pinned_form s v.
Proof. split; [apply match_specifier_sound | apply match_specifier_complete]. Qed.

Lemma spec_form_is_pinned_form (s v : jsstring) :
  spec_pinned_form s v -> pinned_form s v.
Proof.
  intros (ws & op & -> & Hws & Hop & Hv).
  exists ws, op, []. rewrite app_nil_r. repeat split; auto.
  destruct Hop as [->|[->| ->]]; [now left| |]; right;
    [exists "^"%char, [] | exists "~"%char, []]; repeat split.
Qed.

(** ** Semantic versions *)

Lemma str_compare_antisym (a b : jsstring) :
  str_compare b a = CompOpp (str_compare a b).
Proof.
  revert b; induction a as [|x a IH]; intros [|y b]; simpl; auto.
  rewrite (N.compare_antisym (code x) (code y)).
  destruct (N.compare (code x) (code y)); simpl; auto.
Qed.

Lemma str_compare_refl (a : jsstring) : str_compare a a = Eq.
Proof. induction a as [|x a IH]; simpl; auto. now rewrite N.compare_refl. Qed.

Lemma compare_identifiers_antisym (a b : ident) :
  compare_identifiers b a = CompOpp (compare_identifiers a b).
Proof.
  destruct a, b; simpl; auto using N.compare_antisym, str_compare_antisym.
Qed.

Lemma compare_identifiers_refl (a : ident) : compare_identifiers a a = Eq.
Proof. destruct a; simpl; auto using N.compare_refl, str_compare_refl. Qed.

Lemma compare_identifier_lists_antisym (a b : list ident) :
  compare_identifier_lists b a = CompOpp (compare_identifier_lists a b).
Proof.
  revert b; induction a as [|x a IH]; intros [|y b]; simpl; auto.
  rewrite (compare_identifiers_antisym x y).
  destruct (compare_identifiers x y); simpl; auto.
Qed.

Lemma compare_identifier_lists_refl (a : list ident) :
  compare_identifier_lists a a = Eq.
Proof.
  induction a as [|x a IH]; simpl; auto. now rewrite compare_identifiers_refl.
Qed.

Lemma compare_pre_antisym (a b : list ident) :
  compare_pre b a = CompOpp (compare_pre a b).
Proof.
  destruct a, b; simpl; auto.
  apply (compare_identifier_lists_antisym (i :: a) (i0 :: b)).
Qed.

Lemma compare_pre_refl (a : list ident) : compare_pre a a = Eq.
Proof.
  destruct a; simpl; auto.
  apply (compare_identifier_lists_refl (i :: a)).
Qed.

Lemma semver_compare_antisym (a b : SemVer) :
  semver_compare b a = CompOpp (semver_compare a b).
Proof.
  unfold semver_compare.
  rewrite (N.compare_antisym (major a) (major b)),
          (N.compare_antisym (minor a) (minor b)),
          (N.compare_antisym (patch a) (patch b)), (compare_pre_antisym a.(prerelease)).
  destruct (N.compare (major a) (major b)); simpl; auto.
  destruct (N.compare (minor a) (minor b)); simpl; auto.
  destruct (N.compare (patch a) (patch b)); simpl; auto.
Qed.

Lemma semver_compare_refl (a : SemVer) : semver_compare a a = Eq.
Proof.
  unfold semver_compare. now rewrite !N.compare_refl, compare_pre_refl.
Qed.

Lemma semver_gt_asym (a b : jsstring) :
  semver_gt a b = Some true -> semver_gt b a = Some false.
Proof.
  unfold semver_gt.
  destruct (semver_parse a) as [x|], (semver_parse b) as [y|]; try discriminate.
  rewrite (semver_compare_antisym x y).
  destruct (semver_compare x y); simpl; congruence.
Qed.

Lemma semver_gt_irrefl (a : jsstring) : semver_gt a a <> Some true.
Proof.
  unfold semver_gt. destruct (semver_parse a) as [x|]; [|discriminate].
  now rewrite semver_compare_refl.
Qed.

Lemma semver_gt_neq (a b : jsstring) : semver_gt a b = Some true -> a <> b.
Proof. intros H ->. now apply semver_gt_irrefl in H. Qed.

Lemma semver_gt_valid (a b : jsstring) (r : bool) :
  semver_gt a b = Some r -> is_version a = true /\ is_version b = true.
Proof.
  unfold semver_gt, is_version.
  destruct (semver_parse a), (semver_parse b); try discriminate. auto.
Qed.

Lemma digit_ident_char (c : ascii) : is_digit c = true -> is_ident_char c = true.
Proof. unfold is_ident_char. now intros ->. Qed.

Lemma split_at_app (c : ascii) (s : jsstring) :
  s = fst (split_at c s) ++
      match snd (split_at c s) with Some r => c :: r | None => [] end.
Proof.
  induction s as [|x s IH]; simpl; [reflexivity|].
  destruct (Ascii.eqb_spec x c) as [->|Hx]; [reflexivity|].
  destruct (split_at c s) as [a b]; simpl in *. now rewrite IH at 1.
Qed.

Lemma split_on_forall (P : ascii -> bool) (c : ascii) (s : jsstring) :
  P c = true ->
  forallb (forallb P) (split_on c s) = true -> forallb P s = true.
Proof.
  intros Hc. induction s as [|x s IH]; simpl; [reflexivity|].
  destruct (Ascii.eqb_spec x c) as [->|Hx].
  - simpl. rewrite Hc. exact IH.
  - destruct (split_on c s) as [|p ps]; simpl in *.
    + rewrite !andb_true_r. intros ->. now rewrite IH.
    + intros H. apply andb_true_iff in H as [H1 H2].
      apply andb_true_iff in H1 as [Hx1 Hp]. rewrite Hx1. simpl.
      apply IH. now rewrite Hp.
Qed.

Lemma forallb_impl (P Q : ascii -> bool) (s : jsstring) :
  (forall c, P c = true -> Q c = true) -> forallb P s = true -> forallb Q s = true.
Proof. rewrite !forallb_forall. auto. Qed.

Lemma numeric_identifier_digits (s : jsstring) (n : N) :
  numeric_identifier s = Some n -> forallb is_digit s = true.
Proof.
  unfold numeric_identifier.
  destruct (forallb is_digit s); [auto|discriminate].
Qed.

Lemma prerelease_identifier_chars (s : jsstring) (i : ident) :
  prerelease_identifier s = Some i -> forallb is_ident_char s = true.
Proof.
  unfold prerelease_identifier. destruct s; [discriminate|].
  destruct (forallb is_ident_char (a :: s)); [auto|discriminate].
Qed.

Lemma map_option_forall {A B : Type} (f : A -> option B) (P : A -> bool)
    (l : list A) (r : list B) :
  (forall a b, f a = Some b -> P a = true) ->
  map_option f l = Some r -> forallb P l = true.
Proof.
  intros Hf. revert r. induction l as [|a l IH]; intros r; simpl; [reflexivity|].
  destruct (f a) eqn:Ea; [|discriminate].
  destruct (map_option f l) eqn:El; [|discriminate].
  intros _. rewrite (Hf _ _ Ea). simpl. eauto.
Qed.

Lemma build_identifier_chars (s : jsstring) :
  build_identifier s = true -> forallb is_ident_char s = true.
Proof. unfold build_identifier. destruct s; [discriminate|auto]. Qed.

Lemma trim_forall (P : ascii -> bool) (s : jsstring) :
  (forall c, is_space c = true -> P c = true) ->
  forallb P (trim s) = true -> forallb P s = true.
Proof.
  intros Hsp H. unfold trim in H.
  rewrite (span_app is_space s). apply forallb_app_true. split.
  - apply forallb_impl with (P := is_space); auto using span_forall.
  - rewrite <- dropWhile_span. set (t := dropWhile is_space s) in *.
    rewrite forallb_forall in H |- *. intros c Hc.
    apply in_rev in Hc. rewrite (span_app is_space (rev t)) in Hc.
    apply in_app_or in Hc as [Hc|Hc].
    + apply Hsp. pose proof (span_forall is_space (rev t)) as Hall.
      rewrite forallb_forall in Hall. auto.
    + apply H. apply in_rev. rewrite rev_involutive.
      now rewrite dropWhile_span.
Qed.

Lemma semver_parse_chars (s : jsstring) (v : SemVer) :
  semver_parse s = Some v -> forallb is_semver_char s = true.
Proof.
  unfold semver_parse.
  destruct (MAX_LENGTH <? List.length s); [discriminate|].
  intros H. apply trim_forall.
  { intros c Hc. unfold is_semver_char. now rewrite Hc. }
  set (t := trim s) in *.
  set (u := match t with
            | c :: r => if Ascii.eqb c "v" then r else t
            | [] => t
            end) in *.
  assert (Hu : forallb is_semver_char u = true).
  { pose proof (split_at_app "+" u) as Hplus.
    destruct (split_at "+" u) as [mp b]; simpl in Hplus.
    pose proof (split_at_app "-" mp) as Hminus.
    destruct (split_at "-" mp) as [m p]; simpl in Hminus.
    destruct (split_on "." m) as [|x [|y [|z [|? ?]]]] eqn:Em; try discriminate.
    destruct (numeric_identifier x) eqn:Ex; [|discriminate].
    destruct (numeric_identifier y) eqn:Ey; [|discriminate].
    destruct (numeric_identifier z) eqn:Ez; [|discriminate].
    assert (Hm : forallb is_semver_char m = true).
    { apply split_on_forall with (c := "."%char); [reflexivity|].
      rewrite Em. simpl.
      apply numeric_identifier_digits in Ex, Ey, Ez.
      assert (Hdc : forall c, is_digit c = true -> is_semver_char c = true).
      { intros c Hc. unfold is_semver_char.
        now rewrite (digit_ident_char c Hc), orb_true_r. }
      now rewrite (forallb_impl _ _ x Hdc Ex), (forallb_impl _ _ y Hdc Ey),
                  (forallb_impl _ _ z Hdc Ez). }
    assert (Hic : forall c, is_ident_char c = true -> is_semver_char c = true).
    { intros c Hc. unfold is_semver_char. now rewrite Hc, orb_true_r. }
    assert (Hids : forall l, forallb (forallb is_ident_char) l = true ->
                             forallb (forallb is_semver_char) l = true).
    { intros l. rewrite !forallb_forall. intros Hl i Hi.
      apply forallb_impl with (P := is_ident_char); auto. }
    assert (Hmp : forallb is_semver_char mp = true).
    { rewrite Hminus. apply forallb_app_true. split; [exact Hm|].
      destruct p as [ps|]; [|reflexivity].
      destruct (map_option prerelease_identifier (split_on "." ps)) eqn:Ep;
        [|clear - H; repeat match type of H with context [match ?x with _ => _ end] => destruct x end; discriminate].
      simpl. apply split_on_forall with (c := "."%char); [reflexivity|].
      apply Hids.
      eapply map_option_forall; [|exact Ep]. apply prerelease_identifier_chars. }
    rewrite Hplus. apply forallb_app_true. split; [exact Hmp|].
    destruct b as [bs|]; [|reflexivity].
    destruct (forallb build_identifier (split_on "." bs)) eqn:Eb;
      [|clear - H; repeat match type of H with context [match ?x with _ => _ end] => destruct x end; discriminate].
    simpl. apply split_on_forall with (c := "."%char); [reflexivity|].
    apply Hids. rewrite forallb_forall in Eb |- *.
    auto using build_identifier_chars. }
  subst u. destruct t as [|c r]; [reflexivity|].
  destruct (Ascii.eqb_spec c "v") as [->|Hc]; [|exact Hu].
  simpl. now rewrite Hu.
Qed.

Lemma semver_char_not_dollar (c : ascii) : is_semver_char c = true -> c <> "$"%char.
Proof. intros H ->. vm_compute in H. discriminate. Qed.

Lemma version_no_dollar (s : jsstring) :
  is_version s = true -> ~ In "$"%char s.
Proof.
  unfold is_version. destruct (semver_parse s) eqn:E; [|discriminate].
  intros _ Hin. apply semver_parse_chars in E.
  rewrite forallb_forall in E. exact (semver_char_not_dollar _ (E _ Hin) eq_refl).
Qed.

(** ** Rewriting the specifier *)

Lemma expand_replacement_plain (pre matched post repl : jsstring) :
  ~ In "$"%char repl -> expand_replacement pre matched post repl = repl.
Proof.
  induction repl as [|c r IH]; simpl; [reflexivity|].
  intros H. destruct (Ascii.eqb_spec c "$") as [->|Hc].
  - exfalso. apply H. now left.
  - f_equal. apply IH. intros Hin. apply H. now right.
Qed.

Lemma strip_prefix_app (p s : jsstring) : strip_prefix p (p ++ s) = Some s.
Proof.
  induction p as [|c p IH]; simpl; [reflexivity|]. now rewrite Ascii.eqb_refl.
Qed.

Lemma find_first_eq (needle s : jsstring) :
  find_first needle s =
  match strip_prefix needle s with
  | Some rest => Some ([], rest)
  | None =>
      match s with
      | [] => None
      | c :: s' =>
          match find_first needle s' with
          | Some (pre, post) => Some (c :: pre, post)
          | None => None
          end
      end
  end.
Proof. destruct s; reflexivity. Qed.

Lemma find_first_at (d : ascii) (t pre post : jsstring) :
  (forall c, In c pre -> c <> d) ->
  find_first (d :: t) (pre ++ (d :: t) ++ post) = Some (pre, post).
Proof.
  induction pre as [|c pre IH]; intros Hpre.
  - change ([] ++ (d :: t) ++ post) with ((d :: t) ++ post).
    rewrite find_first_eq, strip_prefix_app. reflexivity.
  - change ((c :: pre) ++ (d :: t) ++ post) with (c :: pre ++ (d :: t) ++ post).
    rewrite find_first_eq. simpl strip_prefix.
    destruct (Ascii.eqb_spec d c) as [->|Hdc].
    + exfalso. apply (Hpre c); [now left|reflexivity].
    + rewrite IH; [reflexivity|]. intros x Hx. apply Hpre. now right.
Qed.

(** The captured token is found where the pattern matched it: what is
    before it holds blanks and an operator, and no digit. *)
Lemma pinned_form_find_first (s v : jsstring) :
  pinned_form s v ->
  exists pre post, s = pre ++ v ++ post /\ find_first v s = Some (pre, post).
Proof.
  intros (ws1 & op & ws3 & -> & Hws1 & Hop & (d & t & -> & Hd & Ht) & Hws3).
  exists (ws1 ++ op), ws3. rewrite <- app_assoc. split; [reflexivity|].
  rewrite app_assoc. apply find_first_at.
  intros c Hc ->. apply in_app_or in Hc as [Hc|Hc].
  - rewrite forallb_forall in Hws1. apply Hws1, space_not_digit in Hc. congruence.
  - destruct Hop as [->|(o & ws & -> & Ho & Hws)]; [destruct Hc|].
    destruct Hc as [->|Hc].
    + apply operator_not_digit in Ho. congruence.
    + rewrite forallb_forall in Hws. apply Hws, space_not_digit in Hc. congruence.
Qed.

Lemma js_replace_pinned (s v r : jsstring) :
  pinned_form s v -> ~ In "$"%char r ->
  exists pre post,
    s = pre ++ v ++ post /\ find_first v s = Some (pre, post) /\
    js_replace s v r = pre ++ r ++ post.
Proof.
  intros Hs Hr. destruct (pinned_form_find_first _ _ Hs) as (pre & post & E & F).
  exists pre, post. split; [exact E|]. split; [exact F|].
  unfold js_replace. rewrite F. now rewrite expand_replacement_plain.
Qed.

Lemma js_replace_changes (s v r : jsstring) :
  pinned_form s v -> ~ In "$"%char r -> r <> v -> js_replace s v r <> s.
Proof.
  intros Hs Hr Hne.
  destruct (js_replace_pinned _ _ _ Hs Hr) as (pre & post & E & _ & ->).
  rewrite E at 1. intros H. apply app_inv_head, app_inv_tail in H. congruence.
Qed.

(** ** Selection and the inventory *)

Lemma glob_star_all (name : jsstring) : glob_match (str "*") name = true.
Proof.
  change (glob_match (str "*") name) with
    ((fix star (n : jsstring) : bool :=
        glob_match [] n || match n with [] => false | _ :: n' => star n' end) name).
  induction name as [|c n IH]; [reflexivity|]. simpl. exact IH.
Qed.

Lemma selected_eq (patterns : list jsstring) (module : jsstring) :
  selected patterns module =
  match patterns with
  | [] => true
  | p0 :: _ =>
      apply_patterns ((if is_negated p0 then [str "*"] else []) ++ patterns)
                     module false
  end.
Proof.
  unfold selected, micromatch. destruct patterns as [|p0 ps]; [reflexivity|].
  simpl filter. destruct (apply_patterns _ module false); reflexivity.
Qed.

Lemma selected_negated (p0 : jsstring) (ps : list jsstring) (module : jsstring) :
  is_negated p0 = true ->
  selected (p0 :: ps) module = apply_patterns (p0 :: ps) module true.
Proof.
  intros Hneg. rewrite selected_eq, Hneg.
  change ([str "*"] ++ p0 :: ps) with (str "*" :: p0 :: ps).
  change (apply_patterns (str "*" :: p0 :: ps) module false)
    with (apply_patterns (p0 :: ps) module (false || glob_match (str "*") module)).
  now rewrite glob_star_all.
Qed.

Lemma classify_state (patterns : list jsstring) (sect module s : jsstring) :
  state (classify patterns sect module s) =
  if selected patterns module then
    match match_specifier s with Some _ => check | None => skipped end
  else ignored.
Proof.
  unfold classify. destruct (selected patterns module); [|reflexivity].
  destruct (match_specifier s); reflexivity.
Qed.

Lemma classify_fields (patterns : list jsstring) (sect module s : jsstring) :
  let e := classify patterns sect module s in
  section e = sect /\ sOld e = s /\ sNew e = s /\ vNew e = vOld e /\
  vOld e = match (if selected patterns module then match_specifier s else None) with
           | Some v => v
           | None => s
           end.
Proof.
  unfold classify. destruct (selected patterns module); simpl; [|auto].
  destruct (match_specifier s); simpl; auto.
Qed.

Lemma manifest_push_in (m : Manifest) (module : jsstring) (e : spec)
    (name : jsstring) (es : list spec) :
  In (name, es) (manifest_push m module e) ->
  In (name, es) m \/
  (name = module /\ exists es0, es = es0 ++ [e] /\ (es0 = [] \/ In (name, es0) m)).
Proof.
  induction m as [|[k l] m IH]; simpl.
  - intros [[= <- <-]|[]]. right. split; [reflexivity|]. exists []. auto.
  - destruct (str_eqb_spec k module) as [->|Hk]; simpl.
    + intros [[= <- <-]|H]; [|auto].
      right. split; [reflexivity|]. exists l. auto.
    + intros [H|H]; [auto|].
      destruct (IH H) as [H'|(E1 & es0 & E2 & [E3|H'])]; [auto| |]; subst.
      * right. split; [reflexivity|]. exists []. auto.
      * right. split; [reflexivity|]. exists es0. auto.
Qed.

Lemma manifest_push_keys (m : Manifest) (module : jsstring) (e : spec) (k : jsstring) :
  In k (map fst (manifest_push m module e)) <-> In k (map fst m) \/ k = module.
Proof.
  induction m as [|[k0 l] m IH]; simpl; [intuition congruence|].
  destruct (str_eqb_spec k0 module) as [->|Hk]; simpl; [intuition congruence|].
  rewrite IH. tauto.
Qed.

Lemma manifest_push_NoDup (m : Manifest) (module : jsstring) (e : spec) :
  NoDup (map fst m) -> NoDup (map fst (manifest_push m module e)).
Proof.
  induction m as [|[k l] m IH]; simpl; intros H.
  - repeat constructor. intros [].
  - destruct (str_eqb_spec k module) as [->|Hk]; simpl; [exact H|].
    inversion H as [|? ? Hnin Hnd]; subst. constructor; [|auto].
    rewrite manifest_push_keys. tauto.
Qed.

Lemma mixin_classified (patterns : list jsstring) (pkg : Package) (sect : jsstring)
    (m : Manifest) :
  classified patterns m -> classified patterns (mixin patterns pkg sect m).
Proof.
  unfold mixin. destruct (lookup sect pkg) as [deps|]; [|auto].
  revert m. induction deps as [|[module s] deps IH]; intros m Hm; simpl; [exact Hm|].
  apply IH. intros name es e Hin He.
  apply manifest_push_in in Hin as [Hin|(E1 & es0 & E2 & Hes0)]; [eauto|]. subst.
  apply in_app_or in He as [He|[<-|[]]]; [|eauto].
  destruct Hes0 as [->|Hin]; [destruct He|eauto].
Qed.

Lemma mixin_NoDup (patterns : list jsstring) (pkg : Package) (sect : jsstring)
    (m : Manifest) :
  NoDup (map fst m) -> NoDup (map fst (mixin patterns pkg sect m)).
Proof.
  unfold mixin. destruct (lookup sect pkg) as [deps|]; [|auto].
  revert m. induction deps as [|[module s] deps IH]; intros m Hm; simpl; [exact Hm|].
  apply IH. now apply manifest_push_NoDup.
Qed.

Lemma inventory_classified (patterns : list jsstring) (pkg : Package) :
  classified patterns (inventory patterns pkg).
Proof.
  unfold inventory, sections. simpl.
  repeat apply mixin_classified. intros ? ? ? [].
Qed.

Lemma inventory_NoDup (patterns : list jsstring) (pkg : Package) :
  NoDup (map fst (inventory patterns pkg)).
Proof.
  unfold inventory, sections. simpl.
  repeat apply mixin_NoDup. constructor.
Qed.

Lemma checked_iff (m : Manifest) (name : jsstring) :
  In name (checked m) <->
  exists es e, In (name, es) m /\ In e es /\ state e = check.
Proof.
  unfold checked. rewrite in_map_iff. split.
  - intros ([k es] & <- & H). apply filter_In in H as [Hin Hex].
    apply existsb_exists in Hex as (e & He & Hst).
    exists es, e. repeat split; auto. destruct (state e); auto; discriminate.
  - intros (es & e & Hin & He & Hst). exists (name, es). split; [reflexivity|].
    apply filter_In. split; [exact Hin|].
    apply existsb_exists. exists e. split; [exact He|]. now rewrite Hst.
Qed.

(** C7: selection is a function of the module name and the patterns alone.
    Without patterns every module is selected; when the first pattern is
    negated the patterns are applied in order starting from everything
    included; with the one pattern [!foo-*] a module is left out exactly
    when its name matches [foo-*]; and in the inventory an entry is
    [ignored] exactly when its name is not selected, wherever it stands. *)
Theorem selection_by_name_and_patterns :
  (forall module, selected [] module = true) /\
  (forall p0 ps module,
     is_negated p0 = true ->
     selected (p0 :: ps) module = apply_patterns (p0 :: ps) module true) /\
  (forall module,
     selected [str "!foo-*"] module = negb (glob_match (str "foo-*") module)) /\
  (forall patterns sect module s,
     state (classify patterns sect module s) = ignored <->
     selected patterns module = false) /\
  (forall patterns pkg name es e,
     In (name, es) (inventory patterns pkg) -> In e es ->
     (state e = ignored <-> selected patterns name = false)).
Proof.
  split; [reflexivity|]. split; [exact selected_negated|]. split; [|split].
  - intros module. rewrite (selected_negated (str "!foo-*") [] module eq_refl).
    change (apply_patterns [str "!foo-*"] module true)
      with (if glob_match (str "foo-*") module then false else true). destruct (glob_match _ module); reflexivity.
  - intros patterns sect module s. rewrite classify_state.
    destruct (selected patterns module); [|tauto].
    destruct (match_specifier s); split; discriminate.
  - intros patterns pkg name es e Hin He.
    destruct (inventory_classified patterns pkg name es e Hin He) as (sect & s & ->).
    rewrite classify_state. destruct (selected patterns name).
    + destruct (match_specifier s); split; discriminate.
    + tauto.
Qed.

(** ** The decision for one entry *)

Lemma not_spec_pinned_blank_after_operator :
  ~ exists v, spec_pinned_form (str "^ 1.2.3") v.
Proof.
  intros (v & ws & op & E & Hws & Hop & d & t & -> & Hd & Ht).
  destruct ws as [|w ws].
  - destruct Hop as [->|[->| ->]]; simpl in E.
    + injection E as <- _. vm_compute in Hd. discriminate.
    + injection E as <- _. vm_compute in Hd. discriminate.
    + discriminate.
  - simpl in E. injection E as <- _. vm_compute in Hws. discriminate.
Qed.

(** C6, as the claim words the grammar: the specifier [^ 1.2.3], with a
    blank after the operator, is not of the form "blanks, operator, token",
    and the entry still goes to [check], with [1.2.3] as pinned version. *)
Lemma classify_blank_after_operator_checked :
  state (classify [] (str "dependencies") (str "left-pad") (str "^ 1.2.3")) = check /\
  vOld (classify [] (str "dependencies") (str "left-pad") (str "^ 1.2.3")) = str "1.2.3" /\
  ~ exists v, spec_pinned_form (str "^ 1.2.3") v.
Proof.
  split; [reflexivity|]. split; [reflexivity|].
  exact not_spec_pinned_blank_after_operator.
Qed.

(** C6, amended: a selected entry goes to [check] exactly when its
    specifier is made of optional blanks, an optional [^] or [~] followed by
    optional blanks, a token that starts with a digit and holds no
    comparator, bar or blank, and optional blanks; the token is the pinned
    version.  Otherwise the entry is [skipped].  The form the claim words
    is included.  A name is looked up only when one of its entries is in
    state [check]. *)
Theorem classify_check_iff_pinned_form
    (patterns : list jsstring) (sect module s : jsstring) :
  selected patterns module = true ->
  let e := classify patterns sect module s in
  (forall v, state e = check /\ vOld e = v <-> pinned_form s v) /\
  (state e = skipped <-> ~ exists v, pinned_form s v) /\
  (state e = check \/ state e = skipped) /\
  (forall v, spec_pinned_form s v -> state e = check /\ vOld e = v) /\
  (forall m name,
     In name (checked m) <->
     exists es e', In (name, es) m /\ In e' es /\ state e' = check).
Proof.
  intros Hsel e.
  assert (Hiff : forall v, state e = check /\ vOld e = v <-> pinned_form s v).
  { intros v. rewrite <- match_specifier_pinned_form.
    subst e. unfold classify. rewrite Hsel.
    destruct (match_specifier s); simpl; split;
      try intros [? ?]; try intros [= ?]; subst; auto; discriminate. }
  split; [exact Hiff|]. split; [|split; [|split]].
  - split.
    + intros Hst (v & Hv). apply Hiff in Hv as [Hv _]. congruence.
    + intros Hno. subst e. rewrite classify_state, Hsel.
      destruct (match_specifier s) as [v|] eqn:E; [|reflexivity].
      exfalso. apply Hno. exists v. now apply match_specifier_pinned_form.
  - subst e. rewrite classify_state, Hsel. destruct (match_specifier s); auto.
  - intros v Hv. apply Hiff. now apply spec_form_is_pinned_form.
  - exact checked_iff.
Qed.

Lemma classify_check_iff_pinned_form_witness :
  selected [str "left-*"] (str "left-pad") = true /\
  state (classify [str "left-*"] (str "dependencies") (str "left-pad") (str " ~ 1.2.3-rc.1 "))
    = check /\
  pinned_form (str " ~ 1.2.3-rc.1 ") (str "1.2.3-rc.1").
Proof.
  split; [reflexivity|]. split; [reflexivity|].
  apply (classify_check_iff_pinned_form [str "left-*"] (str "dependencies")
           (str "left-pad") (str " ~ 1.2.3-rc.1 ") eq_refl).
  split; reflexivity.
Defined.

(** An entry in state [check] as [mixin] leaves it. *)
Lemma classify_check_invariant (patterns : list jsstring) (sect module s : jsstring) :
  state (classify patterns sect module s) = check ->
  match_specifier (sOld (classify patterns sect module s))
  = Some (vOld (classify patterns sect module s)).
Proof.
  unfold classify. destruct (selected patterns module); simpl; [|discriminate].
  destruct (match_specifier s) eqn:E; simpl; [auto|discriminate].
Qed.

(** C2, as stated: for ["^1.2.0"] with the registry at [1.1.0] the entry is
    kept, and its new specifier is not the original one. *)
Lemma kept_entry_new_specifier_differs :
  exists e',
    plan (str "left-pad") (str "1.1.0")
         (classify [] (str "dependencies") (str "left-pad") (str "^1.2.0"))
    = Ok (e', false) /\
    semver_gt (str "1.2.0") (str "1.1.0") = Some true /\
    state e' = kept /\ sOld e' = str "^1.2.0" /\ sNew e' <> sOld e'.
Proof.
  eexists. split; [reflexivity|]. split; [reflexivity|].
  split; [reflexivity|]. split; [reflexivity|]. discriminate.
Qed.

(** C2, amended: when the resolved version is strictly lower than the
    pinned one, the entry is kept, its original specifier is left as it
    is, its new specifier is the resolved version, the flag [updates] and
    the syntax tree are not touched. *)
Theorem no_downgrade (argv : Argv) (name vNew0 : jsstring) (e : spec)
    (ast : node) (updates : bool) :
  state e = check ->
  semver_gt (vOld e) vNew0 = Some true ->
  exists e',
    plan name vNew0 e = Ok (e', false) /\
    merge_entry argv name vNew0 e ast updates = Ok (e', ast, updates) /\
    state e' = kept /\ sOld e' = sOld e /\ vOld e' = vOld e /\
    section e' = section e /\ vNew e' = vNew0 /\ sNew e' = vNew0.
Proof.
  intros Hst Hgt.
  assert (Hne : str_eqb (vOld e) vNew0 = false).
  { apply str_eqb_neq. now apply semver_gt_neq. }
  exists (mkSpec (section e) (sOld e) (vOld e) vNew0 vNew0 kept).
  assert (Hplan : plan name vNew0 e
                  = Ok (mkSpec (section e) (sOld e) (vOld e) vNew0 vNew0 kept, false)).
  { unfold plan. now rewrite Hst, Hne, Hgt. }
  split; [exact Hplan|]. split; [|repeat split].
  unfold merge_entry. now rewrite Hplan.
Qed.

Lemma no_downgrade_witness :
  exists e',
    plan (str "left-pad") (str "1.1.0")
      (classify [] (str "dependencies") (str "left-pad") (str "^1.2.0")) = Ok (e', false) /\
    state e' = kept /\ sNew e' = str "1.1.0".
Proof.
  destruct (no_downgrade (mkArgv [] false false false false (str "-") 8)
              (str "left-pad") (str "1.1.0")
              (classify [] (str "dependencies") (str "left-pad") (str "^1.2.0"))
              (Node [] [] [] [] None []) false eq_refl eq_refl)
    as (e' & Hplan & _ & Hst & _ & _ & _ & _ & HsNew).
  exists e'. auto.
Defined.

(** What [plan] does with an entry whose pinned version is neither equal
    to nor above the resolved one. *)
Lemma plan_updated (name vNew0 : jsstring) (e : spec) :
  state e = check ->
  match_specifier (sOld e) = Some (vOld e) ->
  vOld e <> vNew0 ->
  semver_gt (vOld e) vNew0 = Some false ->
  exists pre post,
    sOld e = pre ++ vOld e ++ post /\
    find_first (vOld e) (sOld e) = Some (pre, post) /\
    js_replace (sOld e) (vOld e) vNew0 = pre ++ vNew0 ++ post /\
    js_replace (sOld e) (vOld e) vNew0 <> sOld e /\
    plan name vNew0 e
    = Ok (mkSpec (section e) (sOld e) (vOld e) (pre ++ vNew0 ++ post) vNew0 updated,
          true).
Proof.
  intros Hst Hm Hne Hgt.
  apply match_specifier_pinned_form in Hm.
  assert (Hd : ~ In "$"%char vNew0).
  { apply version_no_dollar. now apply semver_gt_valid in Hgt. }
  destruct (js_replace_pinned _ _ _ Hm Hd) as (pre & post & E & F & R).
  assert (Hch : js_replace (sOld e) (vOld e) vNew0 <> sOld e).
  { apply js_replace_changes; auto. }
  exists pre, post. repeat split; auto.
  unfold plan. rewrite Hst.
  destruct (str_eqb_spec (vOld e) vNew0) as [?|_]; [contradiction|].
  rewrite Hgt. cbv zeta.
  destruct (str_eqb_spec (js_replace (sOld e) (vOld e) vNew0) (sOld e)) as [?|_];
    [contradiction|].
  now rewrite R.
Qed.

Lemma plan_not_check (name vNew0 : jsstring) (e : spec) :
  state e <> check -> plan name vNew0 e = Ok (e, false).
Proof. unfold plan. destruct (state e); congruence. Qed.

(** C3: an entry in state [check] whose resolved version is strictly
    greater than the pinned one under the order of semantic versions
    becomes [updated], its new specifier is the original one with the
    pinned version replaced by the resolved one, and the flag [updates]
    is set; when the two versions are equal the entry is kept. *)
Theorem upgrade_when_newer
    (argv : Argv) (patterns : list jsstring) (sect name s vNew0 : jsstring) :
  let e := classify patterns sect name s in
  state e = check ->
  (semver_gt vNew0 (vOld e) = Some true ->
   exists e' pre post,
     plan name vNew0 e = Ok (e', true) /\
     state e' = updated /\ vNew e' = vNew0 /\
     s = pre ++ vOld e ++ post /\ sNew e' = pre ++ vNew0 ++ post /\
     find_first (vOld e) s = Some (pre, post) /\
     forall ast u e'' ast' u',
       merge_entry argv name vNew0 e ast u = Ok (e'', ast', u') ->
       e'' = e' /\ u' = true) /\
  (vNew0 = vOld e ->
   exists e', plan name vNew0 e = Ok (e', false) /\ state e' = kept).
Proof.
  intros e Hst. split.
  - intros Hgt.
    pose proof (classify_check_invariant patterns sect name s Hst) as Hinv.
    fold e in Hinv.
    assert (HsOld : sOld e = s) by apply classify_fields.
    destruct (plan_updated name vNew0 e Hst Hinv) as (pre & post & E & F & R & _ & P).
    { intros Heq. symmetry in Heq. revert Heq. now apply semver_gt_neq. }
    { now apply semver_gt_asym. }
    exists (mkSpec (section e) (sOld e) (vOld e) (pre ++ vNew0 ++ post) vNew0 updated),
           pre, post.
    rewrite <- HsOld. repeat split; auto.
    + unfold merge_entry in H. rewrite P in H. simpl in H.
      destruct (patch_ast _ _ _ _); simpl in H; congruence.
    + unfold merge_entry in H. rewrite P in H. simpl in H.
      destruct (patch_ast _ _ _ _); simpl in H; congruence.
  - intros ->. exists (mkSpec (section e) (sOld e) (vOld e) (vOld e) (vOld e) kept).
    split; [|reflexivity]. unfold plan. now rewrite Hst, str_eqb_refl.
Qed.

Lemma upgrade_when_newer_witness :
  exists e',
    plan (str "left-pad") (str "1.3.0")
      (classify [] (str "dependencies") (str "left-pad") (str "^1.2.0")) = Ok (e', true) /\
    state e' = updated /\ sNew e' = str "^1.3.0".
Proof.
  destruct (upgrade_when_newer (mkArgv [] false false false false (str "-") 8)
              [] (str "dependencies") (str "left-pad") (str "^1.2.0") (str "1.3.0")
              eq_refl) as [H _].
  destruct (H eq_refl) as (e' & pre & post & P & St & _ & _ & _ & _ & _).
  exists e'. split; [exact P|]. split; [exact St|].
  vm_compute in P. injection P as <-. reflexivity.
Defined.

(** The order is the one of semantic versions: [1.10.0] is above [1.9.0],
    which the order of the strings would not say. *)
Example semantic_not_lexicographic :
  semver_gt (str "1.10.0") (str "1.9.0") = Some true /\
  str_compare (str "1.10.0") (str "1.9.0") = Lt /\
  exists e',
    plan (str "left-pad") (str "1.10.0")
      (classify [] (str "dependencies") (str "left-pad") (str "~1.9.0")) = Ok (e', true) /\
    state e' = updated /\ sNew e' = str "~1.10.0".
Proof. repeat split. eexists. repeat split. Qed.

(** ** The syntax tree *)

Lemma node_induction (P : node -> Prop) :
  (forall ty pro txt epi v cs, Forall P cs -> P (Node ty pro txt epi v cs)) ->
  forall n, P n.
Proof.
  intros H. fix IH 1. intros [ty pro txt epi v cs]. apply H.
  revert cs. fix IHcs 1. intros [|c cs]; constructor; [apply IH|apply IHcs].
Qed.

Lemma tokens_eq (path : Path) (ty pro txt epi : jsstring) (v : option jsstring)
    (cs : list node) :
  tokens path (Node ty pro txt epi v cs) =
  (path, Prolog, pro) :: (path, Text, txt) :: tokens_list path 0 cs
  ++ [(path, Epilog, epi)].
Proof.
  simpl. do 3 f_equal. generalize 0.
  induction cs as [|c cs IH]; intros i; simpl; [reflexivity|]. now rewrite IH.
Qed.

Lemma query_eq (sect module : jsstring) (under : bool) (path : Path) (n : node) :
  query sect module under path n =
  (if has_type "object-member" n && under && member_named module n
   then member_value_strings path n else [])
  ++ query_list sect module
       (under || (has_type "object-member" n && member_named sect n))
       path 0 (children n).
Proof.
  destruct n as [ty pro txt epi v cs].
  cbn -[has_type member_named member_value_strings app].
  f_equal.
  remember (under || has_type "object-member" (Node ty pro txt epi v cs) &&
                     member_named sect (Node ty pro txt epi v cs)) as u' eqn:E.
  clear E. generalize 0.
  induction cs as [|c cs IH]; intros i; simpl; [reflexivity|]. now rewrite IH.
Qed.

Lemma node_set_eq (i : nat) (p : Path) (txt v : jsstring)
    (ty pro t epi : jsstring) (v0 : option jsstring) (cs : list node) :
  node_set (i :: p) txt v (Node ty pro t epi v0 cs) =
  Node ty pro t epi v0 (node_set_list i p txt v cs).
Proof.
  simpl. f_equal. revert i.
  induction cs as [|c cs IH]; intros i; simpl; [reflexivity|].
  destruct i; [reflexivity|]. now rewrite IH.
Qed.

(** [unparse] is the text of the tokens, in their order. *)
Lemma unparse_tokens (n : node) (path : Path) :
  unparse n = List.concat (map snd (tokens path n)).
Proof.
  revert path. induction n as [ty pro txt epi v cs IH] using node_induction.
  intros path. rewrite tokens_eq. simpl. f_equal. f_equal.
  rewrite map_app, concat_app. simpl. rewrite app_nil_r. f_equal.
  generalize 0. induction IH as [|c cs Hc Hcs IHcs]; intros i; simpl; [reflexivity|].
  rewrite map_app, concat_app.
  rewrite <- (IHcs (S i)).
  f_equal. apply Hc.
Qed.

Lemma Forall2_refl {A : Type} (R : A -> A -> Prop) (l : list A) :
  (forall a, R a a) -> Forall2 R l l.
Proof. intros H. induction l; constructor; auto. Qed.

Lemma Forall2_trans {A : Type} (R1 R2 R3 : A -> A -> Prop) (l1 l2 l3 : list A) :
  (forall a b c, R1 a b -> R2 b c -> R3 a c) ->
  Forall2 R1 l1 l2 -> Forall2 R2 l2 l3 -> Forall2 R3 l1 l3.
Proof.
  intros H H12. revert l3. induction H12; intros l3 H23; inversion H23; subst;
    constructor; eauto.
Qed.

Lemma changed_only_refl (ps : list Path) (a : token) : changed_only ps a a.
Proof. now left. Qed.

Lemma changed_only_mono (ps qs : list Path) (a b : token) :
  incl ps qs -> changed_only ps a b -> changed_only qs a b.
Proof. intros Hi [->|(p & Hp & H)]; [now left|right; exists p; auto]. Qed.

Lemma changed_only_trans (ps : list Path) (a b c : token) :
  changed_only ps a b -> changed_only ps b c -> changed_only ps a c.
Proof.
  intros [->|(p & Hp & Ha & Hb)] [->|(q & Hq & Hb' & Hc)].
  - now left.
  - right. exists q. auto.
  - right. exists p. auto.
  - right. exists p. repeat split; auto. congruence.
Qed.

(** [node_set] changes the [text] of the node at [p], and no other piece
    of the text. *)
Lemma tokens_node_set (p : Path) (txt v : jsstring) (n : node) (path : Path) :
  Forall2 (changed_only [path ++ p]) (tokens path n) (tokens path (node_set p txt v n)).
Proof.
  revert n path. induction p as [|i q IH]; intros [ty pro t epi v0 cs] path.
  - simpl node_set. rewrite !tokens_eq. rewrite app_nil_r.
    constructor; [now left|]. constructor.
    + right. exists path. simpl. auto.
    + apply Forall2_refl. intros a. now left.
  - rewrite node_set_eq, !tokens_eq.
    constructor; [now left|]. constructor; [now left|].
    apply Forall2_app; [|apply Forall2_refl; intros a; now left].
    assert (H : forall cs k j,
      Forall2 (changed_only [path ++ (k + j) :: q])
              (tokens_list path k cs)
              (tokens_list path k (node_set_list j q txt v cs))).
    { clear cs. induction cs as [|c cs IHcs]; intros k j; simpl; [constructor|].
      destruct j as [|j]; simpl.
      - apply Forall2_app; [|apply Forall2_refl; intros a; now left].
        rewrite Nat.add_0_r.
        replace (path ++ k :: q) with ((path ++ [k]) ++ q)
          by now rewrite <- app_assoc.
        apply IH.
      - apply Forall2_app; [apply Forall2_refl; intros a; now left|].
        replace (k + S j) with (S k + j) by lia. apply IHcs. }
    apply (H cs 0 i).
Qed.

Lemma tokens_apply_edits (edits : list Edit) (ast : node) :
  Forall2 (changed_only (map fst edits))
          (tokens [] ast) (tokens [] (apply_edits edits ast)).
Proof.
  revert ast. induction edits as [|[p s] edits IH]; intros ast; simpl.
  - apply Forall2_refl. intros a. now left.
  - apply Forall2_trans with (R1 := changed_only (p :: map fst edits))
                             (R2 := changed_only (p :: map fst edits))
                             (l2 := tokens [] (node_set p (JSON_stringify s) s ast)).
    + apply changed_only_trans.
    + eapply Forall2_impl; [|apply (tokens_node_set p (JSON_stringify s) s ast [])].
      intros a b. apply changed_only_mono. intros x [<-|[]]. now left.
    + eapply Forall2_impl; [|apply IH].
      intros a b. apply changed_only_mono. intros x Hx. now right.
Qed.

(** *** The query does not see the changes made by [node_set] *)

Lemma type_node_set (p : Path) (txt v : jsstring) (n : node) :
  type (node_set p txt v n) = type n.
Proof.
  destruct p as [|i q], n as [ty pro t epi v0 cs]; [reflexivity|].
  now rewrite node_set_eq.
Qed.

Lemma value_node_set_cons (i : nat) (q : Path) (txt v : jsstring) (n : node) :
  value (node_set (i :: q) txt v n) = value n.
Proof. destruct n as [ty pro t epi v0 cs]. now rewrite node_set_eq. Qed.

Lemma children_node_set_cons (i : nat) (q : Path) (txt v : jsstring) (n : node) :
  children (node_set (i :: q) txt v n) = node_set_list i q txt v (children n).
Proof. destruct n as [ty pro t epi v0 cs]. now rewrite node_set_eq. Qed.

Lemma node_set_list_spec (P : node -> Prop) (q : Path) (txt v : jsstring)
    (cs : list node) (i : nat) :
  (forall c, nth_error cs i = Some c -> P c) ->
  Forall2 (fun c c' => c' = c \/ (c' = node_set q txt v c /\ P c))
          cs (node_set_list i q txt v cs).
Proof.
  revert i. induction cs as [|c cs IH]; intros i H; simpl; [constructor|].
  destruct i as [|i].
  - constructor; [right; split; [reflexivity|apply H; reflexivity]|].
    apply Forall2_refl. auto.
  - constructor; [now left|]. apply IH. intros c' Hc'. apply H. exact Hc'.
Qed.

Lemma member_value_not_name (c : node) :
  has_type "object-member-value" c = true -> has_type "object-member-name" c = false.
Proof.
  unfold has_type. intros H. apply str_eqb_eq in H. now rewrite H.
Qed.

Lemma similar_refl (c : node) : similar c c.
Proof. split; [reflexivity|]. apply Forall2_refl. auto. Qed.

Lemma similar_node_set (q : Path) (txt v : jsstring) (c : node) :
  q = [] \/ below_member_value q c = true -> similar c (node_set q txt v c).
Proof.
  intros H. split; [apply type_node_set|].
  destruct q as [|j q']; [destruct c; apply Forall2_refl; auto|].
  destruct H as [H|H]; [discriminate|].
  rewrite children_node_set_cons.
  eapply Forall2_impl;
    [|apply (node_set_list_spec
               (fun _ => q' = [] -> has_type "object-member-value" c = true)
               q' txt v (children c) j)].
  - intros g g' [->|[-> Hg]]; [auto|].
    split; [apply type_node_set|]. intros Hname.
    destruct q' as [|k q'']; [|apply value_node_set_cons].
    rewrite member_value_not_name in Hname by auto. discriminate.
  - intros g Hg ->. exact H.
Qed.

Lemma has_type_eq (t : string) (c c' : node) :
  type c' = type c -> has_type t c' = has_type t c.
Proof. unfold has_type. now intros ->. Qed.

Lemma member_named_similar (x : jsstring) (ty pro t epi ty' pro' t' epi' : jsstring)
    (v v' : option jsstring) (cs cs' : list node) :
  Forall2 similar cs cs' ->
  member_named x (Node ty' pro' t' epi' v' cs') = member_named x (Node ty pro t epi v cs).
Proof.
  unfold member_named. cbn [children].
  induction 1 as [|c c' cs cs' [Hty Hch] _ IH]; simpl; [reflexivity|].
  rewrite IH. f_equal. rewrite (has_type_eq _ _ _ Hty).
  destruct (has_type "object-member-name" c) eqn:Hname; [|reflexivity]. simpl.
  clear - Hch. induction Hch as [|g g' gs gs' [Hg Hv] _ IHg]; simpl; [reflexivity|].
  rewrite IHg. f_equal. unfold string_value_is.
  now rewrite (has_type_eq _ _ _ Hg), Hv.
Qed.

Lemma member_value_strings_similar (path : Path)
    (ty pro t epi ty' pro' t' epi' : jsstring)
    (v v' : option jsstring) (cs cs' : list node) :
  Forall2 similar cs cs' ->
  member_value_strings path (Node ty' pro' t' epi' v' cs')
  = member_value_strings path (Node ty pro t epi v cs).
Proof.
  unfold member_value_strings. cbn [children]. intros H. generalize 0.
  induction H as [|c c' cs cs' [Hty Hch] _ IH]; intros i; [reflexivity|].
  cbn [member_value_paths]. rewrite IH. f_equal. rewrite (has_type_eq _ _ _ Hty).
  destruct (has_type "object-member-value" c); [|reflexivity].
  generalize 0.
  induction Hch as [|g g' gs gs' [Hg _] _ IHg]; intros j; [reflexivity|].
  cbn [value_string_paths]. rewrite IHg. now rewrite (has_type_eq _ _ _ Hg).
Qed.

Lemma below_child (i j : nat) (q : Path) (n : node) :
  below_member_value (i :: j :: q) n = true ->
  exists c, nth_error (children n) i = Some c /\ below_member_value (j :: q) c = true.
Proof.
  simpl. destruct (nth_error (children n) i) as [c|]; [eauto|discriminate].
Qed.

Lemma query_node_set (sect module : jsstring) (txt v : jsstring) (n : node) :
  forall (q : Path) (under : bool) (path : Path),
    q = [] \/ below_member_value q n = true ->
    query sect module under path (node_set q txt v n) = query sect module under path n.
Proof.
  induction n as [ty pro t epi v0 cs IH] using node_induction.
  intros q under path Hq. destruct q as [|i q]; [reflexivity|].
  destruct Hq as [Hq|Hq]; [discriminate|].
  assert (Hchild : forall c, nth_error cs i = Some c ->
                             q = [] \/ below_member_value q c = true).
  { intros c Hc. destruct q as [|j q']; [now left|right].
    apply below_child in Hq as (c' & Hc' & Hb). cbn [children] in Hc'. congruence. }
  pose proof (node_set_list_spec _ q txt v cs i Hchild) as Hspec.
  assert (Hsim : Forall2 similar cs (node_set_list i q txt v cs)).
  { eapply Forall2_impl; [|exact Hspec].
    intros c c' [->|[-> Hc]]; [apply similar_refl|now apply similar_node_set]. }
  rewrite node_set_eq, !query_eq. cbn [children].
  rewrite !(member_named_similar _ ty pro t epi ty pro t epi v0 v0 cs _ Hsim).
  rewrite (member_value_strings_similar path ty pro t epi ty pro t epi v0 v0 cs _ Hsim).
  change (has_type "object-member" (Node ty pro t epi v0 (node_set_list i q txt v cs)))
    with (has_type "object-member" (Node ty pro t epi v0 cs)).
  f_equal.
  generalize (under || has_type "object-member" (Node ty pro t epi v0 cs) &&
                       member_named sect (Node ty pro t epi v0 cs)).
  intros u. clear Hsim Hq Hchild. generalize 0.
  induction Hspec as [|c c' l l' Hc _ IHl]; intros k; [reflexivity|].
  inversion IH as [|? ? IHc IHcs]; subst.
  cbn [query_list]. rewrite (IHl IHcs). f_equal.
  destruct Hc as [->|[-> Hc]]; [reflexivity|]. now apply IHc.
Qed.

Lemma value_string_paths_in (path : Path) (i j : nat) (gs : list node) (p : Path) :
  In p (value_string_paths path i j gs) -> exists k, p = path ++ [i; k].
Proof.
  revert j. induction gs as [|g gs IH]; intros j; simpl; [intros []|].
  intros H. apply in_app_or in H as [H|H]; [|eauto].
  destruct (has_type "value-string" g); [|destruct H].
  destruct H as [<-|[]]. eauto.
Qed.

Lemma member_value_paths_in (path : Path) (i : nat) (cs : list node) (p : Path) :
  In p (member_value_paths path i cs) ->
  exists j k c, p = path ++ [i + j; k] /\ nth_error cs j = Some c /\
                has_type "object-member-value" c = true.
Proof.
  revert i. induction cs as [|c cs IH]; intros i; simpl; [intros []|].
  intros H. apply in_app_or in H as [H|H].
  - destruct (has_type "object-member-value" c) eqn:E; [|destruct H].
    apply value_string_paths_in in H as [k ->].
    exists 0, k, c. rewrite Nat.add_0_r. auto.
  - apply IH in H as (j & k & c' & -> & Hn & Ht).
    exists (S j), k, c'. replace (i + S j) with (S i + j) by lia. auto.
Qed.

Lemma query_list_in (sect module : jsstring) (under : bool) (path : Path)
    (i : nat) (cs : list node) (p : Path) :
  In p (query_list sect module under path i cs) ->
  exists j c, nth_error cs j = Some c /\
              In p (query sect module under (path ++ [i + j]) c).
Proof.
  revert i. induction cs as [|c cs IH]; intros i; simpl; [intros []|].
  intros H. apply in_app_or in H as [H|H].
  - exists 0, c. rewrite Nat.add_0_r. auto.
  - apply IH in H as (j & c' & Hn & Hin).
    exists (S j), c'. replace (i + S j) with (S i + j) by lia. auto.
Qed.

(** The nodes the query finds are children of [object-member-value] nodes. *)
Lemma query_below (sect module : jsstring) (n : node) :
  forall (under : bool) (path p : Path),
    In p (query sect module under path n) ->
    exists q, p = path ++ q /\ below_member_value q n = true.
Proof.
  induction n as [ty pro t epi v0 cs IH] using node_induction.
  intros under path p H. rewrite query_eq in H. cbn [children] in H.
  apply in_app_or in H as [H|H].
  - destruct (_ && _ && _); [|destruct H].
    apply member_value_paths_in in H as (j & k & c & -> & Hn & Ht).
    cbn [children] in Hn.
    exists [j; k]. split; [reflexivity|]. simpl. now rewrite Hn.
  - apply query_list_in in H as (j & c & Hn & Hin). simpl in Hin.
    rewrite Forall_forall in IH.
    destruct (IH c (nth_error_In _ _ Hn) _ _ _ Hin) as (q & -> & Hq).
    exists (j :: q). split; [now rewrite <- app_assoc|].
    destruct q as [|k q]; [discriminate|].
    change (below_member_value (j :: k :: q) (Node ty pro t epi v0 cs))
      with (match nth_error cs j with
            | Some c => below_member_value (k :: q) c
            | None => false
            end).
    now rewrite Hn.
Qed.

Lemma execute_node_set (ast : node) (sect module sect' module' txt v : jsstring)
    (p : Path) :
  In p (execute ast sect module) ->
  execute (node_set p txt v ast) sect' module' = execute ast sect' module'.
Proof.
  unfold execute. intros H.
  apply query_below in H as (q & -> & Hq). simpl. apply query_node_set. now right.
Qed.

(** ** The merge *)

Lemma State_eqb_eq (a b : State) : State_eqb a b = true <-> a = b.
Proof. destruct a, b; simpl; split; congruence. Qed.

Lemma plan_ok_cases (name v : jsstring) (e e' : spec) (b : bool) :
  plan name v e = Ok (e', b) ->
  (state e <> check /\ e' = e /\ b = false) \/
  (state e = check /\ section e' = section e /\ sOld e' = sOld e /\
   vOld e' = vOld e /\ vNew e' = v /\
   ((state e' = kept /\ b = false /\ sNew e' = v /\
     (vOld e = v \/ semver_gt (vOld e) v = Some true)) \/
    (state e' = updated /\ b = true /\
     sNew e' = js_replace (sOld e) (vOld e) v /\ sNew e' <> sOld e /\
     vOld e <> v /\ semver_gt (vOld e) v = Some false))).
Proof.
  unfold plan. intros H. destruct (state e) eqn:Hst;
    try (injection H as <- <-; left; repeat split; congruence).
  right. split; [reflexivity|].
  destruct (str_eqb_spec (vOld e) v) as [Heq|Hne].
  - injection H as <- <-. simpl. repeat split; auto.
    left. repeat split; auto.
  - destruct (semver_gt (vOld e) v) as [[|]|] eqn:Hgt; [| |discriminate].
    + injection H as <- <-. simpl. repeat split; auto.
      left. repeat split; auto.
    + cbv zeta in H.
      destruct (str_eqb_spec (js_replace (sOld e) (vOld e) v) (sOld e)) as [?|Hch];
        [discriminate|].
      injection H as <- <-. simpl. repeat split; auto.
      right. repeat split; auto.
Qed.

Lemma plan_flag (name v : jsstring) (e e' : spec) (b : bool) :
  plan name v e = Ok (e', b) ->
  b = State_eqb (state e) check && State_eqb (state e') updated.
Proof.
  intros H. apply plan_ok_cases in H
    as [(Hst & -> & ->)|(Hst & _ & _ & _ & _ & [(St & -> & _)|(St & -> & _)])].
  - destruct (state e); simpl; congruence.
  - now rewrite Hst, St.
  - now rewrite Hst, St.
Qed.

Lemma plan_state (name v : jsstring) (e e' : spec) (b : bool) :
  plan name v e = Ok (e', b) -> state e' <> check.
Proof.
  intros H. apply plan_ok_cases in H
    as [(Hst & -> & _)|(_ & _ & _ & _ & _ & [(St & _)|(St & _)])]; congruence.
Qed.

(** An entry that has been settled is left alone by a later pass. *)
Lemma settled_stable (name v name' v' : jsstring) (e e' e'' : spec) :
  settled name v e e' -> settled name' v' e' e'' -> e'' = e'.
Proof.
  intros [b H] [b' H']. apply plan_state in H.
  rewrite (plan_not_check name' v' e' H) in H'. congruence.
Qed.

Lemma settled_list_stable (name v name' v' : jsstring) (es es' es'' : list spec) :
  Forall2 (settled name v) es es' -> Forall2 (settled name' v') es' es'' -> es'' = es'.
Proof.
  intros H. revert es''. induction H as [|e e' es es' He Hes IH]; intros es'' H'.
  - now inversion H'.
  - inversion H' as [|? e'' ? es2 He' Hes' ]; subst.
    f_equal; [eapply settled_stable; eauto|auto].
Qed.

Lemma merge_entry_ok (argv : Argv) (name v : jsstring) (e e' : spec)
    (ast ast' : node) (u u' : bool) :
  merge_entry argv name v e ast u = Ok (e', ast', u') ->
  exists b,
    plan name v e = Ok (e', b) /\ u' = u || b /\
    ((b = false /\ ast' = ast) \/
     (b = true /\ nop argv = true /\ ast' = ast) \/
     (b = true /\ nop argv = false /\
      exists p, execute ast (section e') name = [p] /\
                ast' = node_set p (JSON_stringify (sNew e')) (sNew e') ast)).
Proof.
  unfold merge_entry. destruct (plan name v e) as [[e1 b]|] eqn:P; [|discriminate].
  simpl. destruct b.
  - unfold patch_ast. destruct (nop argv) eqn:Hnop; simpl.
    + intros [= <- <- <-]. exists true. rewrite orb_true_r.
      split; [reflexivity|]. split; [reflexivity|]. right. left. auto.
    + destruct (execute ast (section e1) name) as [|p [|? ?]] eqn:Ex;
        simpl; try discriminate.
      intros [= <- <- <-]. exists true. rewrite orb_true_r.
      split; [reflexivity|]. split; [reflexivity|]. right. right. eauto 6.
  - intros [= <- <- <-]. exists false. rewrite orb_false_r. auto.
Qed.

Lemma settled_updated (name v : jsstring) (e e' : spec) :
  settled name v e e' ->
  State_eqb (state e') updated =
  State_eqb (state e) updated
  || State_eqb (state e) check && State_eqb (state e') updated.
Proof.
  intros [b H]. apply plan_ok_cases in H
    as [(Hst & -> & _)|(Hst & _ & _ & _ & _ & _)].
  - destruct (state e); simpl; congruence.
  - rewrite Hst. reflexivity.
Qed.

Lemma apply_edits_app (a b : list Edit) (ast : node) :
  apply_edits (a ++ b) ast = apply_edits b (apply_edits a ast).
Proof. unfold apply_edits. apply fold_left_app. Qed.

Lemma merge_entries_ok (argv : Argv) (name v : jsstring) (ast0 : node)
    (es : list spec) :
  forall (ast : node) (u : bool) (es' : list spec) (ast' : node) (u' : bool),
    merge_entries argv name v es ast u = Ok (es', ast', u') ->
    (forall s n, execute ast s n = execute ast0 s n) ->
    Forall2 (settled name v) es es' /\
    u' = u || newly_updated es es' /\
    any_updated es' = any_updated es || newly_updated es es' /\
    exists edits,
      ast' = apply_edits edits ast /\
      (forall s n, execute ast' s n = execute ast0 s n) /\
      (nop argv = true -> edits = []) /\
      Forall (fun ed => exists e', In e' es' /\ edit_of ast0 name e' ed) edits.
Proof.
  induction es as [|e es IH]; intros ast u es' ast' u' H Hex.
  - injection H as <- <- <-. simpl. rewrite orb_false_r.
    repeat split; auto. exists []. repeat split; auto.
  - simpl in H.
    destruct (merge_entry argv name v e ast u) as [[[e1 ast1] u1]|] eqn:E1;
      [|discriminate].
    simpl in H.
    destruct (merge_entries argv name v es ast1 u1) as [[[es2 ast2] u2]|] eqn:E2;
      [|discriminate].
    injection H as <- <- <-.
    apply merge_entry_ok in E1 as (b & P & Hu1 & Hast).
    assert (Hstep : exists ed1,
      ast1 = apply_edits ed1 ast /\
      (forall s n, execute ast1 s n = execute ast0 s n) /\
      (nop argv = true -> ed1 = []) /\
      Forall (fun ed => edit_of ast0 name e1 ed) ed1).
    { destruct Hast as [(_ & ->)|[(_ & _ & ->)|(Hb & Hnop & p & Hp & ->)]].
      - exists []. repeat split; auto.
      - exists []. repeat split; auto.
      - exists [(p, sNew e1)]. split; [reflexivity|]. split; [|split].
        + intros s n. rewrite <- Hex. apply execute_node_set with (sect := section e1)
            (module := name). rewrite Hp. now left.
        + congruence.
        + constructor; [|constructor]. subst b.
          apply plan_flag in P. symmetry in P. apply andb_true_iff in P as [_ P].
          apply State_eqb_eq in P. rewrite Hex in Hp. repeat split; auto. }
    destruct Hstep as (ed1 & -> & Hex1 & Hnop1 & Hed1).
    destruct (IH _ _ _ _ _ E2 Hex1) as (HF & Hu2 & Hany & edits & -> & Hex2 & Hnop2 & Hed2).
    assert (Hb : b = State_eqb (state e) check && State_eqb (state e1) updated)
      by exact (plan_flag _ _ _ _ _ P).
    split; [constructor; [exists b; exact P|exact HF]|].
    split; [|split].
    + simpl. rewrite Hu2, Hu1, Hb. now rewrite <- orb_assoc.
    + change (any_updated (e1 :: es2))
        with (State_eqb (state e1) updated || any_updated es2).
      change (any_updated (e :: es))
        with (State_eqb (state e) updated || any_updated es).
      change (newly_updated (e :: es) (e1 :: es2))
        with (State_eqb (state e) check && State_eqb (state e1) updated
              || newly_updated es es2).
      pose proof (settled_updated name v e e1 (ex_intro _ b P)) as Hs.
      rewrite Hany. revert Hs.
      generalize (State_eqb (state e1) updated) (State_eqb (state e) updated)
                 (State_eqb (state e) check) (any_updated es) (newly_updated es es2).
      intros [] [] [] [] []; simpl; congruence.
    + exists (ed1 ++ edits). split; [now rewrite apply_edits_app|].
      split; [exact Hex2|]. split.
      * intros Hn. now rewrite Hnop1, Hnop2.
      * apply Forall_app. split.
        -- eapply Forall_impl; [|exact Hed1]. intros ed Hed. exists e1. split; [now left|auto].
        -- eapply Forall_impl; [|exact Hed2]. intros ed (e' & Hin & Hed).
           exists e'. split; [now right|auto].
Qed.

Lemma lookup_In {A : Type} (k : jsstring) (m : list (jsstring * A)) (a : A) :
  lookup k m = Some a -> In (k, a) m.
Proof.
  induction m as [|[k' a'] m IH]; simpl; [discriminate|].
  destruct (str_eqb_spec k' k) as [->|_]; [intros [= ->]; now left|auto].
Qed.

Lemma manifest_update_keys (m : Manifest) (name : jsstring) (es : list spec) :
  map fst (manifest_update m name es) = map fst m.
Proof.
  induction m as [|[k l] m IH]; simpl; [reflexivity|].
  destruct (str_eqb k name); simpl; [reflexivity|now rewrite IH].
Qed.

Lemma manifest_update_has_updated (m : Manifest) (name : jsstring)
    (es es1 : list spec) (b : bool) :
  lookup name m = Some es ->
  any_updated es1 = any_updated es || b ->
  has_updated (manifest_update m name es1) = has_updated m || b.
Proof.
  intros Hl Hb. induction m as [|[k l] m IH]; [discriminate|].
  cbn [lookup manifest_update] in *.
  destruct (str_eqb k name).
  - injection Hl as ->.
    change (has_updated ((k, es1) :: m)) with (any_updated es1 || has_updated m).
    change (has_updated ((k, es) :: m)) with (any_updated es || has_updated m).
    rewrite Hb. generalize (any_updated es) (has_updated m).
    intros [] []; destruct b; reflexivity.
  - change (has_updated ((k, l) :: manifest_update m name es1))
      with (any_updated l || has_updated (manifest_update m name es1)).
    change (has_updated ((k, l) :: m)) with (any_updated l || has_updated m).
    rewrite (IH Hl). now rewrite orb_assoc.
Qed.

Lemma manifest_update_rel (m : Manifest) (name : jsstring) (es es1 : list spec) :
  NoDup (map fst m) -> lookup name m = Some es ->
  Forall2 (fun x y => fst y = fst x /\
                      if str_eqb (fst x) name then snd x = es /\ snd y = es1
                      else snd y = snd x)
          m (manifest_update m name es1).
Proof.
  induction m as [|[k l] m IH]; simpl; intros Hnd Hl; [constructor|].
  inversion Hnd as [|? ? Hnin Hnd']; subst.
  destruct (str_eqb_spec k name) as [->|Hk].
  - injection Hl as ->. constructor.
    + simpl. now rewrite str_eqb_refl.
    + clear IH Hnd Hnd'. induction m as [|[k' l'] m IHm]; constructor.
      * simpl. destruct (str_eqb_spec k' name) as [->|_]; [|auto].
        exfalso. apply Hnin. now left.
      * apply IHm. intros H. apply Hnin. now right.
  - constructor; [|auto]. simpl.
    destruct (str_eqb_spec k name); [contradiction|auto].
Qed.

Lemma settled_keeps (name v : jsstring) (es es' : list spec) (e : spec) :
  Forall2 (settled name v) es es' -> In e es -> state e <> check -> In e es'.
Proof.
  induction 1 as [|x y es es' [b Hxy] _ IH]; simpl; [auto|].
  intros [->|Hin] Hst; [|auto].
  rewrite (plan_not_check name v e Hst) in Hxy. injection Hxy as <- _. now left.
Qed.

Lemma merged_keeps (argv : Argv) (results : list (jsstring * PackageInfo))
    (m m' : Manifest) (name : jsstring) (es : list spec) :
  merged argv results m m' -> In (name, es) m ->
  exists es', In (name, es') m' /\
              forall e, In e es -> state e <> check -> In e es'.
Proof.
  induction 1 as [|[k a] [k' a'] m m' [Hk Hm] _ IH]; simpl; [intros []|].
  simpl in Hk, Hm. subst k'. intros [[= -> ->]|Hin].
  - exists a'. split; [now left|].
    destruct (lookup name results) as [data|].
    + destruct Hm as (v & _ & HF). intros e He Hst. eapply settled_keeps; eauto.
    + now subst a'.
  - destruct (IH Hin) as (es' & Hin' & H'). exists es'. auto.
Qed.

(** What a merge that ends well has done: the entries of every name looked
    up are settled for the version resolved for it, the flag [updates] tells
    whether an entry is updated, and the tree has been set at the nodes of
    the updated entries. *)
Lemma merge_ok (argv : Argv) (ast0 : node)
    (results : list (jsstring * PackageInfo)) :
  forall (m : Manifest) (ast : node) (u : bool)
         (m' : Manifest) (ast' : node) (u' : bool),
    merge argv results m ast u = Ok (m', ast', u') ->
    NoDup (map fst m) ->
    (forall s n, execute ast s n = execute ast0 s n) ->
    u = has_updated m ->
    merged argv results m m' /\
    u' = has_updated m' /\
    exists edits,
      ast' = apply_edits edits ast /\
      (nop argv = true -> edits = []) /\
      Forall (fun ed => exists name es' e',
                In (name, es') m' /\ In e' es' /\ edit_of ast0 name e' ed) edits.
Proof.
  induction results as [|[name data] rest IH]; intros m ast u m' ast' u' H Hnd Hex Hu.
  - injection H as <- <- <-. split; [|split; [exact Hu|]].
    + apply Forall2_refl. intros [k a]. split; reflexivity.
    + exists []. repeat split; auto.
  - simpl in H. destruct (resolve argv name data) as [v|] eqn:Hv; [|discriminate].
    simpl in H. destruct (lookup name m) as [es|] eqn:Hl; [|discriminate].
    destruct (merge_entries argv name v es ast u) as [[[es1 ast1] u1]|] eqn:E1;
      [|discriminate].
    simpl in H.
    destruct (merge_entries_ok argv name v ast0 es _ _ _ _ _ E1 Hex)
      as (HF & Hu1 & Hany & ed1 & -> & Hex1 & Hnop1 & Hed1).
    assert (Hnd1 : NoDup (map fst (manifest_update m name es1)))
      by now rewrite manifest_update_keys.
    assert (Hu1' : u1 = has_updated (manifest_update m name es1)).
    { rewrite (manifest_update_has_updated m name es es1 _ Hl Hany). now rewrite <- Hu. }
    destruct (IH _ _ _ _ _ _ H Hnd1 Hex1 Hu1') as (HM & Hu' & edits & -> & Hnop & Hed).
    split; [|split; [exact Hu'|]].
    + eapply Forall2_trans; [|apply (manifest_update_rel m name es es1 Hnd Hl)|exact HM].
      intros [k a] [k1 a1] [k2 a2] [Hk1 H1] [Hk2 H2]. simpl in *. subst k1 k2.
      split; [reflexivity|]. simpl.
      rewrite (str_eqb_sym name k).
      destruct (str_eqb_spec k name) as [->|Hk].
      * destruct H1 as [-> ->]. exists v. split; [exact Hv|].
        destruct (lookup name rest) as [data2|].
        -- destruct H2 as (v2 & _ & HF2).
           now rewrite (settled_list_stable _ _ _ _ _ _ _ HF HF2).
        -- now subst a2.
      * now subst a1.
    + exists (ed1 ++ edits). split; [now rewrite apply_edits_app|]. split.
      * intros Hn. now rewrite Hnop1, Hnop.
      * apply Forall_app. split; [|exact Hed].
        eapply Forall_impl; [|exact Hed1]. intros ed (e' & Hin & Hof).
        assert (Hin1 : In (name, es1) (manifest_update m name es1)).
        { clear - Hl. induction m as [|[k l] m IHm]; simpl in *; [discriminate|].
          destruct (str_eqb_spec k name) as [->|_]; [now left|right; auto]. }
        destruct (merged_keeps _ _ _ _ _ _ HM Hin1) as (es' & Hin' & Hkeep).
        exists name, es', e'. split; [exact Hin'|]. split; [|exact Hof].
        apply Hkeep; [exact Hin|]. destruct Hof as [-> _]. discriminate.
Qed.

(** ** The main function *)

Lemma results_lookup (registry : Registry) (names : list jsstring) (results : list (jsstring * PackageInfo))
    (k : jsstring) :
  Forall2 (fun name r => fst r = name /\ registry (toLowerCase name) = Some (snd r))
          names results ->
  match lookup k results with
  | Some data => In k names /\ registry (toLowerCase k) = Some data
  | None => ~ In k names
  end.
Proof.
  induction 1 as [|n [n' d] names results [Hn Hd] _ IH]; simpl; [auto|].
  simpl in Hn, Hd. subst n'.
  destruct (str_eqb_spec n k) as [->|Hk]; [auto|].
  destruct (lookup k results); [tauto|]. intros [?|?]; auto.
Qed.

Lemma classified_states (patterns : list jsstring) (m : Manifest)
    (name : jsstring) (es : list spec) (e : spec) :
  classified patterns m -> In (name, es) m -> In e es ->
  state e = ignored \/ state e = skipped \/ state e = check.
Proof.
  intros Hc Hin He. destruct (Hc name es e Hin He) as (sect & s & ->).
  rewrite classify_state. destruct (selected patterns name); [|auto].
  destruct (match_specifier s); auto.
Qed.

Lemma classified_not_updated (patterns : list jsstring) (m : Manifest) :
  classified patterns m -> has_updated m = false.
Proof.
  intros Hc. unfold has_updated.
  destruct (existsb _ m) eqn:E; [|reflexivity].
  apply existsb_exists in E as ([k es] & Hin & E).
  apply existsb_exists in E as (e & He & E). apply State_eqb_eq in E.
  destruct (classified_states _ _ _ _ _ Hc Hin He) as [H|[H|H]]; congruence.
Qed.

Lemma has_updated_iff (m : Manifest) :
  has_updated m = true <->
  exists name es e, In (name, es) m /\ In e es /\ state e = updated.
Proof.
  unfold has_updated. rewrite existsb_exists. split.
  - intros ([k es] & Hin & E). apply existsb_exists in E as (e & He & E).
    apply State_eqb_eq in E. exists k, es, e. auto.
  - intros (k & es & e & Hin & He & E). exists (k, es). split; [exact Hin|].
    apply existsb_exists. exists e. split; [exact He|]. now apply State_eqb_eq.
Qed.

Section MainProperties.

Variable JSON_parse : jsstring -> option Package.
Variable JsonAsty_parse : jsstring -> option node.
Variable registry : Registry.

Lemma awaityMapLimit_ok (names : list jsstring) (limit : nat)
    (results : list (jsstring * PackageInfo)) :
  awaityMapLimit names (lookup_one registry) limit = Ok results ->
  Forall2 (fun name r => fst r = name /\ registry (toLowerCase name) = Some (snd r))
          names results.
Proof.
  revert results. induction names as [|n names IH]; intros results; simpl.
  - intros [= <-]. constructor.
  - unfold lookup_one at 1. unfold fetchPackageInfo.
    destruct (registry (toLowerCase n)) as [data|] eqn:E; [|discriminate]. simpl.
    destruct (awaityMapLimit names (lookup_one registry) limit) as [rs|]; [|discriminate]. simpl.
    intros [= <-]. constructor; [auto|]. now apply IH.
Qed.

Lemma main_ok (argv : Argv) (disk : option jsstring) (r : Run) :
  main JSON_parse JsonAsty_parse registry argv disk = Ok r ->
  exists pkgData pkg ast results,
    disk = Some pkgData /\ JSON_parse pkgData = Some pkg /\
    JsonAsty_parse pkgData = Some ast /\
    awaityMapLimit (checked (inventory (positional argv) pkg)) (lookup_one registry)
                   (concurrency argv) = Ok results /\
    merge argv results (inventory (positional argv) pkg) ast false
    = Ok (run_manifest r, run_ast r, run_updates r) /\
    run_report r = report argv (run_manifest r) (run_updates r) /\
    run_written r = (if run_updates r && negb (nop argv)
                     then Some (unparse (run_ast r)) else None).
Proof.
  unfold main. destruct disk as [pkgData|]; [|discriminate].
  destruct (JSON_parse pkgData) as [pkg|] eqn:Epkg; [|discriminate].
  destruct (JsonAsty_parse pkgData) as [ast|] eqn:East; [|discriminate].
  simpl.
  destruct (awaityMapLimit _ (lookup_one registry) _) as [results|] eqn:Eres; [|discriminate].
  simpl.
  destruct (merge argv results _ ast false) as [[[m' ast'] u']|] eqn:Em;
    [|discriminate].
  simpl. intros [= <-]. exists pkgData, pkg, ast, results. simpl. auto 10.
Qed.

(** What a run that ends well has done. *)
Lemma main_merged (argv : Argv) (disk : option jsstring) (r : Run) :
  main JSON_parse JsonAsty_parse registry argv disk = Ok r ->
  exists pkgData pkg ast results edits,
    disk = Some pkgData /\ JSON_parse pkgData = Some pkg /\
    JsonAsty_parse pkgData = Some ast /\
    Forall2 (fun name r => fst r = name /\ registry (toLowerCase name) = Some (snd r))
            (checked (inventory (positional argv) pkg)) results /\
    merged argv results (inventory (positional argv) pkg) (run_manifest r) /\
    run_updates r = has_updated (run_manifest r) /\
    run_ast r = apply_edits edits ast /\
    (nop argv = true -> edits = []) /\
    Forall (fun ed => exists name es' e',
              In (name, es') (run_manifest r) /\ In e' es' /\
              edit_of ast name e' ed) edits.
Proof.
  intros H. apply main_ok in H
    as (pkgData & pkg & ast & results & Hd & Hp & Ha & Hres & Hm & _ & _).
  apply awaityMapLimit_ok in Hres.
  apply (merge_ok argv ast) in Hm as (HM & Hu & edits & He & Hn & Hed).
  - exists pkgData, pkg, ast, results, edits. auto 10.
  - apply inventory_NoDup.
  - reflexivity.
  - symmetry. apply classified_not_updated with (patterns := positional argv).
    apply inventory_classified.
Qed.

End MainProperties.

(** ** Properties of a run *)

Lemma Forall2_In_r {A B : Type} (R : A -> B -> Prop) (l : list A) (l' : list B) (y : B) :
  Forall2 R l l' -> In y l' -> exists x, In x l /\ R x y.
Proof.
  induction 1 as [|a b l l' Hab _ IH]; simpl; [intros []|].
  intros [<-|Hin]; [eauto|]. destruct (IH Hin) as (x & Hx & Hr). eauto.
Qed.

Lemma Forall2_In_l {A B : Type} (R : A -> B -> Prop) (l : list A) (l' : list B) (x : A) :
  Forall2 R l l' -> In x l -> exists y, In y l' /\ R x y.
Proof.
  induction 1 as [|a b l l' Hab _ IH]; simpl; [intros []|].
  intros [<-|Hin]; [eauto|]. destruct (IH Hin) as (y & Hy & Hr). eauto.
Qed.


Lemma NoDup_filter {A : Type} (f : A -> bool) (l : list A) :
  NoDup l -> NoDup (filter f l).
Proof.
  induction 1 as [|a l Hnin _ IH]; simpl; [constructor|].
  destruct (f a); [constructor; [|exact IH]|exact IH].
  intros H. apply filter_In in H. tauto.
Qed.


(** The entries of a name the merge has decided all hold the version
    resolved for the name. *)
Lemma merged_decided (argv : Argv) (results : list (jsstring * PackageInfo))
    (m m' : Manifest) (patterns : list jsstring) (name : jsstring)
    (es' : list spec) :
  classified patterns m -> merged argv results m m' -> In (name, es') m' ->
  exists es,
    In (name, es) m /\ List.length es' = List.length es /\
    ((lookup name results = None /\ es' = es /\ forall e, In e es' -> ~ decided e) \/
     (exists data v,
        lookup name results = Some data /\ resolve argv name data = Ok v /\
        Forall2 (settled name v) es es' /\
        (forall e, In e es' -> decided e -> vNew e = v) /\
        (forall e, In e es' -> state e <> check))).
Proof.
  intros Hc HM Hin.
  destruct (Forall2_In_r _ _ _ _ HM Hin) as ([k es] & Hin0 & Hk & Hm).
  simpl in Hk, Hm. subst k. exists es. split; [exact Hin0|].
  destruct (lookup name results) as [data|].
  - destruct Hm as (v & Hv & HF). split; [symmetry; eapply Forall2_length; eauto|].
    right. exists data, v. repeat split; auto.
    + intros e' He' Hd.
      destruct (Forall2_In_r _ _ _ _ HF He') as (e & He & b & P).
      apply plan_ok_cases in P as [(Hst & -> & _)|(_ & _ & _ & _ & Hv' & _)]; [|exact Hv'].
      destruct (classified_states _ _ _ _ _ Hc Hin0 He) as [H|[H|H]];
        destruct Hd; congruence.
    + intros e' He'.
      destruct (Forall2_In_r _ _ _ _ HF He') as (e & He & b & P).
      eapply plan_state; eauto.
  - subst es'. split; [reflexivity|]. left. repeat split; auto.
    intros e He Hd.
    destruct (classified_states _ _ _ _ _ Hc Hin0 He) as [H|[H|H]];
      destruct Hd; congruence.
Qed.

Lemma merge_entries_nop (argv : Argv) (name v : jsstring) (es : list spec) :
  forall (ast : node) (u : bool) (es' : list spec) (ast' : node) (u' : bool)
         (ast0 : node),
    merge_entries argv name v es ast u = Ok (es', ast', u') ->
    merge_entries (set_nop true argv) name v es ast0 u = Ok (es', ast0, u').
Proof.
  induction es as [|e es IH]; intros ast u es' ast' u' ast0 H; simpl in *.
  - now injection H as <- <- <-.
  - destruct (merge_entry argv name v e ast u) as [[[e1 ast1] u1]|] eqn:E1;
      [|discriminate].
    simpl in H.
    destruct (merge_entries argv name v es ast1 u1) as [[[es2 ast2] u2]|] eqn:E2;
      [|discriminate].
    injection H as <- <- <-.
    assert (E1' : merge_entry (set_nop true argv) name v e ast0 u = Ok (e1, ast0, u1)).
    { unfold merge_entry in *. destruct (plan name v e) as [[e2 b]|]; [|discriminate].
      simpl in *. destruct b; [|now injection E1 as <- _ <-].
      destruct (patch_ast argv name e2 ast); [|discriminate].
      simpl in E1. now injection E1 as <- _ <-. }
    rewrite E1'. simpl. now rewrite (IH _ _ _ _ _ ast0 E2).
Qed.

Lemma merge_nop (argv : Argv) (results : list (jsstring * PackageInfo)) :
  forall (m : Manifest) (ast : node) (u : bool)
         (m' : Manifest) (ast' : node) (u' : bool) (ast0 : node),
    merge argv results m ast u = Ok (m', ast', u') ->
    merge (set_nop true argv) results m ast0 u = Ok (m', ast0, u').
Proof.
  induction results as [|[name data] rest IH]; intros m ast u m' ast' u' ast0 H;
    simpl in *.
  - now injection H as <- <- <-.
  - change (resolve (set_nop true argv) name data) with (resolve argv name data).
    destruct (resolve argv name data) as [v|]; [|discriminate]. simpl in *.
    destruct (lookup name m) as [es|]; [|discriminate].
    destruct (merge_entries argv name v es ast u) as [[[es1 ast1] u1]|] eqn:E1;
      [|discriminate].
    simpl in H. rewrite (merge_entries_nop _ _ _ _ _ _ _ _ _ ast0 E1). simpl.
    eapply IH; eauto.
Qed.

Section Claims.

Variable JSON_parse : jsstring -> option Package.
Variable JsonAsty_parse : jsstring -> option node.
Variable registry : Registry.


(** C4, amended: the file is written exactly when an entry has been
    updated, [--nop] is not set and nothing has been thrown; a run that
    throws leaves the file as it was and ends with exit code 1; with
    [--nop] the file stays as it was, and whenever the run without
    [--nop] ends well the run with it prints the same report. *)
Theorem written_only_after_updates (argv : Argv) (disk : option jsstring) :
  (forall r,
     main JSON_parse JsonAsty_parse registry argv disk = Ok r ->
     (run_updates r = true <->
      exists name es e,
        In (name, es) (run_manifest r) /\ In e es /\ state e = updated) /\
     run_written r = (if run_updates r && negb (nop argv)
                      then Some (unparse (run_ast r)) else None) /\
     run JSON_parse JsonAsty_parse registry argv disk
     = mkOutcome (if run_updates r && negb (nop argv)
                  then Some (unparse (run_ast r)) else disk)
                 (run_report r) 0) /\
  (forall e,
     main JSON_parse JsonAsty_parse registry argv disk = Throw e ->
     run JSON_parse JsonAsty_parse registry argv disk = mkOutcome disk [] 1) /\
  (nop argv = true ->
   disk_after (run JSON_parse JsonAsty_parse registry argv disk) = disk) /\
  (forall r,
     main JSON_parse JsonAsty_parse registry (set_nop false argv) disk = Ok r ->
     exists r',
       main JSON_parse JsonAsty_parse registry (set_nop true argv) disk = Ok r' /\
       run_manifest r' = run_manifest r /\ run_updates r' = run_updates r /\
       run_report r' = run_report r /\ run_written r' = None /\
       stdout (run JSON_parse JsonAsty_parse registry (set_nop true argv) disk)
       = stdout (run JSON_parse JsonAsty_parse registry (set_nop false argv) disk) /\
       disk_after (run JSON_parse JsonAsty_parse registry (set_nop true argv) disk)
       = disk).
Proof.
  split; [|split; [|split]].
  - intros r H. pose proof H as H'.
    apply main_ok in H' as (pkgData & pkg & ast & results & _ & _ & _ & _ & _ & _ & Hw).
    destruct (main_merged _ _ _ _ _ _ H) as (_ & _ & _ & _ & _ & _ & _ & _ & _ & _ & Hu & _).
    split; [rewrite Hu; apply has_updated_iff|]. split; [exact Hw|].
    unfold run. rewrite H, Hw. now destruct (run_updates r && negb (nop argv)).
  - intros e H. unfold run. now rewrite H.
  - intros Hnop. unfold run.
    destruct (main JSON_parse JsonAsty_parse registry argv disk) as [r|] eqn:H;
      [|reflexivity].
    apply main_ok in H as (_ & _ & _ & _ & _ & _ & _ & _ & _ & _ & Hw).
    rewrite Hw, Hnop, andb_false_r. reflexivity.
  - intros r H. pose proof H as H'.
    apply main_ok in H'
      as (pkgData & pkg & ast & results & Hd & Hp & Ha & Hres & Hm & Hrep & Hw).
    exists (mkRun (run_manifest r) (run_updates r) (run_report r) ast None).
    assert (Hmain : main JSON_parse JsonAsty_parse registry (set_nop true argv) disk
                    = Ok (mkRun (run_manifest r) (run_updates r) (run_report r) ast None)).
    { unfold main. rewrite Hd, Hp, Ha. simpl in *. rewrite Hres. simpl.
      apply merge_nop with (ast0 := ast) in Hm.
      change (set_nop true (set_nop false argv)) with (set_nop true argv) in Hm.
      rewrite Hm. simpl. rewrite andb_false_r. now rewrite Hrep. }
    split; [exact Hmain|]. repeat split.
    + unfold run. rewrite Hmain, H. reflexivity.
    + unfold run. rewrite Hmain. reflexivity.
Qed.

(** C1: when the file is written, what is written is the text of the
    tree after the edits; the tree holds the same pieces of text as the
    tree parsed from the original file, in the same order, but for the
    [text] of the nodes that were set; and each of these is the one
    value node the query finds, in the original tree, for the section
    and the name of an updated entry, set to that entry's new
    specifier. *)
Theorem format_preserved (argv : Argv) (pkgData : jsstring) (ast : node)
    (r : Run) (out : jsstring) :
  main JSON_parse JsonAsty_parse registry argv (Some pkgData) = Ok r ->
  JsonAsty_parse pkgData = Some ast ->
  unparse ast = pkgData ->
  run_written r = Some out ->
  exists edits,
    run_ast r = apply_edits edits ast /\
    pkgData = List.concat (map snd (tokens [] ast)) /\
    out = List.concat (map snd (tokens [] (run_ast r))) /\
    disk_after (run JSON_parse JsonAsty_parse registry argv (Some pkgData)) = Some out /\
    Forall2 (changed_only (map fst edits)) (tokens [] ast) (tokens [] (run_ast r)) /\
    Forall (fun ed => exists name es e,
              In (name, es) (run_manifest r) /\ In e es /\
              state e = updated /\ snd ed = sNew e /\
              execute ast (section e) name = [fst ed]) edits.
Proof.
  intros H Ha Hround Hw.
  destruct (main_merged _ _ _ _ _ _ H)
    as (pkgData' & pkg & ast' & results & edits & Hd & Hp & Ha' & _ & _ & _ & He & _ & Hed).
  injection Hd as <-. rewrite Ha in Ha'. injection Ha' as <-.
  pose proof H as H'.
  apply main_ok in H' as (_ & _ & _ & _ & _ & _ & _ & _ & _ & _ & Hw').
  exists edits. split; [exact He|]. split; [|split; [|split; [|split]]].
  - rewrite <- Hround. apply unparse_tokens.
  - rewrite Hw in Hw'. destruct (run_updates r && negb (nop argv)); [|discriminate].
    injection Hw' as ->. apply unparse_tokens.
  - unfold run. now rewrite H, Hw.
  - rewrite He. apply tokens_apply_edits.
  - exact Hed.
Qed.

End Claims.

(** ** The substitution error *)

Lemma plan_never_update_failed (name v : jsstring) (e : spec) :
  pinned_ok e -> forall n a b c, plan name v e <> Throw (UpdateFailed n a b c).
Proof.
  intros Hp n a b c H.
  destruct (State_eqb (state e) check) eqn:Hst.
  - apply State_eqb_eq in Hst. specialize (Hp Hst).
    destruct (str_eqb_spec (vOld e) v) as [Heq|Hne].
    + unfold plan in H. rewrite Hst in H.
      destruct (str_eqb_spec (vOld e) v); [discriminate|contradiction].
    + destruct (semver_gt (vOld e) v) as [[|]|] eqn:Hgt.
      * unfold plan in H. rewrite Hst, Hgt in H.
        destruct (str_eqb (vOld e) v); discriminate.
      * destruct (plan_updated name v e Hst Hp Hne Hgt) as (? & ? & _ & _ & _ & _ & P).
        congruence.
      * unfold plan in H. rewrite Hst, Hgt in H.
        destruct (str_eqb (vOld e) v); discriminate.
  - rewrite plan_not_check in H; [discriminate|].
    intros E. rewrite E in Hst. discriminate.
Qed.

Lemma merge_entries_never_update_failed (argv : Argv) (name v : jsstring)
    (es : list spec) :
  Forall pinned_ok es ->
  forall ast u n a b c,
    merge_entries argv name v es ast u <> Throw (UpdateFailed n a b c).
Proof.
  induction 1 as [|e es He _ IH]; intros ast u n a b c; simpl; [discriminate|].
  unfold merge_entry at 1.
  pose proof (plan_never_update_failed name v e He n a b c) as Hplan.
  destruct (plan name v e) as [[e1 b1]|err]; simpl; [|congruence].
  destruct b1; simpl.
  - unfold patch_ast. destruct (nop argv); simpl.
    + specialize (IH ast true n a b c).
      destruct (merge_entries argv name v es ast true) as [[[? ?] ?]|]; simpl;
        congruence.
    + destruct (execute ast (section e1) name) as [|p [|? ?]]; simpl; try discriminate.
      match goal with |- context [merge_entries argv name v es ?t true] =>
        specialize (IH t true n a b c);
        destruct (merge_entries argv name v es t true) as [[[? ?] ?]|]
      end; simpl; congruence.
  - specialize (IH ast u n a b c).
    destruct (merge_entries argv name v es ast u) as [[[? ?] ?]|]; simpl; congruence.
Qed.

Lemma settled_pinned_ok (name v : jsstring) (es es' : list spec) :
  Forall2 (settled name v) es es' -> Forall pinned_ok es'.
Proof.
  induction 1 as [|e e' es es' [b P] _ IH]; constructor; [|exact IH].
  intros Hst. apply plan_state in P. contradiction.
Qed.

Lemma manifest_update_pinned (m : Manifest) (name : jsstring) (es : list spec) :
  Forall (fun x => Forall pinned_ok (snd x)) m -> Forall pinned_ok es ->
  Forall (fun x => Forall pinned_ok (snd x)) (manifest_update m name es).
Proof.
  induction 1 as [|[k l] m Hl Hm IH]; intros Hes; simpl; [constructor|].
  destruct (str_eqb k name); constructor; auto.
Qed.

Lemma lookup_Forall {A : Type} (P : A -> Prop) (k : jsstring)
    (m : list (jsstring * A)) (a : A) :
  Forall (fun x => P (snd x)) m -> lookup k m = Some a -> P a.
Proof.
  intros H Hl. apply lookup_In in Hl. rewrite Forall_forall in H.
  exact (H _ Hl).
Qed.

Lemma merge_never_update_failed (argv : Argv)
    (results : list (jsstring * PackageInfo)) :
  forall m ast u n a b c,
    Forall (fun x => Forall pinned_ok (snd x)) m ->
    merge argv results m ast u <> Throw (UpdateFailed n a b c).
Proof.
  induction results as [|[name data] rest IH]; intros m ast u n a b c Hm; simpl;
    [discriminate|].
  assert (Hres : forall e, resolve argv name data = Throw e ->
                           e <> UpdateFailed n a b c).
  { unfold resolve. intros e.
    destruct (greatest argv).
    - destruct (versions data) as [|v [|? ?]]; try discriminate;
        [intros [= <-]; discriminate|].
      destruct (forallb _ _); [discriminate|]. intros [= <-]; discriminate.
    - destruct (latest data); [discriminate|]. intros [= <-]; discriminate. }
  destruct (resolve argv name data) as [v|e]; simpl;
    [|intros [= E]; exact (Hres e eq_refl E)].
  destruct (lookup name m) as [es|] eqn:Hl; [|discriminate].
  pose proof (lookup_Forall (Forall pinned_ok) _ _ _ Hm Hl) as Hes.
  pose proof (merge_entries_never_update_failed argv name v es Hes ast u n a b c) as Hne.
  destruct (merge_entries argv name v es ast u) as [[[es1 ast1] u1]|] eqn:E1;
    simpl; [|congruence].
  apply IH. apply manifest_update_pinned; [exact Hm|].
  destruct (merge_entries_ok argv name v ast es _ _ _ _ _ E1 (fun _ _ => eq_refl))
    as (HF & _).
  eapply settled_pinned_ok; eauto.
Qed.

Lemma inventory_pinned (patterns : list jsstring) (pkg : Package) :
  Forall (fun x => Forall pinned_ok (snd x)) (inventory patterns pkg).
Proof.
  apply Forall_forall. intros [k es] Hin. apply Forall_forall. intros e He.
  destruct (inventory_classified patterns pkg k es e Hin He) as (sect & s & ->).
  intros Hst. now apply classify_check_invariant.
Qed.

Lemma awaityMapLimit_errors (registry : Registry) (names : list jsstring) (limit : nat)
    (e : error) :
  awaityMapLimit names (lookup_one registry) limit = Throw e ->
  exists name, e = RegistryError name.
Proof.
  induction names as [|n names IH]; simpl; [discriminate|].
  unfold lookup_one at 1. unfold fetchPackageInfo.
  destruct (registry (toLowerCase n)); simpl; [|intros [= <-]; eauto].
  destruct (awaityMapLimit names _ limit); simpl; [discriminate|].
  intros [= <-]. now apply IH.
Qed.

(** C10: for an entry that [mixin] has put in state [check] and whose
    resolved version is neither equal to nor below the pinned one, the
    pinned version is found in the original specifier and replacing it
    gives a different string; so neither the decision for an entry nor a
    whole run ever throws the "failed to update" error. *)
Theorem substitution_never_fails :
  (forall patterns sect name s vNew0,
     let e := classify patterns sect name s in
     state e = check -> vOld e <> vNew0 -> semver_gt (vOld e) vNew0 = Some false ->
     exists pre post,
       find_first (vOld e) (sOld e) = Some (pre, post) /\
       sOld e = pre ++ vOld e ++ post /\
       js_replace (sOld e) (vOld e) vNew0 = pre ++ vNew0 ++ post /\
       js_replace (sOld e) (vOld e) vNew0 <> sOld e) /\
  (forall patterns sect name s name' vNew0 n a b c,
     plan name' vNew0 (classify patterns sect name s) <> Throw (UpdateFailed n a b c)) /\
  (forall JSON_parse JsonAsty_parse registry argv disk n a b c,
     main JSON_parse JsonAsty_parse registry argv disk <> Throw (UpdateFailed n a b c)).
Proof.
  split; [|split].
  - intros patterns sect name s vNew0 e Hst Hne Hgt.
    pose proof (classify_check_invariant patterns sect name s Hst) as Hinv.
    destruct (plan_updated name vNew0 e Hst Hinv Hne Hgt)
      as (pre & post & E & F & R & Hch & _).
    exists pre, post. auto.
  - intros patterns sect name s name' vNew0 n a b c.
    apply plan_never_update_failed. intros Hst. now apply classify_check_invariant.
  - intros JSON_parse JsonAsty_parse registry argv disk n a b c.
    unfold main. destruct disk as [pkgData|]; [|discriminate].
    unfold parsed.
    destruct (JSON_parse pkgData) as [pkg|]; [|discriminate].
    destruct (JsonAsty_parse pkgData) as [ast|]; [|discriminate].
    simpl.
    destruct (awaityMapLimit _ _ _) as [results|e] eqn:Eres; simpl.
    + pose proof (merge_never_update_failed argv results
                    (inventory (positional argv) pkg) ast false n a b c
                    (inventory_pinned _ _)) as Hm.
      destruct (merge argv results _ ast false) as [[[m' ast'] u']|]; simpl;
        [discriminate|congruence].
    + apply awaityMapLimit_errors in Eres as [nm ->]. discriminate.
Qed.

(** ** A second run *)

Lemma pinned_form_replace (s v w : jsstring) :
  pinned_form s v -> version_token w ->
  exists pre post,
    s = pre ++ v ++ post /\ find_first v s = Some (pre, post) /\
    pinned_form (pre ++ w ++ post) w.
Proof.
  intros Hs Hw. pose proof Hs as Hs'.
  destruct Hs as (ws1 & op & ws3 & E & Hws1 & Hop & Hv & Hws3).
  destruct (pinned_form_find_first s v Hs') as (pre & post & E' & F).
  assert (Hpre : pre = ws1 ++ op /\ post = ws3).
  { destruct Hv as (d & t & -> & Hd & Ht).
    assert (F' : find_first (d :: t) s = Some (ws1 ++ op, ws3)).
    { rewrite E, app_assoc. apply find_first_at.
      intros c Hc ->. apply in_app_or in Hc as [Hc|Hc].
      - rewrite forallb_forall in Hws1. apply Hws1, space_not_digit in Hc. congruence.
      - destruct Hop as [->|(o & ws & -> & Ho & Hws)]; [destruct Hc|].
        destruct Hc as [->|Hc].
        + apply operator_not_digit in Ho. congruence.
        + rewrite forallb_forall in Hws. apply Hws, space_not_digit in Hc. congruence. }
    rewrite F in F'. now injection F' as -> ->. }
  destruct Hpre as [-> ->].
  exists (ws1 ++ op), ws3. split; [exact E'|]. split; [exact F|].
  exists ws1, op, ws3. rewrite <- app_assoc. repeat split; auto.
Qed.

Section SecondRun.

Variable patterns : list jsstring.
Variable resolved : jsstring -> option jsstring.

Hypothesis resolved_clean : forall name v, resolved name = Some v -> clean_version v.

Lemma classify_not_updated (sect module s : jsstring) :
  state (classify patterns sect module s) <> updated.
Proof.
  rewrite classify_state. destruct (selected patterns module); [|discriminate].
  destruct (match_specifier s); discriminate.
Qed.

Lemma follows_self (module : jsstring) (e : spec) :
  state e <> updated ->
  (forall v e' b, state e = check -> resolved module = Some v ->
                  plan module v e = Ok (e', b) -> b = false) ->
  follows resolved module e e.
Proof.
  intros Hnu Hb. split; [exact Hnu|]. split; [tauto|].
  intros Hst v e' b Hv P. pose proof (Hb v e' b Hst Hv P) as ->.
  exists e'. split; [exact P|].
  apply plan_ok_cases in P
    as [(Hn & _)|(_ & _ & _ & _ & _ & [(St & _)|(_ & Hf & _)])];
    [contradiction|exact St|discriminate].
Qed.

Lemma follows_reclassify (sect module s : jsstring) :
  follows resolved module (classify patterns sect module s)
          (reclassify patterns resolved module (classify patterns sect module s)).
Proof.
  set (e := classify patterns sect module s).
  destruct (classify_fields patterns sect module s) as (Hsec & HsOld & _).
  fold e in Hsec, HsOld.
  unfold reclassify. rewrite Hsec, HsOld. unfold respecify. fold e.
  destruct (resolved module) as [v|] eqn:Hv.
  - destruct (plan module v e) as [[e' [|]]|err] eqn:P.
    + pose proof P as P'.
      apply plan_ok_cases in P'
        as [(_ & _ & Hf)|(Hst & _ & _ & _ & _ & [(_ & Hf & _)|(St & _ & HsNew & _ & Hne & Hgt)])];
        try discriminate.
      pose proof (classify_check_invariant patterns sect module s Hst) as Hinv.
      fold e in Hinv. apply match_specifier_pinned_form in Hinv.
      destruct (pinned_form_replace _ _ v Hinv (resolved_clean _ _ Hv))
        as (pre & post & E & F & Hpf).
      assert (HsNew' : sNew e' = pre ++ v ++ post).
      { rewrite HsNew. unfold js_replace. rewrite F.
        rewrite expand_replacement_plain; [reflexivity|].
        apply version_no_dollar. now apply semver_gt_valid in Hgt. }
      apply match_specifier_pinned_form in Hpf. rewrite <- HsNew' in Hpf.
      assert (Hsel : selected patterns module = true).
      { subst e. rewrite classify_state in Hst.
        destruct (selected patterns module); [reflexivity|discriminate]. }
      assert (Hf : classify patterns sect module (sNew e')
                   = mkSpec sect (sNew e') v (sNew e') v check).
      { unfold classify. now rewrite Hsel, Hpf. }
      rewrite Hf.
      split; [discriminate|]. split; [tauto|].
      intros _ v0 e0 b0 Hv0 _. rewrite Hv in Hv0. injection Hv0 as <-.
      exists (mkSpec sect (sNew e') v v v kept). split; [|reflexivity].
      unfold plan. cbn [state vOld section sOld]. now rewrite str_eqb_refl.
    + apply follows_self; [apply classify_not_updated|].
      intros v0 e0 b0 _ Hv0 P0. rewrite Hv in Hv0. injection Hv0 as <-.
      change (plan module v e = Ok (e0, b0)) in P0. rewrite P in P0. congruence.
    + apply follows_self; [apply classify_not_updated|].
      intros v0 e0 b0 _ Hv0 P0. rewrite Hv in Hv0. injection Hv0 as <-.
      change (plan module v e = Ok (e0, b0)) in P0. rewrite P in P0. discriminate.
  - apply follows_self; [apply classify_not_updated|].
    intros v0 e0 b0 _ Hv0. rewrite Hv in Hv0. discriminate.
Qed.

Lemma manifest_push_reclassify (m : Manifest) (k : jsstring) (e : spec) :
  reclassify_all patterns resolved (manifest_push m k e)
  = manifest_push (reclassify_all patterns resolved m) k
                  (reclassify patterns resolved k e).
Proof.
  induction m as [|[k' es] m IH]; simpl; [reflexivity|].
  destruct (str_eqb_spec k' k) as [->|Hk]; simpl.
  - now rewrite map_app.
  - now rewrite IH.
Qed.

Lemma lookup_rewritten (sect : jsstring) (pkg : Package) :
  existsb (str_eqb sect) sections = true ->
  lookup sect (rewritten_package patterns resolved pkg)
  = option_map (map (fun '(module, s) =>
                       (module, respecify patterns resolved sect module s)))
               (lookup sect pkg).
Proof.
  intros Hsect. induction pkg as [|[k deps] pkg IH]; [reflexivity|].
  cbn [rewritten_package map lookup].
  destruct (str_eqb_spec k sect) as [->|Hk]; [|exact IH].
  now rewrite Hsect.
Qed.

Lemma mixin_rewritten (pkg : Package) (sect : jsstring) (m : Manifest) :
  existsb (str_eqb sect) sections = true ->
  mixin patterns (rewritten_package patterns resolved pkg) sect
        (reclassify_all patterns resolved m)
  = reclassify_all patterns resolved (mixin patterns pkg sect m).
Proof.
  intros Hsect. unfold mixin. rewrite (lookup_rewritten sect pkg Hsect).
  destruct (lookup sect pkg) as [deps|]; simpl; [|reflexivity].
  revert m. induction deps as [|[module s] deps IH]; intros m; simpl; [reflexivity|].
  rewrite <- IH. f_equal. rewrite manifest_push_reclassify. f_equal.
  unfold reclassify.
  destruct (classify_fields patterns sect module s) as (-> & -> & _). reflexivity.
Qed.

Lemma inventory_rewritten (pkg : Package) :
  inventory patterns (rewritten_package patterns resolved pkg)
  = reclassify_all patterns resolved (inventory patterns pkg).
Proof.
  unfold inventory, sections. simpl.
  change (@nil (jsstring * list spec)) with (reclassify_all patterns resolved []) at 1.
  now rewrite !mixin_rewritten by reflexivity.
Qed.

Lemma reclassify_follows (m : Manifest) :
  classified patterns m ->
  follows_all resolved m (reclassify_all patterns resolved m).
Proof.
  induction m as [|[k es] m IH]; intros Hc; [constructor|].
  constructor.
  - split; [reflexivity|]. simpl.
    assert (Hes : forall e, In e es -> exists sect s, e = classify patterns sect k s).
    { intros e He. apply (Hc k es e); [now left|exact He]. }
    clear - Hes resolved_clean. induction es as [|e es IHes]; simpl; constructor.
    + destruct (Hes e (or_introl eq_refl)) as (sect & s & ->).
      apply follows_reclassify.
    + apply IHes. intros e' He'. apply Hes. now right.
  - apply IH. intros name es' e Hin He. apply (Hc name es' e); [now right|exact He].
Qed.

End SecondRun.

Lemma checked_follows (resolved : jsstring -> option jsstring) (m n : Manifest) :
  follows_all resolved m n -> checked n = checked m.
Proof.
  unfold checked.
  induction 1 as [|[k es] [k' fs] m n [Hk HF] _ IH]; [reflexivity|].
  simpl in Hk, HF. subst k'. cbn [filter].
  assert (Hex : existsb (fun e => State_eqb (state e) check) fs
                = existsb (fun e => State_eqb (state e) check) es).
  { clear - HF. induction HF as [|e f es fs (_ & Hiff & _) _ IHF]; simpl; [reflexivity|].
    rewrite IHF. f_equal.
    destruct (State_eqb (state e) check) eqn:E1, (State_eqb (state f) check) eqn:E2;
      try reflexivity.
    - apply State_eqb_eq in E1. apply Hiff in E1. apply State_eqb_eq in E1. congruence.
    - apply State_eqb_eq in E2. apply Hiff in E2. apply State_eqb_eq in E2. congruence. }
  rewrite Hex. destruct (existsb _ es); simpl; now rewrite IH.
Qed.

Lemma merge_entries_follow (argv : Argv) (resolved : jsstring -> option jsstring)
    (name v : jsstring) (ast2 : node) :
  resolved name = Some v ->
  forall es es1 fs,
    Forall2 (settled name v) es es1 ->
    Forall2 (follows resolved name) es fs ->
    exists fs1,
      merge_entries argv name v fs ast2 false = Ok (fs1, ast2, false) /\
      Forall2 (follows resolved name) es1 fs1.
Proof.
  intros Hv es es1 fs HS. revert fs.
  induction HS as [|e e1 es es1 [b P] _ IH]; intros fs HF; inversion HF; subst.
  - exists []. split; [reflexivity|constructor].
  - match goal with H : follows _ _ e ?f |- _ => rename f into f0; rename H into Hf end.
    match goal with H : Forall2 (follows _ _) es ?l |- _ =>
      destruct (IH l H) as (fs1 & Hm & HF1) end.
    destruct Hf as (Hnu & Hiff & Hk).
    destruct (State_eqb (state f0) check) eqn:Hst.
    + apply State_eqb_eq in Hst.
      destruct (Hk Hst v e1 b Hv P) as (f' & Pf & Hkept).
      exists (f' :: fs1). split.
      * simpl. unfold merge_entry. rewrite Pf. simpl. rewrite Hm. reflexivity.
      * constructor; [|exact HF1].
        split; [congruence|]. split.
        -- split; intros H; [apply plan_state in P|]; congruence.
        -- intros H. congruence.
    + assert (Hnf : state f0 <> check).
      { intros E. rewrite E in Hst. discriminate. }
      assert (Hne : state e <> check) by tauto.
      rewrite (plan_not_check name v e Hne) in P. injection P as <- <-.
      exists (f0 :: fs1). split.
      * simpl. unfold merge_entry. rewrite (plan_not_check name v f0 Hnf). simpl.
        rewrite Hm. reflexivity.
      * constructor; [|exact HF1]. split; [exact Hnu|]. split; [exact Hiff|exact Hk].
Qed.

Lemma lookup_follows (resolved : jsstring -> option jsstring) (m n : Manifest)
    (name : jsstring) (es : list spec) :
  follows_all resolved m n -> lookup name m = Some es ->
  exists fs, lookup name n = Some fs /\ Forall2 (follows resolved name) es fs.
Proof.
  induction 1 as [|[k a] [k' b] m n [Hk HF] _ IH]; simpl; [discriminate|].
  simpl in Hk, HF. subst k'.
  destruct (str_eqb_spec k name) as [->|_]; [|exact IH].
  intros [= <-]. eauto.
Qed.

Lemma manifest_update_follows (resolved : jsstring -> option jsstring) (m n : Manifest)
    (name : jsstring) (es1 fs1 : list spec) :
  follows_all resolved m n -> Forall2 (follows resolved name) es1 fs1 ->
  follows_all resolved (manifest_update m name es1) (manifest_update n name fs1).
Proof.
  unfold follows_all. intros H H1.
  induction H as [|[k a] [k' b] m n [Hk HF] Hmn IH]; simpl; [constructor|].
  simpl in Hk, HF. subst k'.
  destruct (str_eqb_spec k name) as [->|_]; constructor; auto.
Qed.

Lemma merge_follow (argv : Argv) (resolved : jsstring -> option jsstring)
    (ast2 : node) (results : list (jsstring * PackageInfo)) :
  (forall name data v,
     In (name, data) results -> resolve argv name data = Ok v ->
     resolved name = Some v) ->
  forall m n ast u m' ast' u',
    merge argv results m ast u = Ok (m', ast', u') ->
    follows_all resolved m n ->
    exists n',
      merge argv results n ast2 false = Ok (n', ast2, false) /\
      follows_all resolved m' n'.
Proof.
  induction results as [|[name data] rest IH]; intros Hres m n ast u m' ast' u' H HF.
  - injection H as <- <- <-. exists n. split; [reflexivity|exact HF].
  - simpl in H. simpl.
    destruct (resolve argv name data) as [v|] eqn:Hv; [|discriminate]. simpl in *.
    destruct (lookup name m) as [es|] eqn:Hl; [|discriminate].
    destruct (merge_entries argv name v es ast u) as [[[es1 ast1] u1]|] eqn:E1;
      [|discriminate].
    simpl in H.
    destruct (merge_entries_ok argv name v ast es _ _ _ _ _ E1 (fun _ _ => eq_refl))
      as (HS & _).
    destruct (lookup_follows resolved m n name es HF Hl) as (fs & Hln & HFs).
    rewrite Hln.
    destruct (merge_entries_follow argv resolved name v ast2
                (Hres name data v (or_introl eq_refl) Hv) es es1 fs HS HFs)
      as (fs1 & Hm & HF1).
    rewrite Hm. simpl.
    apply (IH (fun nm d w Hin => Hres nm d w (or_intror Hin))
              _ _ _ _ _ _ _ H).
    now apply manifest_update_follows.
Qed.

(** After a run that ends well no entry is left in state [check]. *)
Lemma main_final_states (JSON_parse : jsstring -> option Package)
    (JsonAsty_parse : jsstring -> option node) (registry : Registry)
    (argv : Argv) (disk : option jsstring) (r : Run) :
  main JSON_parse JsonAsty_parse registry argv disk = Ok r ->
  forall name es e,
    In (name, es) (run_manifest r) -> In e es ->
    state e = ignored \/ state e = skipped \/ state e = kept \/ state e = updated.
Proof.
  intros H name es' e' Hin He'.
  destruct (main_merged _ _ _ _ _ _ H)
    as (pkgData & pkg & ast & results & edits & _ & _ & _ & Hres & HM & _).
  pose proof (inventory_classified (positional argv) pkg) as Hc.
  destruct (merged_decided _ _ _ _ _ _ _ Hc HM Hin)
    as (es & Hin0 & _ & [(Hl & -> & _)|(data & v & _ & _ & HF & _ & _)]).
  - pose proof (results_lookup registry _ _ name Hres) as Hr. rewrite Hl in Hr.
    destruct (classified_states _ _ _ _ _ Hc Hin0 He') as [?|[?|Hst]]; auto.
    exfalso. apply Hr. apply checked_iff. eauto.
  - destruct (Forall2_In_r _ _ _ _ HF He') as (e & He & b & P).
    apply plan_ok_cases in P
      as [(Hst & -> & _)|(_ & _ & _ & _ & _ & [(St & _)|(St & _)])]; auto.
    destruct (classified_states _ _ _ _ _ Hc Hin0 He) as [?|[?|?]]; auto.
    contradiction.
Qed.

(** C8, as stated: a registry whose latest version is written with a
    leading blank, [" 1.3.0"], a valid version for [semver]: the first run
    writes ["^ 1.3.0"]; the second run, on the rewritten document, reads
    [1.3.0] as pinned version, finds it different from the resolved
    string, updates the entry again and rewrites the file. *)
Lemma second_run_updates_again :
  let reg := leftpad_registry (str " 1.3.0") in
  disk_after (run example_JSON_parse example_JsonAsty_parse reg example_argv
                  (Some (leftpad_text (str "^1.2.0"))))
  = Some (leftpad_text (str "^ 1.3.0")) /\
  semver_gt (str " 1.3.0") (str "1.2.0") = Some true /\
  exists r2,
    main example_JSON_parse example_JsonAsty_parse reg example_argv
         (Some (leftpad_text (str "^ 1.3.0"))) = Ok r2 /\
    run_updates r2 = true /\
    run_written r2 = Some (leftpad_text (str "^  1.3.0")) /\
    lookup (str "left-pad") (run_manifest r2)
    = Some [mkSpec (str "dependencies") (str "^ 1.3.0") (str "1.3.0")
                   (str "^  1.3.0") (str " 1.3.0") updated].
Proof.
  cbv zeta. split; [vm_compute; reflexivity|]. split; [reflexivity|].
  eexists. split; [vm_compute; reflexivity|].
  split; [reflexivity|]. split; vm_compute; reflexivity.
Qed.

(** C8, amended: when every version the registry resolves is clean (it
    starts with a digit and holds no comparator, bar or blank) and the
    rewritten document is read back with the new specifiers in place of
    the updated ones, a second run against the same registry ends well,
    updates no entry, leaves every entry ignored, skipped or kept, and
    does not write the file. *)
Theorem second_run_changes_nothing
    (JSON_parse : jsstring -> option Package)
    (JsonAsty_parse : jsstring -> option node) (registry : Registry)
    (argv : Argv) (pkgData text2 : jsstring) (pkg : Package) (ast2 : node) (r : Run) :
  main JSON_parse JsonAsty_parse registry argv (Some pkgData) = Ok r ->
  (forall name v, resolved_version argv registry name = Some v -> clean_version v) ->
  JSON_parse pkgData = Some pkg ->
  disk_after (run JSON_parse JsonAsty_parse registry argv (Some pkgData)) = Some text2 ->
  JSON_parse text2
  = Some (rewritten_package (positional argv) (resolved_version argv registry) pkg) ->
  JsonAsty_parse text2 = Some ast2 ->
  exists r2,
    main JSON_parse JsonAsty_parse registry argv (Some text2) = Ok r2 /\
    run_updates r2 = false /\ run_written r2 = None /\
    disk_after (run JSON_parse JsonAsty_parse registry argv (Some text2)) = Some text2 /\
    forall name es e,
      In (name, es) (run_manifest r2) -> In e es ->
      state e = ignored \/ state e = skipped \/ state e = kept.
Proof.
  intros H Hclean Hpkg _ Hpkg2 Hast2.
  set (resolved := resolved_version argv registry) in *.
  pose proof H as H'.
  apply main_ok in H'
    as (pkgData' & pkg' & ast & results & Hd & Hp & Ha & Hres & Hm & _ & _).
  injection Hd as <-. rewrite Hpkg in Hp. injection Hp as <-.
  pose proof (awaityMapLimit_ok registry _ _ _ Hres) as Hres'.
  pose proof (reclassify_follows (positional argv) resolved Hclean _
                (inventory_classified (positional argv) pkg)) as HF.
  rewrite <- inventory_rewritten in HF.
  assert (Hagree : forall name data v,
            In (name, data) results -> resolve argv name data = Ok v ->
            resolved name = Some v).
  { intros name data v Hin Hv.
    destruct (Forall2_In_r _ _ _ _ Hres' Hin) as (n & _ & Hn & Hreg).
    simpl in Hn, Hreg. subst n. unfold resolved, resolved_version.
    now rewrite Hreg, Hv. }
  destruct (merge_follow argv resolved ast2 results Hagree _ _ _ _ _ _ _ Hm HF)
    as (n' & Hm2 & _).
  assert (Hmain2 : main JSON_parse JsonAsty_parse registry argv (Some text2)
                   = Ok (mkRun n' false (report argv n' false) ast2 None)).
  { unfold main. rewrite Hpkg2, Hast2. cbn [parsed bind].
    fold resolved. rewrite (checked_follows resolved _ _ HF).
    rewrite Hres. cbn [bind]. rewrite Hm2. reflexivity. }
  eexists. split; [exact Hmain2|]. split; [reflexivity|]. split; [reflexivity|]. split.
  - unfold run. rewrite Hmain2. reflexivity.
  - intros name es e Hin He.
    destruct (main_final_states _ _ _ _ _ _ Hmain2 name es e Hin He) as [?|[?|[?|Hu]]];
      auto.
    exfalso. destruct (main_merged _ _ _ _ _ _ Hmain2)
      as (_ & _ & _ & _ & _ & _ & _ & _ & _ & _ & Hupd & _).
    cbn [run_updates run_manifest] in Hupd. symmetry in Hupd.
    assert (Htrue : has_updated n' = true).
    { apply has_updated_iff. exists name, es, e. auto. }
    congruence.
Qed.

(** ** The properties on the examples *)

Lemma selection_by_name_and_patterns_witness :
  selected [str "!foo-*"] (str "foo-bar") = false /\
  selected [str "!foo-*"] (str "left-pad") = true.
Proof.
  destruct selection_by_name_and_patterns as (_ & Hneg & _).
  rewrite !(Hneg (str "!foo-*") [] _ eq_refl). split; reflexivity.
Defined.


(** The two entries of [left-pad] are settled for the same version. *)
Example two_sections_same_version :
  lookup (str "left-pad") (run_manifest two_sections_run)
  = Some [mkSpec (str "devDependencies") (str "~1.2.0") (str "1.2.0")
                 (str "~1.3.0") (str "1.3.0") updated;
          mkSpec (str "dependencies") (str "^1.2.0") (str "1.2.0")
                 (str "^1.3.0") (str "1.3.0") updated] /\
  lookup (str "is-odd") (run_manifest two_sections_run)
  = Some [mkSpec (str "dependencies") (str "git+https://example/repo.git")
                 (str "git+https://example/repo.git") (str "git+https://example/repo.git")
                 (str "git+https://example/repo.git") skipped].
Proof. split; reflexivity. Qed.

(** C4, as stated: on the document with a nested [dependencies] object the
    query finds two nodes; the run without [--nop] throws and prints no
    report, the run with [--nop] prints the report of an update. *)
Lemma dry_run_report_differs :
  let run_with nop_flag :=
    run example_JSON_parse example_JsonAsty_parse (leftpad_registry (str "1.3.0"))
        (set_nop nop_flag example_argv) (Some nested_text) in
  run_with false = mkOutcome (Some nested_text) [] 1 /\
  run_with true
  = mkOutcome (Some nested_text)
      [Table [mkRow (str "left-pad") (str "^1.2.0") (str "^1.3.0") updated]] 0 /\
  stdout (run_with true) <> stdout (run_with false).
Proof.
  cbv zeta. split; [vm_compute; reflexivity|]. split; [vm_compute; reflexivity|].
  vm_compute. discriminate.
Qed.

Lemma written_only_after_updates_witness :
  disk_after (run example_JSON_parse example_JsonAsty_parse
                  (leftpad_registry (str "1.3.0"))
                  (set_nop true example_argv) (Some (leftpad_text (str "^1.2.0"))))
  = Some (leftpad_text (str "^1.2.0")).
Proof.
  destruct (written_only_after_updates example_JSON_parse example_JsonAsty_parse
              (leftpad_registry (str "1.3.0")) example_argv
              (Some (leftpad_text (str "^1.2.0"))))
    as (_ & _ & _ & Hdry).
  destruct (Hdry leftpad_run ltac:(vm_compute; reflexivity))
    as (r' & _ & _ & _ & _ & _ & _ & Hdisk).
  exact Hdisk.
Defined.

Lemma format_preserved_witness :
  exists edits,
    run_ast leftpad_run = apply_edits edits (leftpad_ast (str "^1.2.0")) /\
    Forall2 (changed_only (map fst edits))
            (tokens [] (leftpad_ast (str "^1.2.0")))
            (tokens [] (run_ast leftpad_run)).
Proof.
  destruct (format_preserved example_JSON_parse example_JsonAsty_parse
              (leftpad_registry (str "1.3.0")) example_argv
              (leftpad_text (str "^1.2.0")) (leftpad_ast (str "^1.2.0"))
              leftpad_run (leftpad_text (str "^1.3.0"))
              ltac:(vm_compute; reflexivity) ltac:(vm_compute; reflexivity)
              eq_refl ltac:(vm_compute; reflexivity))
    as (edits & Hast & _ & _ & _ & Htok & _).
  exists edits. split; [exact Hast|exact Htok].
Defined.

(** The scenario of the specification: one token of the file changes. *)
Example leftpad_scenario :
  run example_JSON_parse example_JsonAsty_parse (leftpad_registry (str "1.3.0"))
      example_argv (Some (leftpad_text (str "^1.2.0")))
  = mkOutcome (Some (leftpad_text (str "^1.3.0")))
      [Table [mkRow (str "left-pad") (str "^1.2.0") (str "^1.3.0") updated]] 0 /\
  tokens [] (run_ast leftpad_run)
  = map (fun t => if str_eqb (snd t) (JSON_stringify (str "^1.2.0"))
                  then (fst t, JSON_stringify (str "^1.3.0")) else t)
        (tokens [] (leftpad_ast (str "^1.2.0"))).
Proof. split; vm_compute; reflexivity. Qed.

Lemma substitution_never_fails_witness :
  js_replace (str "^1.2.0") (str "1.2.0") (str "1.3.0") <> str "^1.2.0".
Proof.
  destruct substitution_never_fails as (Hrep & _).
  destruct (Hrep [] (str "dependencies") (str "left-pad") (str "^1.2.0") (str "1.3.0")
              eq_refl ltac:(discriminate) eq_refl)
    as (pre & post & _ & _ & _ & Hne).
  exact Hne.
Defined.

Lemma leftpad_registry_clean (name v : jsstring) :
  resolved_version example_argv (leftpad_registry (str "1.3.0")) name = Some v ->
  clean_version v.
Proof.
  unfold resolved_version, leftpad_registry, table. cbn [lookup].
  destruct (str_eqb (str "left-pad") (toLowerCase name)); [|discriminate].
  cbn. intros [= <-]. exists "1"%char, (str ".3.0"). repeat split.
Qed.

Lemma second_run_changes_nothing_witness :
  exists r2,
    main example_JSON_parse example_JsonAsty_parse (leftpad_registry (str "1.3.0"))
         example_argv (Some (leftpad_text (str "^1.3.0"))) = Ok r2 /\
    run_updates r2 = false /\ run_written r2 = None.
Proof.
  destruct (second_run_changes_nothing example_JSON_parse example_JsonAsty_parse
              (leftpad_registry (str "1.3.0")) example_argv
              (leftpad_text (str "^1.2.0")) (leftpad_text (str "^1.3.0"))
              (leftpad_pkg (str "^1.2.0")) (leftpad_ast (str "^1.3.0")) leftpad_run
              ltac:(vm_compute; reflexivity) leftpad_registry_clean
              ltac:(vm_compute; reflexivity) ltac:(vm_compute; reflexivity)
              ltac:(vm_compute; reflexivity) ltac:(vm_compute; reflexivity))
    as (r2 & Hmain & Hu & Hw & _).
  exists r2. auto.
Defined.

(** A resolved version with a leading [v], which [semver] accepts: the
    first run writes it as it is, and on the second run the specifier is no
    longer of the pinned form; the entry is skipped, not kept. *)
Example second_run_skips_prefixed_version :
  disk_after (run example_JSON_parse example_JsonAsty_parse
                  (leftpad_registry (str "v1.3.0")) example_argv
                  (Some (leftpad_text (str "^1.2.0"))))
  = Some (leftpad_text (str "^v1.3.0")) /\
  exists r2,
    main example_JSON_parse example_JsonAsty_parse (leftpad_registry (str "v1.3.0"))
         example_argv (Some (leftpad_text (str "^v1.3.0"))) = Ok r2 /\
    lookup (str "left-pad") (run_manifest r2)
    = Some [mkSpec (str "dependencies") (str "^v1.3.0") (str "^v1.3.0")
                   (str "^v1.3.0") (str "^v1.3.0") skipped].
Proof.
  split; [vm_compute; reflexivity|].
  eexists. split; vm_compute; reflexivity.
Qed.

(** ** More on the inventory *)




Lemma NoDup_snoc {A : Type} (l : list A) (a : A) :
  NoDup l -> ~ In a l -> NoDup (l ++ [a]).
Proof.
  induction 1 as [|x l Hx Hl IH]; simpl; intros Ha.
  - constructor; [intros []|constructor].
  - constructor.
    + intros Hin. apply in_app_or in Hin as [Hin|[->|[]]]; [contradiction|].
      apply Ha. now left.
    + apply IH. intros Hin. apply Ha. now right.
Qed.

Lemma mixin_sections (patterns : list jsstring) (pkg : Package) (sect : jsstring)
    (S : list jsstring) (m : Manifest) :
  distinct_members pkg -> ~ In sect S ->
  (forall name es, In (name, es) m ->
     NoDup (map section es) /\ forall e, In e es -> In (section e) S) ->
  forall name es, In (name, es) (mixin patterns pkg sect m) ->
    NoDup (map section es) /\ forall e, In e es -> In (section e) (sect :: S).
Proof.
  intros Hpkg Hsect Hm. unfold mixin.
  destruct (lookup sect pkg) as [deps|] eqn:Hl.
  - specialize (Hpkg sect deps Hl).
    assert (Hgen : forall done m0,
      (forall name es, In (name, es) m0 ->
         NoDup (map section es) /\
         forall e, In e es -> In (section e) S \/ (section e = sect /\ In name done)) ->
      (forall k, In k (map fst deps) -> ~ In k done) ->
      forall name es,
        In (name, es)
           (fold_left (fun m1 '(module, s) =>
                         manifest_push m1 module (classify patterns sect module s))
                      deps m0) ->
        NoDup (map section es) /\
        forall e, In e es -> In (section e) S \/ section e = sect).
    { clear Hm m Hl. induction deps as [|[module s] deps IH]; intros done m0 Hm0 Hdone; simpl.
      - intros name es Hin. destruct (Hm0 name es Hin) as [Hnd He].
        split; [exact Hnd|]. intros e Hine. destruct (He e Hine) as [?|[? _]]; auto.
      - inversion Hpkg as [|? ? Hnin Hnd']; subst.
        apply (IH Hnd' (module :: done)).
        + intros name es Hin.
          apply manifest_push_in in Hin as [Hin|(E1 & es0 & E2 & Hes0)].
          * destruct (Hm0 name es Hin) as [Hnd He]. split; [exact Hnd|].
            intros e Hine. destruct (He e Hine) as [?|[? ?]]; [auto|].
            right. split; [assumption|now right].
          * subst.
            assert (Hsec : section (classify patterns sect module s) = sect)
              by apply classify_fields.
            assert (H0 : NoDup (map section es0) /\
                         forall e, In e es0 ->
                           In (section e) S \/ (section e = sect /\ In module done)).
            { destruct Hes0 as [->|Hin]; [|exact (Hm0 _ _ Hin)].
              split; [constructor|intros e []]. }
            destruct H0 as [Hnd He]. split.
            -- rewrite map_app. simpl. apply NoDup_snoc; [exact Hnd|].
               rewrite Hsec. intros Hin. apply in_map_iff in Hin as (e & Hse & Hine).
               destruct (He e Hine) as [HS|[_ Hd]].
               ++ rewrite Hse in HS. contradiction.
               ++ apply (Hdone module); [now left|exact Hd].
            -- intros e Hine. apply in_app_or in Hine as [Hine|[<-|[]]].
               ++ destruct (He e Hine) as [?|[? ?]]; [auto|].
                  right. split; [assumption|now right].
               ++ right. split; [exact Hsec|now left].
        + intros k Hk [<-|Hd]; [contradiction|].
          apply (Hdone k); [now right|exact Hd]. }
    intros name es Hin.
    destruct (Hgen [] m) with (name := name) (es := es) as [Hnd He]; auto.
    + intros n l Hnl. destruct (Hm n l Hnl) as [? H']. split; [assumption|].
      intros e Hine. left. auto.
    + split; [exact Hnd|]. intros e Hine. destruct (He e Hine) as [?|<-]; simpl; auto.
  - intros name es Hin. destruct (Hm name es Hin) as [Hnd He].
    split; [exact Hnd|]. intros e Hine. right. auto.
Qed.

(** X2: when the sections of the package have every member once, as the
    keys of an object are, a name has at most one entry per section in
    the inventory, and every entry belongs to one of the four sections. *)
Theorem inventory_one_entry_per_section (patterns : list jsstring) (pkg : Package)
    (name : jsstring) (es : list spec) :
  distinct_members pkg ->
  In (name, es) (inventory patterns pkg) ->
  NoDup (map section es) /\ forall e, In e es -> In (section e) sections.
Proof.
  intros Hpkg Hin. unfold inventory, sections in Hin. cbn [fold_left] in Hin.
  assert (H0 : forall (n : jsstring) (l : list spec),
            In (n, l) (@nil (jsstring * list spec)) ->
            NoDup (map section l) /\ forall e, In e l -> In (section e) []).
  { intros n l []. }
  pose proof (mixin_sections patterns pkg (str "optionalDependencies") [] _ Hpkg
                (fun H => H) H0) as H1.
  assert (N2 : ~ In (str "peerDependencies") [str "optionalDependencies"]).
  { intros [E|[]]; discriminate. }
  assert (N3 : ~ In (str "devDependencies")
                    [str "peerDependencies"; str "optionalDependencies"]).
  { intros [E|[E|[]]]; discriminate. }
  assert (N4 : ~ In (str "dependencies")
                    [str "devDependencies"; str "peerDependencies";
                     str "optionalDependencies"]).
  { intros [E|[E|[E|[]]]]; discriminate. }
  pose proof (mixin_sections patterns pkg _ _ _ Hpkg N2 H1) as H2.
  pose proof (mixin_sections patterns pkg _ _ _ Hpkg N3 H2) as H3.
  pose proof (mixin_sections patterns pkg _ _ _ Hpkg N4 H3) as H4.
  destruct (H4 name es Hin) as [Hnd He]. split; [exact Hnd|].
  intros e Hine. specialize (He e Hine). unfold sections. simpl in *. tauto.
Qed.

Lemma inventory_one_entry_per_section_witness :
  NoDup (map section
           [mkSpec (str "devDependencies") (str "~1.2.0") (str "1.2.0")
                   (str "~1.2.0") (str "1.2.0") check;
            mkSpec (str "dependencies") (str "^1.2.0") (str "1.2.0")
                   (str "^1.2.0") (str "1.2.0") check]).
Proof.
  refine (proj1 (inventory_one_entry_per_section [] two_sections_pkg (str "left-pad") _ _ _)).
  - intros sect deps. unfold two_sections_pkg. cbn [lookup].
    destruct (str_eqb _ sect); [intros [= <-]; repeat constructor; simpl; intuition discriminate|].
    destruct (str_eqb _ sect); [intros [= <-]|discriminate].
    repeat constructor; simpl; intuition discriminate.
  - vm_compute. left. reflexivity.
Defined.

(** ** More on the specifier pattern and on the decision for an entry *)

Lemma comparator_no_class (c : ascii) :
  is_comparator c = true ->
  is_space c = false /\ is_operator c = false /\ is_version_char c = false /\
  is_digit c = false.
Proof.
  unfold is_comparator. intros H.
  repeat (apply orb_true_iff in H as [H|H]);
    apply Ascii.eqb_eq in H; subst c; repeat split; reflexivity.
Qed.

Lemma pinned_form_no_comparator (s v : jsstring) (c : ascii) :
  pinned_form s v -> In c s -> is_comparator c = false.
Proof.
  intros (ws1 & op & ws3 & -> & Hws1 & Hop & (d & t & -> & Hd & Ht) & Hws3) Hin.
  destruct (is_comparator c) eqn:Hc; [|reflexivity]. exfalso.
  destruct (comparator_no_class c Hc) as (Hsp & Ho & Hv & Hdg).
  rewrite forallb_forall in Hws1, Ht, Hws3.
  apply in_app_or in Hin as [Hin|Hin]; [apply Hws1 in Hin; congruence|].
  apply in_app_or in Hin as [Hin|Hin].
  - destruct Hop as [->|(o & ws & -> & Ho' & Hws)]; [destruct Hin|].
    destruct Hin as [->|Hin]; [congruence|].
    rewrite forallb_forall in Hws. apply Hws in Hin. congruence.
  - apply in_app_or in Hin as [[->|Hin]|Hin].
    + congruence.
    + apply Ht in Hin. congruence.
    + apply Hws3 in Hin. congruence.
Qed.

(** X3: a specifier that holds a comparator or a bar ([<], [>], [=], [|])
    never matches the pattern of [mixin]; and the version the pattern
    captures is itself a specifier that pins the same version. *)
Theorem specifier_pattern_edges (s : jsstring) :
  (forall c, In c s -> is_comparator c = true -> match_specifier s = None) /\
  (forall v, match_specifier s = Some v -> match_specifier v = Some v).
Proof.
  split.
  - intros c Hin Hc. destruct (match_specifier s) as [v|] eqn:E; [|reflexivity].
    apply match_specifier_pinned_form in E.
    rewrite (pinned_form_no_comparator s v c E Hin) in Hc. discriminate.
  - intros v E. apply match_specifier_pinned_form in E.
    destruct E as (_ & _ & _ & _ & _ & _ & Hv & _).
    apply match_specifier_pinned_form. exists [], [], [].
    rewrite app_nil_r. repeat split; auto. now left.
Qed.

Lemma specifier_pattern_edges_witness :
  match_specifier (str ">=1.2.0 <2.0.0") = None /\
  match_specifier (str "1.2.0-rc.1") = Some (str "1.2.0-rc.1").
Proof.
  split.
  - apply (proj1 (specifier_pattern_edges (str ">=1.2.0 <2.0.0")) ">"%char);
      [left; reflexivity|reflexivity].
  - apply (proj2 (specifier_pattern_edges (str " ~ 1.2.0-rc.1 "))). reflexivity.
Defined.

Lemma semver_gt_none (a b : jsstring) :
  semver_gt a b = None <-> is_version a = false \/ is_version b = false.
Proof.
  unfold semver_gt, is_version.
  destruct (semver_parse a), (semver_parse b); split;
    try discriminate; auto; intros [?|?]; discriminate.
Qed.

(** X4: the decision for an entry throws exactly when the entry is in
    state [check], the resolved version is not the pinned string, and one
    of the two is not a semantic version; what it throws is the
    [TypeError] of [semver.gt].  A specifier such as [~1.2] is pinned by the
    pattern of [mixin] to [1.2], which is not a semantic version. *)
Theorem plan_throws_iff (patterns : list jsstring) (sect name s name' v : jsstring)
    (err : error) :
  let e := classify patterns sect name s in
  plan name' v e = Throw err <->
  err = TypeError /\ state e = check /\ vOld e <> v /\
  (is_version (vOld e) = false \/ is_version v = false).
Proof.
  intros e.
  assert (Hp : pinned_ok e) by (intros Hst; now apply classify_check_invariant).
  split.
  - intros H. destruct (State_eqb (state e) check) eqn:Hst.
    + apply State_eqb_eq in Hst.
      destruct (str_eqb_spec (vOld e) v) as [Heq|Hne].
      * unfold plan in H. rewrite Hst in H.
        destruct (str_eqb_spec (vOld e) v); [discriminate|contradiction].
      * destruct (semver_gt (vOld e) v) as [[|]|] eqn:Hgt.
        -- unfold plan in H. rewrite Hst, Hgt in H.
           destruct (str_eqb (vOld e) v); discriminate.
        -- destruct (plan_updated name' v e Hst (Hp Hst) Hne Hgt)
             as (? & ? & _ & _ & _ & _ & P).
           congruence.
        -- unfold plan in H. rewrite Hst, Hgt in H.
           destruct (str_eqb (vOld e) v); [discriminate|]. injection H as <-.
           repeat split; auto. now apply semver_gt_none.
    + rewrite plan_not_check in H; [discriminate|].
      intros E. rewrite E in Hst. discriminate.
  - intros (-> & Hst & Hne & Hv). apply semver_gt_none in Hv.
    unfold plan. rewrite Hst, Hv.
    destruct (str_eqb_spec (vOld e) v); [contradiction|reflexivity].
Qed.

(** The specifier [~1.2] with the registry at [1.3.0]. *)
Example short_version_throws :
  state (classify [] (str "dependencies") (str "left-pad") (str "~1.2")) = check /\
  plan (str "left-pad") (str "1.3.0")
       (classify [] (str "dependencies") (str "left-pad") (str "~1.2"))
  = Throw TypeError.
Proof. split; reflexivity. Qed.

(** ** More on a run that ends well *)

(** Where an entry of the final inventory comes from: the entry [mixin]
    built for a dependency, left as it was when it was not in state
    [check], settled for the version resolved for its name otherwise. *)
Lemma final_entry_origin (JSON_parse : jsstring -> option Package)
    (JsonAsty_parse : jsstring -> option node) (registry : Registry)
    (argv : Argv) (disk : option jsstring) (r : Run)
    (name : jsstring) (es' : list spec) (e' : spec) :
  main JSON_parse JsonAsty_parse registry argv disk = Ok r ->
  In (name, es') (run_manifest r) -> In e' es' ->
  exists sect s,
    let e := classify (positional argv) sect name s in
    (state e <> check /\ e' = e) \/
    (state e = check /\
     exists v b, resolved_version argv registry name = Some v /\
                 plan name v e = Ok (e', b)).
Proof.
  intros H Hin He'.
  destruct (main_merged _ _ _ _ _ _ H)
    as (pkgData & pkg & ast & results & edits & _ & _ & _ & Hres & HM & _).
  pose proof (inventory_classified (positional argv) pkg) as Hc.
  destruct (Forall2_In_r _ _ _ _ HM Hin) as ([k es] & Hin0 & Hk & Hm).
  simpl in Hk, Hm. subst k.
  pose proof (results_lookup registry _ _ name Hres) as Hr.
  destruct (lookup name results) as [data|].
  - destruct Hm as (v & Hv & HF). destruct Hr as [_ Hreg].
    destruct (Forall2_In_r _ _ _ _ HF He') as (e & He & b & P).
    destruct (Hc name es e Hin0 He) as (sect & s & ->).
    exists sect, s. cbv zeta.
    destruct (State_eqb (state (classify (positional argv) sect name s)) check) eqn:Hst.
    + apply State_eqb_eq in Hst. right. split; [exact Hst|].
      exists v, b. split; [|exact P].
      unfold resolved_version. now rewrite Hreg, Hv.
    + assert (Hn : state (classify (positional argv) sect name s) <> check).
      { intros E. rewrite E in Hst. discriminate. }
      left. split; [exact Hn|]. rewrite (plan_not_check _ _ _ Hn) in P. congruence.
  - subst es'. destruct (Hc name es e' Hin0 He') as (sect & s & ->).
    exists sect, s. cbv zeta. left. split; [|reflexivity].
    intros Hst. apply Hr. apply checked_iff. eauto.
Qed.



(** X6: in a run that ends well, an updated entry has a resolved version
    that [semver] accepts and does not put below the pinned one, and its new
    specifier is the original one with the first occurrence of the pinned
    version replaced, different from the original; a kept entry has the
    resolved version as new specifier, and its pinned version is that
    string or a greater version. *)
Theorem no_downgrade_in_a_run
    (JSON_parse : jsstring -> option Package)
    (JsonAsty_parse : jsstring -> option node) (registry : Registry)
    (argv : Argv) (disk : option jsstring) (r : Run)
    (name : jsstring) (es' : list spec) (e' : spec) :
  main JSON_parse JsonAsty_parse registry argv disk = Ok r ->
  In (name, es') (run_manifest r) -> In e' es' ->
  (state e' = updated ->
   semver_gt (vOld e') (vNew e') = Some false /\ vOld e' <> vNew e' /\
   sNew e' <> sOld e' /\
   exists pre post,
     find_first (vOld e') (sOld e') = Some (pre, post) /\
     sOld e' = pre ++ vOld e' ++ post /\ sNew e' = pre ++ vNew e' ++ post) /\
  (state e' = kept ->
   sNew e' = vNew e' /\
   (vOld e' = vNew e' \/ semver_gt (vOld e') (vNew e') = Some true)).
Proof.
  intros H Hin He'.
  destruct (final_entry_origin _ _ _ _ _ _ _ _ _ H Hin He')
    as (sect & s & [[Hst ->]|(Hst & v & b & Hv & P)]).
  - pose proof (classify_state (positional argv) sect name s) as Hcs.
    split; intros St; exfalso; rewrite St in Hcs;
      destruct (selected (positional argv) name); try discriminate;
      destruct (match_specifier s); discriminate.
  - set (e := classify (positional argv) sect name s) in *.
    pose proof (classify_check_invariant (positional argv) sect name s Hst) as Hinv.
    fold e in Hinv. pose proof P as P'.
    apply plan_ok_cases in P'
      as [(Hn & _)|(_ & E1 & E2 & E3 & E4 & Hcase)]; [contradiction|].
    destruct Hcase as [(St & _ & HsN & Hor)|(St & _ & HsN & Hch & Hne & Hgt)].
    + split; intros St'; [congruence|]. rewrite E3, E4. split; [congruence|exact Hor].
    + split; intros St'; [|congruence].
      rewrite E2, E3, E4. repeat split; auto; try congruence.
      destruct (plan_updated name v e Hst Hinv Hne Hgt)
        as (pre & post & E & F & R & _ & _).
      exists pre, post. repeat split; auto. congruence.
Qed.

Lemma no_downgrade_in_a_run_witness :
  semver_gt (str "1.2.0") (str "1.3.0") = Some false /\
  str "^1.3.0" <> str "^1.2.0".
Proof.
  destruct (no_downgrade_in_a_run
              example_JSON_parse example_JsonAsty_parse
              (leftpad_registry (str "1.3.0")) example_argv
              (Some (leftpad_text (str "^1.2.0"))) leftpad_run (str "left-pad")
              [mkSpec (str "dependencies") (str "^1.2.0") (str "1.2.0")
                      (str "^1.3.0") (str "1.3.0") updated]
              (mkSpec (str "dependencies") (str "^1.2.0") (str "1.2.0")
                      (str "^1.3.0") (str "1.3.0") updated)
              ltac:(vm_compute; reflexivity)
              ltac:(vm_compute; left; reflexivity)
              ltac:(left; reflexivity))
    as [Hupd _].
  destruct (Hupd eq_refl) as (Hgt & _ & Hne & _). split; [exact Hgt|exact Hne].
Defined.

(** ** Failures of a run and what a run does not depend on *)

Lemma awaityMapLimit_ext {A B : Type} (l : list A) (f g : A -> result B) (limit : nat) :
  (forall a, In a l -> f a = g a) ->
  awaityMapLimit l f limit = awaityMapLimit l g limit.
Proof.
  induction l as [|a l IH]; intros H; simpl; [reflexivity|].
  rewrite (H a (or_introl eq_refl)), IH; [reflexivity|].
  intros x Hx. apply H. now right.
Qed.

(** X7: the registry is asked about the names with an entry in state
    [check] only, in lower case: two registries that agree on these names
    give the same run, whatever they answer for the other names. *)
Theorem registry_asked_for_checked_names_only
    (JSON_parse : jsstring -> option Package)
    (JsonAsty_parse : jsstring -> option node) (reg1 reg2 : Registry)
    (argv : Argv) (pkgData : jsstring) (pkg : Package) :
  JSON_parse pkgData = Some pkg ->
  (forall name, In name (checked (inventory (positional argv) pkg)) ->
                reg1 (toLowerCase name) = reg2 (toLowerCase name)) ->
  main JSON_parse JsonAsty_parse reg1 argv (Some pkgData)
  = main JSON_parse JsonAsty_parse reg2 argv (Some pkgData) /\
  run JSON_parse JsonAsty_parse reg1 argv (Some pkgData)
  = run JSON_parse JsonAsty_parse reg2 argv (Some pkgData).
Proof.
  intros Hp Hreg.
  assert (Hmain : main JSON_parse JsonAsty_parse reg1 argv (Some pkgData)
                  = main JSON_parse JsonAsty_parse reg2 argv (Some pkgData)).
  { unfold main. rewrite Hp. cbn [parsed bind].
    destruct (JsonAsty_parse pkgData) as [ast|]; [|reflexivity]. cbn [parsed bind].
    rewrite (awaityMapLimit_ext _ (lookup_one reg1) (lookup_one reg2)); [reflexivity|].
    intros name Hin. unfold lookup_one, fetchPackageInfo. now rewrite (Hreg name Hin). }
  split; [exact Hmain|]. unfold run. now rewrite Hmain.
Qed.

Lemma registry_asked_for_checked_names_only_witness :
  run (table [(two_sections_text, two_sections_pkg)])
      (table [(two_sections_text, leftpad_ast (str "^1.2.0"))])
      (leftpad_registry (str "1.3.0"))
      (set_nop true example_argv) (Some two_sections_text)
  = run (table [(two_sections_text, two_sections_pkg)])
        (table [(two_sections_text, leftpad_ast (str "^1.2.0"))])
        (table [(str "left-pad", mkInfo [str "1.2.0"; str "1.3.0"] (Some (str "1.3.0")));
                (str "is-odd", mkInfo [] None)])
        (set_nop true example_argv) (Some two_sections_text).
Proof.
  refine (proj2 (registry_asked_for_checked_names_only
                   (table [(two_sections_text, two_sections_pkg)])
                   (table [(two_sections_text, leftpad_ast (str "^1.2.0"))])
                   (leftpad_registry (str "1.3.0"))
                   (table [(str "left-pad",
                            mkInfo [str "1.2.0"; str "1.3.0"] (Some (str "1.3.0")));
                           (str "is-odd", mkInfo [] None)])
                   (set_nop true example_argv) two_sections_text two_sections_pkg
                   eq_refl _)).
  intros name Hin. vm_compute in Hin. destruct Hin as [<-|[]]. reflexivity.
Defined.






Lemma awaityMapLimit_fails (registry : Registry) (names : list jsstring) (limit : nat)
    (name : jsstring) :
  In name names -> registry (toLowerCase name) = None ->
  exists n, awaityMapLimit names (lookup_one registry) limit = Throw (RegistryError n) /\
            registry n = None.
Proof.
  induction names as [|x names IH]; simpl; [intros []|].
  intros Hin Hr. unfold lookup_one at 1. unfold fetchPackageInfo.
  destruct (registry (toLowerCase x)) eqn:Hx; simpl; [|eauto].
  destruct Hin as [->|Hin]; [congruence|].
  destruct (IH Hin Hr) as (n & -> & Hn). simpl. eauto.
Qed.



(** X9: a lookup that fails fails the run: when the registry has no answer
    for a name with an entry in state [check], the run throws the error
    of a failed lookup, prints no report, leaves the file as it is and
    ends with exit code 1, whatever the other names resolve to. *)
Theorem failed_lookup_fails_run
    (JSON_parse : jsstring -> option Package)
    (JsonAsty_parse : jsstring -> option node) (registry : Registry)
    (argv : Argv) (pkgData : jsstring) (pkg : Package) (ast : node) (name : jsstring) :
  JSON_parse pkgData = Some pkg -> JsonAsty_parse pkgData = Some ast ->
  In name (checked (inventory (positional argv) pkg)) ->
  registry (toLowerCase name) = None ->
  exists n,
    main JSON_parse JsonAsty_parse registry argv (Some pkgData)
    = Throw (RegistryError n) /\
    registry n = None /\
    run JSON_parse JsonAsty_parse registry argv (Some pkgData)
    = mkOutcome (Some pkgData) [] 1.
Proof.
  intros Hp Ha Hin Hr.
  destruct (awaityMapLimit_fails registry _ (concurrency argv) name Hin Hr) as (n & Hn & Hreg).
  assert (Hmain : main JSON_parse JsonAsty_parse registry argv (Some pkgData)
                  = Throw (RegistryError n)).
  { unfold main. rewrite Hp, Ha. cbn [parsed bind]. now rewrite Hn. }
  exists n. split; [exact Hmain|]. split; [exact Hreg|].
  unfold run. now rewrite Hmain.
Qed.

Lemma failed_lookup_fails_run_witness :
  run example_JSON_parse example_JsonAsty_parse (table [])
      example_argv (Some (leftpad_text (str "^1.2.0")))
  = mkOutcome (Some (leftpad_text (str "^1.2.0"))) [] 1.
Proof.
  destruct (failed_lookup_fails_run
              example_JSON_parse example_JsonAsty_parse (table []) example_argv
              (leftpad_text (str "^1.2.0")) (leftpad_pkg (str "^1.2.0"))
              (leftpad_ast (str "^1.2.0")) (str "left-pad")
              ltac:(vm_compute; reflexivity) ltac:(vm_compute; reflexivity)
              ltac:(vm_compute; left; reflexivity) eq_refl)
    as (n & _ & _ & Hrun).
  exact Hrun.
Defined.

(** ** The report and the options that only change it *)

Lemma merge_entries_options (argv argv' : Argv) (name v : jsstring) (es : list spec)
    (ast : node) (u : bool) :
  nop argv' = nop argv ->
  merge_entries argv' name v es ast u = merge_entries argv name v es ast u.
Proof.
  intros Hn. revert ast u. induction es as [|e es IH]; intros ast u; simpl; [reflexivity|].
  assert (E : merge_entry argv' name v e ast u = merge_entry argv name v e ast u).
  { unfold merge_entry, patch_ast. now rewrite Hn. }
  rewrite E. destruct (merge_entry argv name v e ast u) as [[[e1 a1] u1]|]; simpl;
    [|reflexivity].
  now rewrite IH.
Qed.

Lemma merge_options (argv argv' : Argv) (results : list (jsstring * PackageInfo))
    (m : Manifest) (ast : node) (u : bool) :
  nop argv' = nop argv -> greatest argv' = greatest argv ->
  merge argv' results m ast u = merge argv results m ast u.
Proof.
  intros Hn Hg. revert m ast u.
  induction results as [|[name data] rest IH]; intros m ast u; simpl; [reflexivity|].
  assert (E : resolve argv' name data = resolve argv name data).
  { unfold resolve. now rewrite Hg. }
  rewrite E. destruct (resolve argv name data) as [v|]; simpl; [|reflexivity].
  destruct (lookup name m) as [es|]; [|reflexivity].
  rewrite (merge_entries_options argv argv' name v es ast u Hn).
  destruct (merge_entries argv name v es ast u) as [[[es1 a1] u1]|]; simpl;
    [|reflexivity].
  apply IH.
Qed.

(** X10: the options [--all] and [--quiet] change the report and nothing
    else: two command lines that differ in these options only give runs
    that fail in the same way or end with the same inventory, the same
    tree and the same file written. *)
Theorem report_options_change_the_report_only
    (JSON_parse : jsstring -> option Package)
    (JsonAsty_parse : jsstring -> option node) (registry : Registry)
    (argv argv' : Argv) (disk : option jsstring) :
  positional argv' = positional argv -> nop argv' = nop argv ->
  greatest argv' = greatest argv -> file argv' = file argv ->
  concurrency argv' = concurrency argv ->
  main JSON_parse JsonAsty_parse registry argv' disk
  = match main JSON_parse JsonAsty_parse registry argv disk with
    | Ok r => Ok (mkRun (run_manifest r) (run_updates r)
                        (report argv' (run_manifest r) (run_updates r))
                        (run_ast r) (run_written r))
    | Throw e => Throw e
    end /\
  disk_after (run JSON_parse JsonAsty_parse registry argv' disk)
  = disk_after (run JSON_parse JsonAsty_parse registry argv disk) /\
  exit_code (run JSON_parse JsonAsty_parse registry argv' disk)
  = exit_code (run JSON_parse JsonAsty_parse registry argv disk).
Proof.
  intros Hpos Hn Hg Hf Hc.
  assert (Hmain : main JSON_parse JsonAsty_parse registry argv' disk
    = match main JSON_parse JsonAsty_parse registry argv disk with
      | Ok r => Ok (mkRun (run_manifest r) (run_updates r)
                          (report argv' (run_manifest r) (run_updates r))
                          (run_ast r) (run_written r))
      | Throw e => Throw e
      end).
  { unfold main. rewrite Hf. destruct disk as [pkgData|]; [|reflexivity].
    destruct (JSON_parse pkgData) as [pkg|]; [|reflexivity].
    destruct (JsonAsty_parse pkgData) as [ast|]; [|reflexivity].
    cbn [parsed bind]. rewrite Hpos, Hc.
    destruct (awaityMapLimit _ _ _) as [results|]; [|reflexivity]. cbn [bind].
    rewrite (merge_options argv argv' results _ ast false Hn Hg).
    destruct (merge argv results _ ast false) as [[[m' ast'] u']|]; [|reflexivity].
    cbn [bind]. now rewrite Hn. }
  split; [exact Hmain|]. unfold run. rewrite Hmain.
  destruct (main JSON_parse JsonAsty_parse registry argv disk); split; reflexivity.
Qed.

Lemma report_options_change_the_report_only_witness :
  disk_after (run example_JSON_parse example_JsonAsty_parse
                  (leftpad_registry (str "1.3.0"))
                  (mkArgv [] false false true true (str "-") 8)
                  (Some (leftpad_text (str "^1.2.0"))))
  = Some (leftpad_text (str "^1.3.0")).
Proof.
  destruct (report_options_change_the_report_only
              example_JSON_parse example_JsonAsty_parse (leftpad_registry (str "1.3.0"))
              example_argv (mkArgv [] false false true true (str "-") 8)
              (Some (leftpad_text (str "^1.2.0")))
              eq_refl eq_refl eq_refl eq_refl eq_refl) as (_ & Hdisk & _).
  rewrite Hdisk. vm_compute. reflexivity.
Defined.

Lemma rows_In (argv : Argv) (m : Manifest) (row : Row) :
  In row (rows argv m) <->
  exists name es e,
    In (name, es) m /\ In e es /\
    (state e = updated \/ all argv = true) /\
    row = mkRow name (sOld e) (sNew e) (state e).
Proof.
  unfold rows. rewrite in_flat_map. split.
  - intros ([name es] & Hin & H). apply in_flat_map in H as (e & He & H).
    destruct (State_eqb (state e) updated || all argv) eqn:E; [|destruct H].
    destruct H as [<-|[]]. exists name, es, e. repeat split; auto.
    apply orb_true_iff in E as [E|E]; [left; now apply State_eqb_eq|auto].
  - intros (name & es & e & Hin & He & Hc & ->). exists (name, es). split; [exact Hin|].
    apply in_flat_map. exists e. split; [exact He|].
    assert (E : State_eqb (state e) updated || all argv = true).
    { apply orb_true_iff. destruct Hc as [Hc|Hc]; [left; now apply State_eqb_eq|auto]. }
    rewrite E. now left.
Qed.

(** X11: the report of a run that ends well.  With [--quiet] nothing is
    printed.  Otherwise the line "all package dependencies up-to-date" is
    printed exactly when [--all] is not set and no entry is updated, and
    the table is printed in the other cases; the table has a row for an
    entry exactly when the entry is updated or [--all] is set, so without
    [--all] a printed table is not empty and holds updated entries only. *)
Theorem report_of_a_run
    (JSON_parse : jsstring -> option Package)
    (JsonAsty_parse : jsstring -> option node) (registry : Registry)
    (argv : Argv) (disk : option jsstring) (r : Run) :
  main JSON_parse JsonAsty_parse registry argv disk = Ok r ->
  let no_update := forall name es e,
                     In (name, es) (run_manifest r) -> In e es -> state e <> updated in
  (quiet argv = true -> run_report r = []) /\
  (quiet argv = false ->
   (all argv = false /\ no_update -> run_report r = [AllUpToDate]) /\
   (~ (all argv = false /\ no_update) ->
    run_report r = [Table (rows argv (run_manifest r))]) /\
   (all argv = false -> ~ no_update ->
    rows argv (run_manifest r) <> [] /\
    forall row, In row (rows argv (run_manifest r)) -> row_state row = updated)) /\
  (forall row,
     In row (rows argv (run_manifest r)) <->
     exists name es e,
       In (name, es) (run_manifest r) /\ In e es /\
       (state e = updated \/ all argv = true) /\
       row = mkRow name (sOld e) (sNew e) (state e)).
Proof.
  intros H no_update.
  pose proof H as H'.
  apply main_ok in H' as (_ & _ & _ & _ & _ & _ & _ & _ & _ & Hrep & _).
  destruct (main_merged _ _ _ _ _ _ H) as (_ & _ & _ & _ & _ & _ & _ & _ & _ & _ & Hu & _).
  assert (Hno : no_update <-> run_updates r = false).
  { rewrite Hu. split.
    - intros Hn. destruct (has_updated (run_manifest r)) eqn:E; [|reflexivity].
      apply has_updated_iff in E as (name & es & e & Hin & He & St).
      exfalso. exact (Hn name es e Hin He St).
    - intros E name es e Hin He St.
      assert (Ht : has_updated (run_manifest r) = true).
      { apply has_updated_iff. exists name, es, e. auto. }
      congruence. }
  split; [|split; [|apply rows_In]].
  - intros Hq. rewrite Hrep. unfold report. now rewrite Hq.
  - intros Hq. split; [|split].
    + intros [Ha Hn]. apply Hno in Hn. rewrite Hrep. unfold report.
      now rewrite Hq, Hn, Ha.
    + intros Hnot. rewrite Hrep. unfold report. rewrite Hq.
      destruct (run_updates r) eqn:Eu; [reflexivity|].
      destruct (all argv) eqn:Ea; [reflexivity|].
      exfalso. apply Hnot. split; [reflexivity|]. now apply Hno.
    + intros Ha Hnot.
      assert (Eu : run_updates r = true).
      { destruct (run_updates r) eqn:Eu; [reflexivity|].
        exfalso. apply Hnot. now apply Hno. }
      split.
      * rewrite Hu in Eu. apply has_updated_iff in Eu as (name & es & e & Hin & He & St).
        intros Hnil.
        assert (Hrow : In (mkRow name (sOld e) (sNew e) (state e))
                          (rows argv (run_manifest r))).
        { apply rows_In. exists name, es, e. auto. }
        rewrite Hnil in Hrow. destruct Hrow.
      * intros row Hrow. apply rows_In in Hrow as (name & es & e & _ & _ & [St|Hall] & ->).
        -- exact St.
        -- congruence.
Qed.

Lemma report_of_a_run_witness :
  run_report leftpad_run
  = [Table [mkRow (str "left-pad") (str "^1.2.0") (str "^1.3.0") updated]].
Proof.
  destruct (report_of_a_run example_JSON_parse example_JsonAsty_parse
              (leftpad_registry (str "1.3.0")) example_argv
              (Some (leftpad_text (str "^1.2.0"))) leftpad_run
              ltac:(vm_compute; reflexivity)) as (_ & Hq & _).
  destruct (Hq eq_refl) as (_ & Htable & _).
  rewrite Htable; [vm_compute; reflexivity|].
  intros [_ Hno].
  apply (Hno (str "left-pad")
             [mkSpec (str "dependencies") (str "^1.2.0") (str "1.2.0")
                     (str "^1.3.0") (str "1.3.0") updated]
             (mkSpec (str "dependencies") (str "^1.2.0") (str "1.2.0")
                     (str "^1.3.0") (str "1.3.0") updated)).
  - vm_compute. left. reflexivity.
  - left. reflexivity.
  - reflexivity.
Defined.

(** ** The text of the table *)

Lemma stripAnsi_app (a b : Styled) : stripAnsi (a ++ b) = stripAnsi a ++ stripAnsi b.
Proof. unfold stripAnsi. now rewrite map_app, concat_app. Qed.

Lemma mark_fold (color : colour) (l : list (diff_op * jsstring)) (acc : Styled) :
  stripAnsi
    (fold_left (fun output chunk =>
                  match fst chunk with
                  | INSERT => output ++ chalk color (snd chunk)
                  | EQUAL => output ++ [(None, snd chunk)]
                  | DELETE => output
                  end) l acc)
  = stripAnsi acc ++ chunks_without DELETE l.
Proof.
  revert acc. induction l as [|[o s] l IH]; intros acc; simpl.
  - unfold chunks_without. simpl. now rewrite app_nil_r.
  - rewrite IH. unfold chunks_without. destruct o; simpl.
    + reflexivity.
    + rewrite stripAnsi_app. unfold stripAnsi at 2. simpl.
      now rewrite app_nil_r, <- app_assoc.
    + rewrite stripAnsi_app. unfold stripAnsi at 2. simpl.
      now rewrite app_nil_r, <- app_assoc.
Qed.

(** X12: whatever [diff] finds, as long as its result is a diff of the two
    strings, [mark(color, text, other)] shows the string [other]: the
    colours apart, the "old" column of an updated row is the original
    specifier and the "new" column the new one, and the table holds, row
    by row, the name, the two specifiers and the state of the entries of
    the report. *)
Theorem table_shows_the_specifiers (diff : Diff) :
  valid_diff diff ->
  (forall color text other, stripAnsi (mark diff color text other) = other) /\
  (forall argv manifest,
     map (map stripAnsi) (table_rows diff argv manifest)
     = map (fun row => [row_module row; row_older row; row_newer row;
                        state_name (row_state row)])
           (rows argv manifest)).
Proof.
  intros Hd.
  assert (Hmark : forall color text other, stripAnsi (mark diff color text other) = other).
  { intros color text other. unfold mark. rewrite mark_fold. simpl. apply Hd. }
  split; [exact Hmark|].
  intros argv manifest. unfold table_rows, rows.
  induction manifest as [|[name es] m IH]; [reflexivity|].
  cbn [flat_map]. rewrite !map_app, IH. f_equal.
  clear IH. induction es as [|e es IHes]; [reflexivity|].
  cbn [flat_map]. rewrite !map_app, IHes. f_equal.
  destruct (State_eqb (state e) updated || all argv); [|reflexivity].
  unfold table_row. cbn [map row_module row_older row_newer row_state].
  destruct (State_eqb (state e) updated); cbn [map]; rewrite ?Hmark;
    unfold stripAnsi, chalk; simpl; now rewrite ?app_nil_r.
Qed.

Lemma table_shows_the_specifiers_witness :
  map stripAnsi
      (table_row replace_all_diff (str "left-pad")
         (mkSpec (str "dependencies") (str "^1.2.0") (str "1.2.0")
                 (str "^1.3.0") (str "1.3.0") updated))
  = [str "left-pad"; str "^1.2.0"; str "^1.3.0"; str "updated"].
Proof.
  assert (Hd : valid_diff replace_all_diff).
  { intros text other. unfold replace_all_diff, chunks_without. simpl.
    now rewrite !app_nil_r. }
  destruct (table_shows_the_specifiers replace_all_diff Hd) as [Hmark _].
  unfold table_row. cbn [State_eqb state map sNew sOld].
  rewrite !Hmark. reflexivity.
Defined.

(** ** The greatest version *)

Lemma N_lex_gt_trans (a b c : N) (x y z : comparison) :
  match N.compare a b with Eq => x | o => o end = Gt ->
  match N.compare b c with Eq => y | o => o end = Gt ->
  (x = Gt -> y = Gt -> z = Gt) ->
  match N.compare a c with Eq => z | o => o end = Gt.
Proof.
  destruct (N.compare_spec a b), (N.compare_spec b c), (N.compare_spec a c);
    subst; try lia; try discriminate; auto.
Qed.

Lemma code_inj (x y : ascii) : code x = code y -> x = y.
Proof.
  unfold code. intros H. rewrite <- (ascii_N_embedding x), <- (ascii_N_embedding y).
  now rewrite H.
Qed.

Lemma str_compare_eq (a b : jsstring) : str_compare a b = Eq -> a = b.
Proof.
  revert b. induction a as [|x a IH]; intros [|y b]; simpl; try discriminate; auto.
  destruct (N.compare_spec (code x) (code y)) as [E| |]; try discriminate.
  intros H. apply code_inj in E. subst. f_equal. auto.
Qed.

Lemma str_compare_gt_trans (a b c : jsstring) :
  str_compare a b = Gt -> str_compare b c = Gt -> str_compare a c = Gt.
Proof.
  revert b c. induction a as [|x a IH]; intros [|y b] [|z c]; simpl;
    try discriminate; auto.
  intros H1 H2. eapply N_lex_gt_trans; eauto.
Qed.

Lemma compare_identifiers_eq (a b : ident) : compare_identifiers a b = Eq -> a = b.
Proof.
  destruct a, b; simpl; try discriminate.
  - intros H. apply N.compare_eq in H. now subst.
  - intros H. apply str_compare_eq in H. now subst.
Qed.

Lemma compare_identifiers_gt_trans (a b c : ident) :
  compare_identifiers a b = Gt -> compare_identifiers b c = Gt ->
  compare_identifiers a c = Gt.
Proof.
  destruct a, b, c; simpl; try discriminate; auto.
  - rewrite !N.compare_gt_iff. lia.
  - apply str_compare_gt_trans.
Qed.

Lemma compare_identifier_lists_gt_trans (a b c : list ident) :
  compare_identifier_lists a b = Gt -> compare_identifier_lists b c = Gt ->
  compare_identifier_lists a c = Gt.
Proof.
  revert b c. induction a as [|x a IH]; intros [|y b] [|z c]; simpl;
    try discriminate; auto.
  destruct (compare_identifiers x y) eqn:Exy; try discriminate;
    destruct (compare_identifiers y z) eqn:Eyz; try discriminate; intros H1 H2.
  - apply compare_identifiers_eq in Exy, Eyz. subst.
    rewrite compare_identifiers_refl. eauto.
  - apply compare_identifiers_eq in Exy. subst. now rewrite Eyz.
  - apply compare_identifiers_eq in Eyz. subst. now rewrite Exy.
  - now rewrite (compare_identifiers_gt_trans x y z Exy Eyz).
Qed.

Lemma compare_pre_gt_trans (a b c : list ident) :
  compare_pre a b = Gt -> compare_pre b c = Gt -> compare_pre a c = Gt.
Proof.
  destruct a as [|x a], b as [|y b], c as [|z c]; simpl; try discriminate; auto.
  apply (compare_identifier_lists_gt_trans (x :: a) (y :: b) (z :: c)).
Qed.

Lemma semver_compare_gt_trans (a b c : SemVer) :
  semver_compare a b = Gt -> semver_compare b c = Gt -> semver_compare a c = Gt.
Proof.
  unfold semver_compare. intros H1 H2.
  eapply N_lex_gt_trans; [exact H1|exact H2|]. clear H1 H2. intros H1 H2.
  eapply N_lex_gt_trans; [exact H1|exact H2|]. clear H1 H2. intros H1 H2.
  eapply N_lex_gt_trans; [exact H1|exact H2|]. apply compare_pre_gt_trans.
Qed.

Lemma semver_gt_trans (a b c : jsstring) :
  semver_gt a b = Some true -> semver_gt b c = Some true -> semver_gt a c = Some true.
Proof.
  unfold semver_gt.
  destruct (semver_parse a) as [x|], (semver_parse b) as [y|], (semver_parse c) as [z|];
    try discriminate.
  destruct (semver_compare x y) eqn:E1; try discriminate.
  destruct (semver_compare y z) eqn:E2; try discriminate.
  now rewrite (semver_compare_gt_trans x y z E1 E2).
Qed.

Lemma first_greatest_spec (rest : list jsstring) :
  forall best seen,
    (forall w, In w seen -> semver_gt w best <> Some true) ->
    In (first_greatest best rest) (best :: rest) /\
    forall w, In w seen \/ In w rest ->
              semver_gt w (first_greatest best rest) <> Some true.
Proof.
  induction rest as [|v r IH]; intros best seen Hseen; simpl.
  - split; [now left|]. intros w [Hw|[]]. auto.
  - destruct (semver_gt v best) as [[|]|] eqn:Hv.
    + destruct (IH v (v :: seen)) as [Hin Hmax].
      * intros w [<-|Hw]; [apply semver_gt_irrefl|].
        intros Hwv. apply (Hseen w Hw). eapply semver_gt_trans; eauto.
      * split; [right; exact Hin|]. intros w [Hw|[<-|Hw]]; apply Hmax; simpl; auto.
    + destruct (IH best (v :: seen)) as [Hin Hmax].
      * intros w [<-|Hw]; [congruence|auto].
      * split; [destruct Hin; simpl; auto|].
        intros w [Hw|[<-|Hw]]; apply Hmax; simpl; auto.
    + destruct (IH best (v :: seen)) as [Hin Hmax].
      * intros w [<-|Hw]; [congruence|auto].
      * split; [destruct Hin; simpl; auto|].
        intros w [Hw|[<-|Hw]]; apply Hmax; simpl; auto.
Qed.

(** X13: with [--greatest] the version resolved for a package is one of
    the versions the registry lists, no listed version is greater under
    the order of semantic versions, and the [latest] tag plays no part;
    an empty list is a [TypeError]. *)
Theorem greatest_is_a_maximum (argv : Argv) (name : jsstring) (data : PackageInfo) :
  greatest argv = true ->
  (forall v,
     resolve argv name data = Ok v ->
     In v (versions data) /\
     forall w, In w (versions data) -> semver_gt w v <> Some true) /\
  (forall tag, resolve argv name (mkInfo (versions data) tag) = resolve argv name data) /\
  (versions data = [] -> resolve argv name data = Throw TypeError).
Proof.
  intros Hg. unfold resolve. rewrite Hg. cbn [versions]. split; [|split].
  - intros v. destruct (versions data) as [|x [|y l]]; [discriminate| |].
    + intros [= <-]. split; [now left|]. intros w [<-|[]]. apply semver_gt_irrefl.
    + destruct (forallb is_version (x :: y :: l)); [|discriminate].
      intros [= <-].
      destruct (first_greatest_spec (y :: l) x [x]) as [Hin Hmax].
      * intros w [<-|[]]. apply semver_gt_irrefl.
      * split; [exact Hin|]. intros w [<-|Hw]; apply Hmax; simpl; auto.
  - reflexivity.
  - now intros ->.
Qed.

Lemma greatest_is_a_maximum_witness :
  resolve (mkArgv [] false true false false (str "-") 8) (str "left-pad")
          (mkInfo [str "1.9.0"; str "1.10.0"; str "1.10.0-rc.1"] (Some (str "1.9.0")))
  = Ok (str "1.10.0") /\
  semver_gt (str "1.10.0-rc.1") (str "1.10.0") <> Some true.
Proof.
  split; [reflexivity|].
  destruct (greatest_is_a_maximum (mkArgv [] false true false false (str "-") 8)
              (str "left-pad")
              (mkInfo [str "1.9.0"; str "1.10.0"; str "1.10.0-rc.1"] (Some (str "1.9.0")))
              eq_refl) as (Hmax & _).
  destruct (Hmax (str "1.10.0") eq_refl) as [_ H]. apply H. simpl. auto.
Defined.

(** ** The path of a package at the registry *)

Lemma decode_encode_unit (c : ascii) (r : jsstring) :
  decode_unit (encode_unit c ++ r) = Some (c, r).
Proof. destruct c as [[] [] [] [] [] [] [] []]; reflexivity. Qed.

Lemma encodeURIComponent_cons (c : ascii) (s : jsstring) :
  encodeURIComponent (c :: s) = encode_unit c ++ encodeURIComponent s.
Proof. reflexivity. Qed.

Lemma encodeURIComponent_inj (a b : jsstring) :
  encodeURIComponent a = encodeURIComponent b -> a = b.
Proof.
  revert b. induction a as [|c a IH]; intros [|d b] H; auto.
  - apply (f_equal decode_unit) in H.
    rewrite encodeURIComponent_cons, decode_encode_unit in H. discriminate.
  - apply (f_equal decode_unit) in H.
    rewrite encodeURIComponent_cons, decode_encode_unit in H. discriminate.
  - apply (f_equal decode_unit) in H.
    rewrite !encodeURIComponent_cons, !decode_encode_unit in H.
    injection H as -> H. f_equal. auto.
Qed.

Lemma encode_unit_chars (c x : ascii) :
  In x (encode_unit c) -> uri_unreserved x = true \/ x = "%"%char.
Proof.
  destruct c as [[] [] [] [] [] [] [] []]; cbv [encode_unit];
    match goal with
    | |- In _ (if ?b then _ else _) -> _ =>
        let v := eval vm_compute in b in change b with v; cbv iota
    end;
    try (intros [<-|[]]; left; reflexivity);
    match goal with
    | |- In _ ?l -> _ => let v := eval vm_compute in l in change l with v
    end;
    simpl; intros H;
    repeat (destruct H as [<-|H]; [first [left; reflexivity | right; reflexivity]|]);
    destruct H.
Qed.

Lemma encodeURIComponent_chars (s : jsstring) (x : ascii) :
  In x (encodeURIComponent s) -> uri_unreserved x = true \/ x = "%"%char.
Proof.
  unfold encodeURIComponent. rewrite in_flat_map. intros (c & _ & H).
  eapply encode_unit_chars; eauto.
Qed.

Lemma strip_prefix_eq (p s r : jsstring) : strip_prefix p s = Some r -> s = p ++ r.
Proof.
  revert s. induction p as [|c p IH]; intros s; simpl.
  - now intros [= ->].
  - destruct s as [|d s]; [discriminate|].
    destruct (Ascii.eqb_spec c d); [|discriminate]. subst. intros H. f_equal. auto.
Qed.

Lemma package_path_cases (name : jsstring) :
  (exists rest, encodeURIComponent name = str "%40" ++ rest /\
                package_path name = str "@" ++ rest) \/
  (package_path name = encodeURIComponent name).
Proof.
  unfold package_path. destruct (strip_prefix _ _) as [rest|] eqn:E; [|now right].
  left. exists rest. split; [now apply strip_prefix_eq|reflexivity].
Qed.

Lemma encoded_head (s r : jsstring) : encodeURIComponent s <> "@"%char :: r.
Proof.
  intros H.
  assert (Hin : In "@"%char (encodeURIComponent s)) by (rewrite H; now left).
  apply encodeURIComponent_chars in Hin. destruct Hin; discriminate.
Qed.

(** X14: two different names are never asked for at the same path of the
    registry: the path of a package determines its name. *)
Theorem package_path_determines_the_name (a b : jsstring) :
  package_path a = package_path b -> a = b.
Proof.
  intros H. apply encodeURIComponent_inj.
  destruct (package_path_cases a) as [(ra & Ea & Pa)|Pa],
           (package_path_cases b) as [(rb & Eb & Pb)|Pb];
    rewrite Pa, Pb in H.
  - injection H as H. now rewrite Ea, Eb, H.
  - symmetry in H. now apply encoded_head in H.
  - now apply encoded_head in H.
  - exact H.
Qed.

Lemma package_path_determines_the_name_witness :
  package_path (str "@babel/core") = str "@babel%2Fcore" /\
  str "@babel/core" = str "@babel/core".
Proof.
  split; [reflexivity|].
  apply (package_path_determines_the_name (str "@babel/core") (str "@babel/core") eq_refl).
Defined.

(** X15: the path of a package is one segment of plain characters:
    letters, digits, the marks that need no escape and [%]; no character
    of it ends the segment or starts a query, a fragment or a scheme, and
    only its first character can be [@], which it is exactly for a scoped
    name. *)
Theorem package_path_is_one_segment (name : jsstring) :
  (forall x, In x (tl (package_path name)) ->
             uri_unreserved x = true \/ x = "%"%char) /\
  (forall x, In x (package_path name) -> is_url_delimiter x = false) /\
  (forall rest, package_path name = "@"%char :: rest <->
                exists r, name = "@"%char :: r /\ rest = encodeURIComponent r).
Proof.
  assert (Htl : forall s x, In x (tl (encodeURIComponent s)) ->
                            uri_unreserved x = true \/ x = "%"%char).
  { intros s x Hx. apply (encodeURIComponent_chars s).
    destruct (encodeURIComponent s); [destruct Hx|now right]. }
  assert (Hd : forall x, uri_unreserved x = true \/ x = "%"%char ->
                         is_url_delimiter x = false).
  { intros x [Hx|Hx]; [|now subst].
    destruct x as [[] [] [] [] [] [] [] []]; try reflexivity; discriminate. }
  assert (Hat : forall r, encodeURIComponent ("@"%char :: r)
                          = str "%40" ++ encodeURIComponent r) by reflexivity.
  split; [|split].
  - intros x. destruct (package_path_cases name) as [(r & E & ->)| ->]; [|apply Htl].
    simpl. intros Hx. apply (encodeURIComponent_chars name). rewrite E.
    simpl. auto.
  - intros x. destruct (package_path_cases name) as [(r & E & ->)| ->].
    + intros [<-|Hx]; [reflexivity|]. apply Hd, (encodeURIComponent_chars name).
      rewrite E. simpl. auto.
    + intros Hx. now apply Hd, (encodeURIComponent_chars name).
  - intros rest. split.
    + destruct (package_path_cases name) as [(r & E & ->)| ->].
      * intros [= <-]. destruct name as [|c s]; [discriminate|].
        rewrite encodeURIComponent_cons in E.
        assert (D := decode_encode_unit c (encodeURIComponent s)).
        rewrite E in D. simpl in D. injection D as <- ->. eauto.
      * intros H. now apply encoded_head in H.
    + intros (r & -> & ->). unfold package_path. rewrite Hat.
      now rewrite strip_prefix_app.
Qed.
